(** * article-tracker: the ingestion pipeline

    A shallow embedding of [archiver/database.py] (the article store) and
    [archiver/feeds.py] (retry policy, Open Graph enrichment, paywall bypass
    chain, HTML sanitizer, redirect resolution and the per-source pass),
    followed by the properties of the pipeline proved on it.

    Conventions.
    - Python [str] is [string]; [len] is [String.length]; truthiness of a
      string is non-emptiness ([truthy]).
    - Everything outside the process (HTTP servers, the headless browser,
      the feed parser, the clock, the image cache) is an oracle of [Env].
      Every oracle is given the log of the events so far, so an answer may
      depend on the whole history of the run.
    - Effectful functions live in the state monad [M] over [World]: the
      store and the event log. *)

From Stdlib Require Import ZArith String Ascii List Bool Lia.
From stdpp Require Import base gmap strings list.

Set Warnings "-register-all,-clear-no-such-hyp".

Open Scope Z_scope.
Open Scope string_scope.
Open Scope list_scope.

(** ** Python string helpers *)

(** [bool(s)] for a string. *)
Definition truthy (s : string) : bool :=
  match s with EmptyString => false | String _ _ => true end.

(** [bool(o)] for a value that is a string or [None]. *)
Definition truthy_opt (o : option string) : bool :=
  match o with None => false | Some s => truthy s end.

(** [needle in hay]. *)
Fixpoint contains (needle hay : string) : bool :=
  if String.prefix needle hay then true
  else match hay with
       | EmptyString => false
       | String _ rest => contains needle rest
       end.

(** [s.startswith(p)]. *)
Definition startswith (p s : string) : bool := String.prefix p s.

(** [s[:n]]. *)
Definition take_str (n : nat) (s : string) : string := String.substring 0 n s.

(** [c * n] for a one-character string. *)
Fixpoint repeat_char (c : ascii) (n : nat) : string :=
  match n with O => EmptyString | S k => String c (repeat_char c k) end.

(** ** The store: [archiver/database.py] *)

Module Database.

(** One row of [articles]. The three JSON columns hold the list that
    [json.dumps] writes. *)
Record Article := {
  id : Z;
  url : string;
  source_slug : string;
  source_name : string;
  category : string;
  headline : string;
  byline : string;
  description : string;
  article_text : string;
  publish_date : option string;
  discovered_at : string;
  preview_image_url : string;
  preview_image_local : string;
  image_urls : list string;
  local_image_paths : list string;
  tags : list string;
  article_section : string
}.

(** One row of the full-text shadow table [articles_fts]. *)
Record FtsRow := {
  rowid : Z;
  fts_headline : string;
  fts_byline : string;
  fts_description : string;
  fts_article_text : string;
  fts_tags : list string
}.

(** The connection's state: both tables and the AUTOINCREMENT counter that
    SQLite keeps in [sqlite_sequence]. *)
Record Store := {
  articles : list Article;
  articles_fts : list FtsRow;
  sequence : Z
}.

Definition empty : Store :=
  {| articles := []; articles_fts := []; sequence := 0 |}.

(** The keyword arguments [process_source] (and [backfill.py]) pass to
    [add_article]. *)
Record ArticleArgs := {
  a_url : string;
  a_source_slug : string;
  a_source_name : string;
  a_category : string;
  a_headline : string;
  a_byline : string;
  a_description : string;
  a_article_text : string;
  a_publish_date : option string;
  a_preview_image_url : string;
  a_preview_image_local : string;
  a_tags : list string
}.

(** [SELECT 1 FROM articles WHERE url = ?] ... [is not None]. *)
Definition url_exists (db : Store) (u : string) : bool :=
  existsb (fun r => String.eqb (url r) u) (articles db).

(** [SELECT * FROM articles WHERE url = ?], first row. *)
Definition get_article_by_url (db : Store) (u : string) : option Article :=
  List.find (fun r => String.eqb (url r) u) (articles db).

(** [SELECT * FROM articles WHERE id = ?]. *)
Definition get_article (db : Store) (aid : Z) : option Article :=
  List.find (fun r => Z.eqb (id r) aid) (articles db).

(** [SELECT COUNT( * ) FROM articles WHERE url = ?]. *)
Definition count_url (db : Store) (u : string) : nat :=
  List.length (List.filter (fun r => String.eqb (url r) u) (articles db)).

(** The invariant of the UNIQUE constraint: no URL is stored twice. *)
Definition unique_urls (db : Store) : Prop :=
  List.NoDup (map url (articles db)).

(** The largest rowid in use. *)
Definition max_rowid (rows : list Article) : Z :=
  fold_right (fun r m => Z.max (id r) m) 0 rows.

(** The rowid AUTOINCREMENT hands out: one more than the largest rowid the
    table has ever held. *)
Definition next_rowid (db : Store) : Z :=
  Z.max (sequence db) (max_rowid (articles db)) + 1.

(** The row an insert writes: the given columns, [discovered_at] from
    [kwargs.setdefault], and the schema defaults for the columns left out. *)
Definition new_row (rid : Z) (now : string) (a : ArticleArgs) : Article :=
  {| id := rid;
     url := a_url a;
     source_slug := a_source_slug a;
     source_name := a_source_name a;
     category := a_category a;
     headline := a_headline a;
     byline := a_byline a;
     description := a_description a;
     article_text := a_article_text a;
     publish_date := a_publish_date a;
     discovered_at := now;
     preview_image_url := a_preview_image_url a;
     preview_image_local := a_preview_image_local a;
     image_urls := [];
     local_image_paths := [];
     tags := a_tags a;
     article_section := "" |}.

(** Trigger [art_ai]: the shadow row written after an insert. *)
Definition fts_row (r : Article) : FtsRow :=
  {| rowid := id r;
     fts_headline := headline r;
     fts_byline := byline r;
     fts_description := description r;
     fts_article_text := article_text r;
     fts_tags := tags r |}.

(** [add_article]: [INSERT OR IGNORE INTO articles (...) VALUES (...)].
    A conflict on the UNIQUE column [url] skips the row ([rowcount] 0, the
    result is [None]); otherwise the row is appended under a fresh rowid,
    the trigger mirrors it, and [lastrowid] is returned. *)
Definition add_article (now : string) (a : ArticleArgs) (db : Store)
  : option Z * Store :=
  if url_exists db (a_url a) then (None, db)
  else
    let rid := next_rowid db in
    let r := new_row rid now a in
    (Some rid,
     {| articles := articles db ++ [r];
        articles_fts := articles_fts db ++ [fts_row r];
        sequence := rid |}).

End Database.

(** ** The outside world *)

(** An outbound [httpx.get(url, timeout=..., follow_redirects=True,
    headers=...)]. *)
Record Request := {
  req_url : string;
  req_headers : list (string * string);
  req_timeout : Z
}.

(** What the caller reads of an [httpx.Response]. *)
Record Response := {
  status_code : Z;
  text : string;
  final_url : string
}.

(** A call either returns a response or raises. *)
Inductive Outcome :=
| Returned (r : Response)
| Raised.

(** The result of a function that an exception can leave: [Ok a] when it
    returns [a], [Exn] when an exception propagates out of it. *)
Inductive Result (A : Type) : Type :=
| Ok (a : A)
| Exn.

Arguments Ok {A} a.
Arguments Exn {A}.

(** What a run does that the outside can observe, oldest first. [ESleep]
    is [time.sleep] of whole seconds; [ESleepUniform] is
    [time.sleep(random.uniform(lo, hi))] with the bounds in milliseconds. *)
Inductive Event :=
| EGet (rq : Request)
| ESleep (seconds : Z)
| ESleepUniform (lo_ms hi_ms : Z)
| EBrowser (u : string) (timeout : Z)
| EFeed (u : string)
| EDownload (u : string).

(** A candidate as [fetch_feed] normalizes it. *)
Record Item := {
  i_url : string;
  i_headline : string;
  i_description : string;
  i_byline : string;
  i_publish_date : option string;
  i_preview_image_url : string;
  i_tags : list string
}.

Record World := {
  w_db : Database.Store;
  w_log : list Event
}.

(** The state monad of the pipeline. *)
Definition M (A : Type) : Type := World -> A * World.

Definition ret {A} (a : A) : M A := fun w => (a, w).

Definition bind {A B} (m : M A) (f : A -> M B) : M B :=
  fun w => let (a, w') := m w in f a w'.

Notation "'do' x <- m ; k" := (bind m (fun x => k))
  (at level 10, x name, m at level 100, k at level 200).
Notation "'run' m ; k" := (bind m (fun _ => k))
  (at level 10, m at level 100, k at level 200).

Definition emit (e : Event) : M unit :=
  fun w => (tt, {| w_db := w_db w; w_log := w_log w ++ [e] |}).

Definition get_log : M (list Event) := fun w => (w_log w, w).

Definition get_db : M Database.Store := fun w => (w_db w, w).

Definition put_db (db : Database.Store) : M unit :=
  fun w => (tt, {| w_db := db; w_log := w_log w |}).

(** ** HTML documents as [BeautifulSoup] holds them *)

(** A parsed document is a forest of nodes. An attribute value is a string,
    or a list of strings for the attributes the parser splits on whitespace
    ([class], [rel] and the like). An element holds each attribute once. *)
Inductive AttrVal :=
| AStr (s : string)
| AList (l : list string).

Inductive Node :=
| NText (s : string)
| NComment (s : string)
| NElem (tag : string) (attrs : list (string * AttrVal)) (children : list Node).

(** ** The oracles *)

Record Env := {
  (** [BS4_AVAILABLE]: whether the import of bs4 succeeded. *)
  bs4_available : bool;
  (** [httpx.get]. *)
  http : list Event -> Request -> Outcome;
  (** The Playwright session of [_try_playwright]: the rendered
      [page.content()], or [None] when Playwright is not installed or any
      step of the session raises. *)
  browser : list Event -> string -> Z -> option string;
  (** The candidates [fetch_feed] returns for a feed URL (empty on a fetch
      or parse failure). *)
  feed_items : list Event -> string -> list Item;
  (** [BeautifulSoup(html, 'html.parser')]: the parsed document, or [None]
      when the parser rejects the markup. *)
  html_parser : string -> option (list Node);
  (** [str(tag)]: the markup bs4 writes for a node. *)
  to_html : Node -> string;
  (** [dateparser.parse(s).isoformat()], [None] when it raises. *)
  parse_date : string -> option string;
  (** The part of [download_image] past its URL guard. The directory is
      made and the file is named outside any [try], so [mkdir] (a file
      system error) and [urlparse] (a malformed address, such as one with
      an unclosed bracket) raise out of the function: [Exn]. The cache
      and the network follow, the network in a [try]: the relative path
      of the file, or [None]. *)
  image_cache : list Event -> string -> string -> string
                -> Result (option string);
  (** [datetime.now(timezone.utc).isoformat()]. *)
  clock : list Event -> string
}.

(** [httpx.get(...)]: the request is logged, the server answers. *)
Definition http_get (env : Env) (rq : Request) : M Outcome :=
  do tr <- get_log;
  run emit (EGet rq);
  ret (http env tr rq).

Definition sleep (seconds : Z) : M unit := emit (ESleep seconds).

Definition sleep_uniform (lo_ms hi_ms : Z) : M unit :=
  emit (ESleepUniform lo_ms hi_ms).

(** ** Retry logic *)

(** The body of [for attempt in range(max_retries)] in [fetch_with_retry],
    with [n] iterations left. Falling out of the loop is the final
    [return None]. *)
Fixpoint retry_loop (env : Env) (rq : Request) (max_retries : Z)
    (n : nat) (attempt : Z) : M (option Response) :=
  match n with
  | O => ret None
  | S n' =>
    do out <- http_get env rq;
    match out with
    | Returned resp =>
      if (status_code resp =? 429)%Z then
        if (attempt <? max_retries - 1)%Z then
          run sleep (2 ^ (attempt + 1))%Z;
          retry_loop env rq max_retries n' (attempt + 1)
        else ret None
      else ret (Some resp)
    | Raised =>
      if (attempt <? max_retries - 1)%Z then
        run sleep (2 ^ (attempt + 1))%Z;
        retry_loop env rq max_retries n' (attempt + 1)
      else ret None
    end
  end.

(** [fetch_with_retry(url, headers, timeout=30, max_retries=3)]. *)
Definition fetch_with_retry (env : Env) (u : string)
    (headers : list (string * string)) (timeout max_retries : Z)
  : M (option Response) :=
  retry_loop env
    {| req_url := u; req_headers := headers; req_timeout := timeout |}
    max_retries (Z.to_nat max_retries) 0.

Definition default_timeout : Z := 30.
Definition default_max_retries : Z := 3.

(** ** Regular expressions, as [re.search] runs them

    The fragment the module's patterns use: literals, a character class,
    a greedy [+] over a class, alternation, sequence, and the one capturing
    group. Matching is by backtracking with the priorities of Python's
    engine: the leftmost start, the first alternative that lets the rest
    match, and for [+] the longest repetition that lets the rest match. *)

Inductive Regex :=
| RLit (s : string)
| RClass (negated : bool) (members : string)
| RPlus (negated : bool) (members : string)
| RAlt (a b : Regex)
| RSeq (a b : Regex)
| RGroup (a : Regex).

Fixpoint mem_char (c : ascii) (s : string) : bool :=
  match s with
  | EmptyString => false
  | String d rest => if Ascii.eqb c d then true else mem_char c rest
  end.

Definition in_class (negated : bool) (members : string) (c : ascii) : bool :=
  xorb negated (mem_char c members).

(** [s] without its prefix [p], when it has it. *)
Fixpoint strip_prefix (p s : string) : option string :=
  match p, s with
  | EmptyString, _ => Some s
  | String a p', String b s' =>
    if Ascii.eqb a b then strip_prefix p' s' else None
  | String _ _, EmptyString => None
  end.

(** What was consumed between [s] and its suffix [rest]. *)
Definition consumed (s rest : string) : string :=
  take_str (String.length s - String.length rest) s.

Section Matcher.
Context {R : Type}.

(** Greedy [+]: take as many characters as the class allows, and give
    characters back one by one while the continuation fails. *)
Fixpoint match_plus (p : ascii -> bool) (s : string)
    (k : string -> option R) : option R :=
  match s with
  | EmptyString => None
  | String c rest =>
    if p c then
      match match_plus p rest k with
      | Some r => Some r
      | None => k rest
      end
    else None
  end.

(** Match [r] at the start of [s]; the continuation receives the rest of
    the input and the text of group 1 so far. *)
Fixpoint match_at (r : Regex) (s : string) (g : option string)
    (k : string -> option string -> option R) : option R :=
  match r with
  | RLit l =>
    match strip_prefix l s with
    | Some rest => k rest g
    | None => None
    end
  | RClass neg ms =>
    match s with
    | String c rest => if in_class neg ms c then k rest g else None
    | EmptyString => None
    end
  | RPlus neg ms => match_plus (in_class neg ms) s (fun rest => k rest g)
  | RAlt a b =>
    match match_at a s g k with
    | Some x => Some x
    | None => match_at b s g k
    end
  | RSeq a b => match_at a s g (fun rest g' => match_at b rest g' k)
  | RGroup a => match_at a s g (fun rest _ => k rest (Some (consumed s rest)))
  end.

End Matcher.

(** [m = re.search(r, s)] followed by [m.group(1)]: [None] when nothing
    matches. Every pattern below has its group on every path. *)
Fixpoint re_search (r : Regex) (s : string) : option string :=
  match match_at r s None (fun _ g => Some g) with
  | Some g => Some (match g with Some x => x | None => "" end)
  | None =>
    match s with
    | EmptyString => None
    | String _ rest => re_search r rest
    end
  end.

Fixpoint rseq (rs : list Regex) : Regex :=
  match rs with
  | [] => RLit ""
  | [r] => r
  | r :: rest => RSeq r (rseq rest)
  end.

Definition dquote : string := String "034"%char EmptyString.
Definition squote : string := String "039"%char EmptyString.

(** [q] is the class of the two quote characters, written Q below, and
    [value_group] is the group ([^Q]+). *)
Definition quotes : string := dquote +:+ squote.
Definition q : Regex := RClass false quotes.
Definition value_group : Regex := RGroup (RPlus true quotes).

(** <meta[^>]+ATTR=QNAMEQ[^>]+content=Q([^Q]+)Q *)
Definition meta_attr_then_content (attr name : Regex) : Regex :=
  rseq [RLit "<meta"; RPlus true ">"; attr; RLit "="; q; name; q;
        RPlus true ">"; RLit "content="; q; value_group; q].

(** <meta[^>]+content=Q([^Q]+)Q[^>]+property=QNAMEQ *)
Definition meta_content_then_property (name : string) : Regex :=
  rseq [RLit "<meta"; RPlus true ">"; RLit "content="; q; value_group; q;
        RPlus true ">"; RLit "property="; q; RLit name; q].

(** ** Whitespace and case *)

(** The ASCII characters [str.strip] removes. *)
Definition is_space (c : ascii) : bool :=
  let n := nat_of_ascii c in
  ((9 <=? n) && (n <=? 13) || (28 <=? n) && (n <=? 32))%nat.

Fixpoint lstrip (s : string) : string :=
  match s with
  | String c rest => if is_space c then lstrip rest else s
  | EmptyString => EmptyString
  end.

Fixpoint rstrip (s : string) : string :=
  match s with
  | EmptyString => EmptyString
  | String c rest =>
    match rstrip rest with
    | EmptyString => if is_space c then EmptyString else String c EmptyString
    | r => String c r
    end
  end.

(** [s.strip()]. *)
Definition strip (s : string) : string := rstrip (lstrip s).

Definition lower_char (c : ascii) : ascii :=
  let n := nat_of_ascii c in
  if ((65 <=? n) && (n <=? 90))%nat then ascii_of_nat (n + 32) else c.

(** [s.lower()]. *)
Fixpoint lower (s : string) : string :=
  match s with
  | EmptyString => EmptyString
  | String c rest => String (lower_char c) (lower rest)
  end.

(** [''.join(parts)]. *)
Definition cat (parts : list string) : string :=
  fold_right String.append "" parts.

(** [sep.join(parts)]. *)
Fixpoint join (sep : string) (parts : list string) : string :=
  match parts with
  | [] => ""
  | [x] => x
  | x :: rest => x +:+ sep +:+ join sep rest
  end.

(** ** Open Graph enrichment *)

(** The dict [fetch_og_metadata] returns: a key is present or not. *)
Record OgData := {
  og_image : option string;
  og_description : option string;
  og_title : option string;
  og_author : option string;
  og_published : option string
}.

Definition og_empty : OgData :=
  {| og_image := None; og_description := None; og_title := None;
     og_author := None; og_published := None |}.

(** [m = re.search(a, html)], then [if not m: m = re.search(b, html)]. *)
Definition search_or (first : option string) (r : Regex) (html : string)
  : option string :=
  match first with
  | Some g => Some g
  | None => re_search r html
  end.

(** The scan of [fetch_og_metadata] over the fetched text. *)
Definition scan_og (env : Env) (html : string) : OgData :=
  let image :=
    search_or
      (re_search (meta_attr_then_content (RLit "property") (RLit "og:image")) html)
      (meta_content_then_property "og:image") html in
  let descr :=
    search_or
      (search_or
         (re_search
            (meta_attr_then_content (RLit "property") (RLit "og:description")) html)
         (meta_content_then_property "og:description") html)
      (meta_attr_then_content (RLit "name") (RLit "description")) html in
  let title :=
    search_or
      (re_search (meta_attr_then_content (RLit "property") (RLit "og:title")) html)
      (meta_content_then_property "og:title") html in
  let author :=
    re_search
      (meta_attr_then_content
         (RAlt (RLit "property") (RLit "name"))
         (RAlt (RLit "article:author") (RLit "author"))) html in
  let published :=
    re_search
      (meta_attr_then_content (RLit "property") (RLit "article:published_time"))
      html in
  {| og_image := image;
     og_description := option_map strip descr;
     og_title := option_map strip title;
     og_author := option_map strip author;
     og_published :=
       match published with
       | Some d => parse_date env d
       | None => None
       end |}.

Definition og_user_agent : string :=
  "Mozilla/5.0 (Macintosh; Intel Mac OS X 10_15_7) AppleWebKit/537.36".

(** [fetch_og_metadata(url, timeout=15)]: a failed fetch gives the empty
    dict; otherwise the first 50000 characters are scanned. *)
Definition fetch_og_metadata (env : Env) (u : string) (timeout : Z)
  : M OgData :=
  do out <- http_get env
      {| req_url := u;
         req_headers := [("User-Agent", og_user_agent)];
         req_timeout := timeout |};
  match out with
  | Raised => ret og_empty
  | Returned resp =>
    ret (scan_og env (take_str (Z.to_nat 50000) (text resp)))
  end.

(** ** The sanitizer: [extract_article_text] *)

Definition Attrs : Type := list (string * AttrVal).

Definition in_list (s : string) (l : list string) : bool :=
  existsb (String.eqb s) l.

Definition KEEP_TAGS : list string :=
  ["p"; "br"; "strong"; "b"; "em"; "i"; "u"; "s";
   "h1"; "h2"; "h3"; "h4"; "h5"; "h6";
   "ul"; "ol"; "li";
   "blockquote"; "figure"; "figcaption";
   "a"; "img";
   "iframe";
   "video"; "source";
   "table"; "thead"; "tbody"; "tr"; "th"; "td";
   "div"; "span"].

Definition KEEP_ATTRS : list (string * list string) :=
  [("a", ["href"; "title"]);
   ("img", ["src"; "alt"; "title"; "width"; "height"]);
   ("iframe", ["src"; "width"; "height"; "allowfullscreen"; "frameborder"; "title"]);
   ("video", ["src"; "controls"; "width"; "height"; "poster"]);
   ("source", ["src"; "type"]);
   ("td", ["colspan"; "rowspan"]);
   ("th", ["colspan"; "rowspan"])].

Definition NOISE_PATTERNS : list string :=
  ["ad"; "advertisement"; "promo"; "sponsor";
   "social"; "share"; "sharing";
   "newsletter"; "signup"; "subscribe";
   "paywall"; "premium"; "meter";
   "related"; "recommended"; "trending";
   "nav"; "navigation"; "menu"; "sidebar";
   "comment"; "disqus";
   "cookie"; "gdpr"; "consent";
   "popup"; "modal"; "overlay"].

Definition JUNK_TAGS : list string :=
  ["script"; "style"; "nav"; "footer";
   "aside"; "header"; "noscript"; "form";
   "button"; "input"; "select"; "textarea"].

Definition BODY_CLASSES : list string :=
  ["article-body"; "story-body"; "post-content";
   "entry-content"; "article-content"; "gnt_ar_b"].

(** [d.get(key)] on a dict kept as an association list. *)
Fixpoint assoc {V} (key : string) (d : list (string * V)) : option V :=
  match d with
  | [] => None
  | (k, v) :: rest => if String.eqb k key then Some v else assoc key rest
  end.

(** [' '.join(s)] over the characters of a string. *)
Fixpoint spaced (s : string) : string :=
  match s with
  | EmptyString => EmptyString
  | String c EmptyString => s
  | String c rest => String c (String " "%char (spaced rest))
  end.

(** [' '.join(v)] for an attribute value: over the items of a list, over
    the characters of a string. *)
Definition join_value (v : AttrVal) : string :=
  match v with
  | AList l => join " " l
  | AStr s => spaced s
  end.

Definition is_elem (n : Node) : bool :=
  match n with NElem _ _ _ => true | _ => false end.

(** Step 1: every junk element is decomposed, with all beneath it. *)
Fixpoint remove_junk (n : Node) : list Node :=
  match n with
  | NElem t a ch =>
    if in_list t JUNK_TAGS then []
    else [NElem t a (flat_map remove_junk ch)]
  | _ => [n]
  end.

(** The test of step 2 on one element; [None] when it raises ([.lower()]
    of an [id] that is not a string). *)
Definition is_noise (a : Attrs) : option bool :=
  let classes :=
    lower (match assoc "class" a with
           | Some v => join_value v
           | None => ""
           end) in
  match assoc "id" a with
  | Some (AList (_ :: _)) => None
  | Some (AStr s) =>
    Some (existsb (fun p => contains p classes || contains p (lower s))
            NOISE_PATTERNS)
  | _ => Some (existsb (fun p => contains p classes || contains p "")
                 NOISE_PATTERNS)
  end.

(** Step 2 below one node. The loop runs over the elements listed before
    it starts. [decompose] wipes the element and its whole subtree, and the
    loop then reaches the wiped descendants: reading the attributes of one
    raises, and the handler of [extract_article_text] answers [None]. So a
    noise element goes quietly only when it holds no element. *)
Fixpoint drop_noise (n : Node) : option (list Node) :=
  match n with
  | NElem t a ch =>
    match is_noise a with
    | None => None
    | Some true => if existsb is_elem ch then None else Some []
    | Some false =>
      match
        (fix go (l : list Node) : option (list Node) :=
           match l with
           | [] => Some []
           | x :: xs =>
             match drop_noise x, go xs with
             | Some x', Some xs' => Some (x' ++ xs')
             | _, _ => None
             end
           end) ch
      with
      | Some ch' => Some [NElem t a ch']
      | None => None
      end
    end
  | _ => Some [n]
  end.

Fixpoint drop_noise_all (l : list Node) : option (list Node) :=
  match l with
  | [] => Some []
  | x :: xs =>
    match drop_noise x, drop_noise_all xs with
    | Some x', Some xs' => Some (x' ++ xs')
    | _, _ => None
    end
  end.

(** The callables given as [class_] in step 3:
    [c and any(x in ' '.join(c).lower() for x in pats)]. bs4 calls them
    with a string, so the join runs over its characters. *)
Definition class_filter (pats : list string) (c : option string) : bool :=
  match c with
  | None => false
  | Some s => truthy s && existsb (fun x => contains x (lower (spaced s))) pats
  end.

(** How bs4 matches a callable against the [class] attribute: each item of
    the list, then the items joined by a space; [None] without the
    attribute. *)
Definition class_matches (f : option string -> bool) (a : Attrs) : bool :=
  match assoc "class" a with
  | None => f None
  | Some (AList l) => existsb (fun c => f (Some c)) l || f (Some (join " " l))
  | Some (AStr s) => f (Some s)
  end.

(** The attributes step 4 leaves on a kept element. *)
Definition clean_attrs (t : string) (a : Attrs) : Attrs :=
  let allowed := match assoc t KEEP_ATTRS with Some l => l | None => [] end in
  let kept := List.filter (fun kv => in_list (fst kv) allowed) a in
  let has_href :=
    match assoc "href" kept with
    | Some (AStr s) => truthy s
    | Some (AList l) => match l with [] => false | _ => true end
    | None => false
    end in
  let linked :=
    if String.eqb t "a" && has_href
    then kept ++ [("target", AStr "_blank"); ("rel", AStr "noopener noreferrer")]
    else kept in
  if String.eqb t "img"
  then linked ++ [("loading", AStr "lazy"); ("referrerpolicy", AStr "no-referrer")]
  else linked.

(** Step 4 below one node: an element outside [KEEP_TAGS] is unwrapped,
    a kept one has its attributes cleaned. *)
Fixpoint sanitize (n : Node) : list Node :=
  match n with
  | NElem t a ch =>
    if in_list t KEEP_TAGS
    then [NElem t (clean_attrs t a) (flat_map sanitize ch)]
    else flat_map sanitize ch
  | _ => [n]
  end.

(** Step 4 on the container: [find_all(True)] lists what is below it, so
    the container keeps its own tag and attributes. *)
Definition sanitize_container (c : Node) : Node :=
  match c with
  | NElem t a ch => NElem t a (flat_map sanitize ch)
  | _ => c
  end.

(** Apply [f] to the first element, in document order, that satisfies
    [want]: the rewritten element and the document holding it. *)
Fixpoint rewrite_first (want : string -> Attrs -> bool) (f : Node -> Node)
    (n : Node) : option (Node * Node) :=
  match n with
  | NElem t a ch =>
    if want t a then Some (f n, f n)
    else
      match
        (fix go (l : list Node) : option (Node * list Node) :=
           match l with
           | [] => None
           | x :: xs =>
             match rewrite_first want f x with
             | Some (c, x') => Some (c, x' :: xs)
             | None =>
               match go xs with
               | Some (c, xs') => Some (c, x :: xs')
               | None => None
               end
             end
           end) ch
      with
      | Some (c, ch') => Some (c, NElem t a ch')
      | None => None
      end
  | _ => None
  end.

Fixpoint rewrite_first_in (want : string -> Attrs -> bool) (f : Node -> Node)
    (l : list Node) : option (Node * list Node) :=
  match l with
  | [] => None
  | x :: xs =>
    match rewrite_first want f x with
    | Some (c, x') => Some (c, x' :: xs)
    | None =>
      match rewrite_first_in want f xs with
      | Some (c, xs') => Some (c, x :: xs')
      | None => None
      end
    end
  end.

(** The container of step 3: an element of the document, or the document
    itself when it has no [body]. *)
Inductive Container :=
| InElement (n : Node)
| WholeDocument (doc : list Node).

(** The searches of step 3, in the order the code tries their results. *)
Definition container_tests : list (string -> Attrs -> bool) :=
  [ (fun t _ => String.eqb t "article");
    (fun _ a => class_matches (class_filter BODY_CLASSES) a);
    (fun t _ => String.eqb t "main");
    (fun t a => String.eqb t "div" && class_matches (class_filter ["content"]) a);
    (fun t _ => String.eqb t "body") ].

(** Steps 3 and 4: choose the container and sanitize below it. The result
    is the container and the document as the mutation leaves it. *)
Fixpoint choose_container (tests : list (string -> Attrs -> bool))
    (doc : list Node) : Container * list Node :=
  match tests with
  | [] => let doc' := flat_map sanitize doc in (WholeDocument doc', doc')
  | want :: rest =>
    match rewrite_first_in want sanitize_container doc with
    | Some (c, doc') => (InElement c, doc')
    | None => choose_container rest doc
    end
  end.

(** The strings under a node that [get_text(strip=True)] joins: comments
    are passed over, each text is stripped, empty ones are dropped. *)
Fixpoint get_text (n : Node) : string :=
  match n with
  | NText s => strip s
  | NComment _ => ""
  | NElem _ _ ch => cat (map get_text ch)
  end.

Definition get_text_all (l : list Node) : string :=
  cat (map get_text l).

(** [find_all(name)] below a node, the node itself included, in document
    order. *)
Fixpoint find_all (name : string) (n : Node) : list Node :=
  match n with
  | NElem t a ch =>
    (if String.eqb t name then [n] else []) ++ flat_map (find_all name) ch
  | _ => []
  end.

Definition container_text (c : Container) : string :=
  match c with
  | InElement n => get_text n
  | WholeDocument doc => get_text_all doc
  end.

(** [str(container)]. *)
Definition container_html (env : Env) (c : Container) : string :=
  match c with
  | InElement n => to_html env n
  | WholeDocument doc => cat (map (to_html env) doc)
  end.

(** [' '.join(p.get_text(strip=True) for p in soup.find_all('p'))]. *)
Definition paragraph_text (doc : list Node) : string :=
  join " " (map get_text (flat_map (find_all "p") doc)).

(** Steps 1 to 4: the container and the document after the mutations, or
    [None] when a step raises. *)
Definition prepare (env : Env) (html : string)
  : option (Container * list Node) :=
  match html_parser env html with
  | None => None
  | Some soup =>
    match drop_noise_all (flat_map remove_junk soup) with
    | None => None
    | Some soup' => Some (choose_container container_tests soup')
    end
  end.

(** [extract_article_text(html)]. *)
Definition extract_article_text (env : Env) (html : string) : option string :=
  if negb (bs4_available env) then None
  else
    match prepare env html with
    | None => None
    | Some (container, soup) =>
      let result_html := container_html env container in
      let plain_check := container_text container in
      if (String.length plain_check <? 200)%nat then
        let paras := flat_map (find_all "p") soup in
        let plain_check := join " " (map get_text paras) in
        if (String.length plain_check <? 200)%nat then None
        else Some (cat (map (to_html env) paras))
      else Some result_html
    end.

(** ** Paywall bypass: the chain of retrieval methods *)

(** [if text and len(text) > 500]. *)
Definition substantial (t : option string) : option string :=
  match t with
  | Some s => if truthy s && (500 <? String.length s)%nat then Some s else None
  | None => None
  end.

(** [_try_playwright(url, timeout)]: the rendered page goes through the
    sanitizer; anything else is [None]. *)
Definition _try_playwright (env : Env) (u : string) (timeout : Z)
  : M (option string) :=
  do tr <- get_log;
  run emit (EBrowser u timeout);
  match browser env tr u timeout with
  | Some html_content => ret (substantial (extract_article_text env html_content))
  | None => ret None
  end.

Definition headers_standard : list (string * string) :=
  [("User-Agent",
    "Mozilla/5.0 (Macintosh; Intel Mac OS X 10_15_7) AppleWebKit/537.36 (KHTML, like Gecko) Chrome/120.0.0.0 Safari/537.36");
   ("Accept",
    "text/html,application/xhtml+xml,application/xml;q=0.9,image/webp,*/*;q=0.8");
   ("Accept-Language", "en-US,en;q=0.5")].

Definition headers_google : list (string * string) :=
  headers_standard ++ [("Referer", "https://www.google.com/")].

Definition headers_facebook : list (string * string) :=
  [("User-Agent",
    "facebookexternalhit/1.1 (+http://www.facebook.com/externalhit_uatext.php)");
   ("Referer", "https://www.facebook.com/")].

(** One fetching method: [fetch_with_retry], then the sanitizer on a 200
    response, then the length test. *)
Definition fetch_method (env : Env) (u : string)
    (headers : list (string * string)) (timeout : Z) : M (option string) :=
  do resp <- fetch_with_retry env u headers timeout default_max_retries;
  match resp with
  | Some r =>
    if (status_code r =? 200)%Z
    then ret (substantial (extract_article_text env (text r)))
    else ret None
  | None => ret None
  end.

(** [return text] when a method has it, the next method otherwise. *)
Definition or_else (m next : M (option string)) : M (option string) :=
  do r <- m;
  match r with
  | Some t => ret (Some t)
  | None => next
  end.

(** [fetch_article_text_via_bypass(url, timeout=30, prefer_playwright=False)]. *)
Definition fetch_article_text_via_bypass (env : Env) (u : string)
    (timeout : Z) (prefer_playwright : bool) : M (option string) :=
  if negb (bs4_available env) then ret None
  else
    or_else (if prefer_playwright then _try_playwright env u timeout else ret None)
   (or_else (fetch_method env u headers_standard timeout)
   (or_else (fetch_method env u headers_google timeout)
   (or_else (fetch_method env u headers_facebook timeout)
   (or_else (fetch_method env ("https://12ft.io/" +:+ u) headers_standard timeout)
   (or_else (fetch_method env ("https://removepaywalls.com/" +:+ u) headers_standard timeout)
            (if negb prefer_playwright then _try_playwright env u timeout
             else ret None)))))).

(** ** URL resolution *)

(** [resolve_redirect_url(url, timeout=10)]. *)
Definition resolve_redirect_url (env : Env) (u : string) (timeout : Z)
  : M string :=
  if contains "news.google.com" u then
    do out <- http_get env
        {| req_url := u;
           req_headers := [("User-Agent", og_user_agent)];
           req_timeout := timeout |};
    match out with
    | Returned resp => ret (final_url resp)
    | Raised => ret u
    end
  else ret u.

(** ** Image download *)

(** [download_image(url, images_dir, source_slug)]: the guard on the URL,
    then the directory, the file name, the cache and the network, which
    are the oracle's. Past the guard the call may raise. *)
Definition download_image (env : Env) (u images_dir source_slug : string)
  : M (Result (option string)) :=
  if negb (truthy u) || negb (startswith "http" u) then ret (Ok None)
  else
    do tr <- get_log;
    run emit (EDownload u);
    ret (image_cache env tr u images_dir source_slug).

(** ** Source processing *)

(** A source of the configuration, as [process_source] reads it. *)
Record Source := {
  slug : string;
  name : string;
  category : string;
  rss_urls : list string;
  bypass_paywall : bool;
  prefer_playwright : bool
}.

(** [fetch_feed(url)]: the normalized candidates of one feed. *)
Definition fetch_feed (env : Env) (u : string) : M (list Item) :=
  do tr <- get_log;
  run emit (EFeed u);
  ret (feed_items env tr u).

(** [for feed_url in rss_urls: all_items.extend(fetch_feed(feed_url))]. *)
Fixpoint collect_items (env : Env) (urls : list string) : M (list Item) :=
  match urls with
  | [] => ret []
  | u :: rest =>
    do items <- fetch_feed env u;
    do more <- collect_items env rest;
    ret (items ++ more)
  end.

(** The deduplication loop, with the URLs seen so far. *)
Fixpoint dedup_from (seen : gset string) (items : list Item) : list Item :=
  match items with
  | [] => []
  | item :: rest =>
    if decide (i_url item ∈ seen) then dedup_from seen rest
    else item :: dedup_from ({[i_url item]} ∪ seen) rest
  end.

Definition dedup (all_items : list Item) : list Item := dedup_from ∅ all_items.

Definition set_url (u : string) (it : Item) : Item :=
  {| i_url := u; i_headline := i_headline it;
     i_description := i_description it; i_byline := i_byline it;
     i_publish_date := i_publish_date it;
     i_preview_image_url := i_preview_image_url it; i_tags := i_tags it |}.

Definition set_preview_image_url (v : string) (it : Item) : Item :=
  {| i_url := i_url it; i_headline := i_headline it;
     i_description := i_description it; i_byline := i_byline it;
     i_publish_date := i_publish_date it;
     i_preview_image_url := v; i_tags := i_tags it |}.

Definition set_description (v : string) (it : Item) : Item :=
  {| i_url := i_url it; i_headline := i_headline it;
     i_description := v; i_byline := i_byline it;
     i_publish_date := i_publish_date it;
     i_preview_image_url := i_preview_image_url it; i_tags := i_tags it |}.

Definition set_byline (v : string) (it : Item) : Item :=
  {| i_url := i_url it; i_headline := i_headline it;
     i_description := i_description it; i_byline := v;
     i_publish_date := i_publish_date it;
     i_preview_image_url := i_preview_image_url it; i_tags := i_tags it |}.

Definition set_publish_date (v : option string) (it : Item) : Item :=
  {| i_url := i_url it; i_headline := i_headline it;
     i_description := i_description it; i_byline := i_byline it;
     i_publish_date := v;
     i_preview_image_url := i_preview_image_url it; i_tags := i_tags it |}.

Definition set_headline (v : string) (it : Item) : Item :=
  {| i_url := i_url it; i_headline := v;
     i_description := i_description it; i_byline := i_byline it;
     i_publish_date := i_publish_date it;
     i_preview_image_url := i_preview_image_url it; i_tags := i_tags it |}.

(** The five guarded assignments that follow [og = fetch_og_metadata(...)],
    one by one. *)

(** [if not item[preview_image_url] and og.get(og_image)]. *)
Definition fill_preview_image_url (og : OgData) (item : Item) : Item :=
  match og_image og with
  | Some v =>
    if negb (truthy (i_preview_image_url item)) && truthy v
    then set_preview_image_url v item else item
  | None => item
  end.

(** [if not item[description] and og.get(og_description)], cut at 500. *)
Definition fill_description (og : OgData) (item : Item) : Item :=
  match og_description og with
  | Some v =>
    if negb (truthy (i_description item)) && truthy v
    then set_description (take_str 500 v) item else item
  | None => item
  end.

(** [if not item[byline] and og.get(og_author)]. *)
Definition fill_byline (og : OgData) (item : Item) : Item :=
  match og_author og with
  | Some v =>
    if negb (truthy (i_byline item)) && truthy v
    then set_byline v item else item
  | None => item
  end.

(** [if not item[publish_date] and og.get(og_published)]. *)
Definition fill_publish_date (og : OgData) (item : Item) : Item :=
  match og_published og with
  | Some v =>
    if negb (truthy_opt (i_publish_date item)) && truthy v
    then set_publish_date (Some v) item else item
  | None => item
  end.

(** [if og.get(og_title) and not item[headline]]. *)
Definition fill_headline (og : OgData) (item : Item) : Item :=
  match og_title og with
  | Some v =>
    if truthy v && negb (truthy (i_headline item))
    then set_headline v item else item
  | None => item
  end.

Definition apply_og (og : OgData) (item : Item) : Item :=
  fill_headline og
    (fill_publish_date og
       (fill_byline og
          (fill_description og
             (fill_preview_image_url og item)))).

(** The enrichment block of the loop, the politeness delay included. *)
Definition enrich_item (env : Env) (enrich : bool) (item : Item) : M Item :=
  if enrich && (negb (truthy (i_preview_image_url item))
                || negb (truthy (i_description item)))
  then
    do og <- fetch_og_metadata env (i_url item) 15;
    run sleep_uniform 500 1000;
    ret (apply_og og item)
  else ret item.

(** The full-text block of the loop. The retriever is called with the URL
    alone, so its [prefer_playwright] parameter takes its default. *)
Definition fetch_full_text (env : Env) (source : Source) (item : Item)
  : M string :=
  if bypass_paywall source then
    do t <- fetch_article_text_via_bypass env (i_url item) default_timeout false;
    run sleep_uniform 1500 2500;
    ret (match t with Some s => s | None => "" end)
  else ret "".

(** The keyword arguments of the [db.add_article] call. *)
Definition article_args (source : Source) (item : Item)
    (article_text : string) (local_img : option string) : Database.ArticleArgs :=
  {| Database.a_url := i_url item;
     Database.a_source_slug := slug source;
     Database.a_source_name := name source;
     Database.a_category := category source;
     Database.a_headline := i_headline item;
     Database.a_byline := i_byline item;
     Database.a_description := i_description item;
     Database.a_article_text := article_text;
     Database.a_publish_date := i_publish_date item;
     Database.a_preview_image_url := i_preview_image_url item;
     Database.a_preview_image_local :=
       match local_img with Some pth => pth | None => "" end;
     Database.a_tags := i_tags item |}.

(** [db.add_article(...)] on the store of the world, stamped by the clock. *)
Definition db_add_article (env : Env) (a : Database.ArticleArgs)
  : M (option Z) :=
  do tr <- get_log;
  do db <- get_db;
  let (aid, db') := Database.add_article (clock env tr) a db in
  run put_db db';
  ret aid.

(** The body of [for item in unique_items]: the number it adds to
    [new_count]. The image download stands outside any [try]: when it
    raises, the exception leaves the loop before the article is written. *)
Definition process_item (env : Env) (source : Source) (images_dir : string)
    (enrich : bool) (item : Item) : M (Result Z) :=
  let original_url := i_url item in
  do resolved_url <- resolve_redirect_url env original_url 10;
  let item :=
    if negb (String.eqb resolved_url original_url)
    then set_url resolved_url item else item in
  do db <- get_db;
  if Database.url_exists db (i_url item) then ret (Ok 0)
  else
    do item <- enrich_item env enrich item;
    do article_text <- fetch_full_text env source item;
    do local_img <-
      (if truthy (i_preview_image_url item)
       then download_image env (i_preview_image_url item) images_dir (slug source)
       else ret (Ok None));
    match local_img with
    | Exn => ret Exn
    | Ok local_img =>
      do aid <- db_add_article env
                  (article_args source item article_text local_img);
      match aid with
      | Some rid => if (rid =? 0)%Z then ret (Ok 0) else ret (Ok 1)
      | None => ret (Ok 0)
      end
    end.

(** The loop, with the count so far. An exception ends it, and the count
    with it; what was written stays written. *)
Fixpoint process_items (env : Env) (source : Source) (images_dir : string)
    (enrich : bool) (items : list Item) (new_count : Z) : M (Result Z) :=
  match items with
  | [] => ret (Ok new_count)
  | item :: rest =>
    do added <- process_item env source images_dir enrich item;
    match added with
    | Exn => ret Exn
    | Ok added =>
      process_items env source images_dir enrich rest (new_count + added)
    end
  end.

(** [process_source(source, db, images_dir, enrich=True)]: the count of
    new articles, or the exception of an image download. *)
Definition process_source (env : Env) (source : Source) (images_dir : string)
    (enrich : bool) : M (Result Z) :=
  match rss_urls source with
  | [] => ret (Ok 0)
  | _ =>
    do all_items <- collect_items env (rss_urls source);
    let unique_items := dedup all_items in
    process_items env source images_dir enrich unique_items 0
  end.

(** ** The checkpoint table: [source_checks] *)

Module SourceChecks.

(** One row of [source_checks]. *)
Record Check := {
  source_slug : string;
  last_checked : string;
  articles_found : Z
}.

(** The upsert of [set_last_check] on the rows: a row with the slug has
    its [last_checked] replaced, in place; without one a row is appended
    with the default [articles_found]. *)
Fixpoint upsert (s ts : string) (rows : list Check) : list Check :=
  match rows with
  | [] => [{| source_slug := s; last_checked := ts; articles_found := 0 |}]
  | r :: rest =>
    if String.eqb (source_slug r) s
    then {| source_slug := s; last_checked := ts;
            articles_found := articles_found r |} :: rest
    else r :: upsert s ts rest
  end.

(** [set_last_check(slug, ts=None)]: [ts or now], then
    INSERT ... ON CONFLICT(source_slug) DO UPDATE SET last_checked. *)
Definition set_last_check (now : string) (s : string) (ts : option string)
    (rows : list Check) : list Check :=
  let ts := match ts with
            | Some t => if truthy t then t else now
            | None => now
            end in
  upsert s ts rows.

(** [get_last_check(slug)]. *)
Definition get_last_check (rows : list Check) (s : string) : option string :=
  option_map last_checked
    (List.find (fun r => String.eqb (source_slug r) s) rows).

End SourceChecks.

(** ** Reads of the article table *)

Module Reads.
Import Database.

(** The WHERE clause [get_articles] and [count_articles] build: a filter
    applies only when its argument is truthy. *)
Definition selected (cat src : option string) (r : Article) : bool :=
  (if truthy_opt cat
   then String.eqb (category r) (match cat with Some c => c | None => "" end)
   else true)
  &&
  (if truthy_opt src
   then String.eqb (source_slug r) (match src with Some s => s | None => "" end)
   else true).

(** [count_articles(category=None, source=None)]. *)
Definition count_articles (db : Store) (cat src : option string) : Z :=
  Z.of_nat (List.length (List.filter (selected cat src) (articles db))).

End Reads.

(** ** One pass over all sources: [run.py] *)

(** A site of the configuration, as [check_all_sources] reads it: what
    [process_source] reads, whether the site is enabled
    ([s.get("enabled", True)]), and whether it names a Google News domain
    or article URL patterns. An entry without a slug, such as a section
    divider, has the empty slug. *)
Record Site := {
  site_source : Source;
  site_enabled : bool;
  site_google : bool;
  site_scrape : bool
}.

(** The store of a run: the world of the pipeline, the checkpoint table,
    and the names of the sources whose pass raised, as the error lines of
    the log name them, oldest first. *)
Record RunWorld := {
  rw_world : World;
  rw_checks : list SourceChecks.Check;
  rw_errors : list string
}.

(** [has_rss or has_google or has_scrape]. *)
Definition has_discovery (site : Site) : bool :=
  match rss_urls (site_source site) with [] => false | _ => true end
  || site_google site || site_scrape site.

(** The loop of [check_all_sources] over the sites left. [running] is the
    flag RUNNING, which a signal may clear at any time. A site without
    discovery is passed over. For the others the source is processed in a
    [try]: when the pass returns, the checkpoint of the source is set to
    the clock's time and its count is added to the total; when it raises,
    the handler logs the error and neither happens. Either way two seconds
    are slept, unless the site is the last one or the run was stopped. *)
Fixpoint check_sites (env : Env) (running : list Event -> bool)
    (images_dir : string) (enrich : bool) (sites : list Site)
    (total_new : Z) (rw : RunWorld) : Z * RunWorld :=
  match sites with
  | [] => (total_new, rw)
  | site :: rest =>
    if negb (running (w_log (rw_world rw))) then (total_new, rw)
    else if negb (has_discovery site)
    then check_sites env running images_dir enrich rest total_new rw
    else
      let (res, w1) :=
        process_source env (site_source site) images_dir enrich (rw_world rw) in
      let w2 :=
        if running (w_log w1) && match rest with [] => false | _ => true end
        then snd (sleep 2 w1) else w1 in
      match res with
      | Ok new =>
        check_sites env running images_dir enrich rest (total_new + new)
          {| rw_world := w2;
             rw_checks :=
               SourceChecks.set_last_check (clock env (w_log w1))
                 (slug (site_source site)) None (rw_checks rw);
             rw_errors := rw_errors rw |}
      | Exn =>
        check_sites env running images_dir enrich rest total_new
          {| rw_world := w2;
             rw_checks := rw_checks rw;
             rw_errors := rw_errors rw ++ [name (site_source site)] |}
      end
  end.

(** The sites a pass visits: enabled, with a slug, and the one asked for
    when [only_source] is given. *)
Definition selected_sites (config_sites : list Site)
    (only_source : option string) : list Site :=
  let sites := List.filter site_enabled config_sites in
  let sites := List.filter (fun s => truthy (slug (site_source s))) sites in
  if truthy_opt only_source
  then List.filter
         (fun s => String.eqb (slug (site_source s))
                     (match only_source with Some o => o | None => "" end))
         sites
  else sites.

(** [check_all_sources(config, db, enrich=True, only_source=None)]. When
    [only_source] names no enabled site the pass returns 0 at once, which
    is also what the loop over no site returns. *)
Definition check_all_sources (env : Env) (running : list Event -> bool)
    (config_sites : list Site) (images_dir : string) (enrich : bool)
    (only_source : option string) (rw : RunWorld) : Z * RunWorld :=
  check_sites env running images_dir enrich
    (selected_sites config_sites only_source) 0 rw.

(** ** Storing discovered articles: [backfill.py] *)

(** The deduplication of [backfill_source]: an article without a URL is
    dropped, and of the articles sharing a URL the first is kept. *)
Fixpoint unique_from (seen : gset string) (all_articles : list Item)
  : list Item :=
  match all_articles with
  | [] => []
  | article :: rest =>
    if truthy (i_url article) && negb (bool_decide (i_url article ∈ seen))
    then article :: unique_from ({[i_url article]} ∪ seen) rest
    else unique_from seen rest
  end.

Definition unique_articles (all_articles : list Item) : list Item :=
  unique_from ∅ all_articles.

(** The assignments that follow [og = fetch_og_metadata(article[url])]:
    the title and the date fill an empty field; the description, the image
    and the author replace what discovery gave. *)
Definition backfill_og (og : OgData) (article : Item) : Item :=
  let article :=
    match og_title og with
    | Some v =>
      if negb (truthy (i_headline article)) && truthy v
      then set_headline v article else article
    | None => article
    end in
  let article :=
    match og_published og with
    | Some v =>
      if negb (truthy_opt (i_publish_date article)) && truthy v
      then set_publish_date (Some v) article else article
    | None => article
    end in
  let article :=
    match og_description og with
    | Some v => if truthy v then set_description v article else article
    | None => article
    end in
  let article :=
    match og_image og with
    | Some v => if truthy v then set_preview_image_url v article else article
    | None => article
    end in
  match og_author og with
  | Some v => if truthy v then set_byline v article else article
  | None => article
  end.

(** The keyword arguments of the [db.add_article] call of the backfill:
    no article text and no tags are passed, so the columns take their
    defaults. *)
Definition backfill_args (source : Source) (article : Item)
    (local_img : option string) : Database.ArticleArgs :=
  {| Database.a_url := i_url article;
     Database.a_source_slug := slug source;
     Database.a_source_name := name source;
     Database.a_category := category source;
     Database.a_headline := i_headline article;
     Database.a_byline := i_byline article;
     Database.a_description := i_description article;
     Database.a_article_text := "";
     Database.a_publish_date := i_publish_date article;
     Database.a_preview_image_url := i_preview_image_url article;
     Database.a_preview_image_local :=
       match local_img with Some pth => pth | None => "" end;
     Database.a_tags := [] |}.

(** The body of [for i, article in enumerate(new_articles)]: the number it
    adds to [new_count]. The pause of half a second is logged in
    milliseconds. The image download stands outside the [try] of the
    enrichment: when it raises, the exception leaves the loop before the
    article is written. *)
Definition store_article (env : Env) (source : Source) (images_dir : string)
    (article : Item) : M (Result Z) :=
  do og <- fetch_og_metadata env (i_url article) 15;
  let article := backfill_og og article in
  run sleep_uniform 500 500;
  do local_img <-
    (if truthy (i_preview_image_url article)
     then download_image env (i_preview_image_url article) images_dir
            (slug source)
     else ret (Ok None));
  match local_img with
  | Exn => ret Exn
  | Ok local_img =>
    do aid <- db_add_article env (backfill_args source article local_img);
    match aid with
    | Some rid => if (rid =? 0)%Z then ret (Ok 0) else ret (Ok 1)
    | None => ret (Ok 0)
    end
  end.

(** The loop, with the count so far; an exception ends it. *)
Fixpoint store_articles (env : Env) (source : Source) (images_dir : string)
    (new_articles : list Item) (new_count : Z) : M (Result Z) :=
  match new_articles with
  | [] => ret (Ok new_count)
  | article :: rest =>
    do added <- store_article env source images_dir article;
    match added with
    | Exn => ret Exn
    | Ok added =>
      store_articles env source images_dir rest (new_count + added)
    end
  end.

(** [backfill_source] from the deduplication on; [all_articles] is what
    the discovery methods (Google News, the Wayback Machine, sitemaps)
    returned. The articles already stored are filtered out before the
    first one is written. *)
Definition backfill_source (env : Env) (source : Source) (images_dir : string)
    (all_articles : list Item) : M (Result Z) :=
  let unique := unique_articles all_articles in
  do db <- get_db;
  let new_articles :=
    List.filter (fun a => negb (Database.url_exists db (i_url a))) unique in
  store_articles env source images_dir new_articles 0.

(** ** Feed entries: the loop of [fetch_feed] *)

(** The first six fields of a [time.struct_time], as feedparser gives a
    parsed date. *)
Record TimeStruct := {
  tm_year : Z;
  tm_mon : Z;
  tm_mday : Z;
  tm_hour : Z;
  tm_min : Z;
  tm_sec : Z
}.

(** An element of [entry.media_content]. A key the code reads with a
    default or only tests for truth is a string, empty when absent; a key
    whose value is returned as it is, is an option. *)
Record MediaContent := {
  mc_medium : string;
  mc_type : string;
  mc_url : option string
}.

(** An element of [entry.enclosures]. *)
Record Enclosure := {
  enc_type : string;
  enc_href : option string;
  enc_url : option string
}.

(** A feed entry, with the keys [fetch_feed] reads: thumbnails by their
    url, content elements by their value, authors by their name and tags
    by their term. *)
Record Entry := {
  e_link : string;
  e_title : string;
  e_published_parsed : option TimeStruct;
  e_updated_parsed : option TimeStruct;
  e_published : string;
  e_updated : string;
  e_media_content : list MediaContent;
  e_media_thumbnail : list string;
  e_enclosures : list Enclosure;
  e_content : list string;
  e_summary : string;
  e_description : string;
  e_author : string;
  e_authors : list string;
  e_tags : list string
}.

(** *** Dates *)

Definition is_leap (y : Z) : bool :=
  (y mod 4 =? 0)%Z && (negb (y mod 100 =? 0)%Z || (y mod 400 =? 0)%Z).

Definition days_in_month (y m : Z) : Z :=
  if (m =? 2)%Z then (if is_leap y then 29 else 28)
  else if (m =? 4)%Z || (m =? 6)%Z || (m =? 9)%Z || (m =? 11)%Z then 30
  else 31.

(** The range check of the [datetime] constructor. *)
Definition valid_datetime (t : TimeStruct) : bool :=
  (1 <=? tm_year t)%Z && (tm_year t <=? 9999)%Z &&
  (1 <=? tm_mon t)%Z && (tm_mon t <=? 12)%Z &&
  (1 <=? tm_mday t)%Z && (tm_mday t <=? days_in_month (tm_year t) (tm_mon t))%Z &&
  (0 <=? tm_hour t)%Z && (tm_hour t <=? 23)%Z &&
  (0 <=? tm_min t)%Z && (tm_min t <=? 59)%Z &&
  (0 <=? tm_sec t)%Z && (tm_sec t <=? 59)%Z.

Definition digit (n : Z) : ascii := ascii_of_nat (48 + Z.to_nat (n mod 10)).

(** Two and four decimal digits, zero padded. *)
Definition pad2 (n : Z) : string :=
  String (digit (n / 10)) (String (digit n) EmptyString).

Definition pad4 (n : Z) : string :=
  String (digit (n / 1000)) (String (digit (n / 100)) (pad2 n)).

(** The [isoformat()] of the UTC [datetime] built from [parsed[:6]]:
    [None] when the constructor raises. *)
Definition utc_isoformat (t : TimeStruct) : option string :=
  if valid_datetime t
  then Some (pad4 (tm_year t) +:+ "-" +:+ pad2 (tm_mon t) +:+ "-"
             +:+ pad2 (tm_mday t) +:+ "T" +:+ pad2 (tm_hour t) +:+ ":"
             +:+ pad2 (tm_min t) +:+ ":" +:+ pad2 (tm_sec t) +:+ "+00:00")
  else None.

(** The two loops over the date fields. In each the first field present
    ends the loop, whether it could be used or not. *)
Definition pub_date (env : Env) (e : Entry) : option string :=
  let pub_date :=
    match e_published_parsed e with
    | Some parsed => utc_isoformat parsed
    | None =>
      match e_updated_parsed e with
      | Some parsed => utc_isoformat parsed
      | None => None
      end
    end in
  if negb (truthy_opt pub_date) then
    let ds := if truthy (e_published e) then e_published e else e_updated e in
    if truthy ds then
      match parse_date env ds with
      | Some d => Some d
      | None => pub_date
      end
    else pub_date
  else pub_date.

(** *** Substitution *)

(** [re.sub(r, repl, s)] for a pattern that matches no empty string: the
    matches are found from left to right, each search resuming where the
    last match ended; [skip] counts the characters of the current match
    still to pass over. *)
Fixpoint re_sub_from (r : Regex) (repl s : string) (skip : nat) : string :=
  match s with
  | EmptyString => EmptyString
  | String c rest =>
    match skip with
    | S k => re_sub_from r repl rest k
    | O =>
      match match_at r s None (fun rest' _ => Some rest') with
      | Some rest' =>
        repl +:+ re_sub_from r repl rest
                   (String.length s - String.length rest' - 1)
      | None => String c (re_sub_from r repl rest 0)
      end
    end
  end.

Definition re_sub (r : Regex) (repl s : string) : string :=
  re_sub_from r repl s 0.

(** [s.replace(old, new)] for a non-empty [old]. *)
Fixpoint replace_from (old new s : string) (skip : nat) : string :=
  match s with
  | EmptyString => EmptyString
  | String c rest =>
    match skip with
    | S k => replace_from old new rest k
    | O =>
      if String.prefix old s
      then new +:+ replace_from old new rest (String.length old - 1)
      else String c (replace_from old new rest 0)
    end
  end.

Definition replace (old new s : string) : string := replace_from old new s 0.

(** <[^>]+> *)
Definition tag_pattern : Regex := rseq [RLit "<"; RPlus true ">"; RLit ">"].

(** The characters of the class \s, which are those of [is_space]. *)
Definition whitespace : string :=
  String "009" (String "010" (String "011" (String "012" (String "013"
  (String "028" (String "029" (String "030" (String "031" " ")))))))).

(** The first two lines of [_strip_html]: tags become spaces, runs of
    whitespace become one space, and the ends are stripped. *)
Definition strip_tags (html : string) : string :=
  let text := re_sub tag_pattern " " html in
  strip (re_sub (RPlus false whitespace) " " text).

Definition entities : list (string * string) :=
  [("&amp;", "&"); ("&lt;", "<"); ("&gt;", ">");
   ("&quot;", dquote); ("&#39;", squote); ("&nbsp;", " ")].

(** The loop over the entities, one replacement after the other. *)
Definition decode_entities (text : string) : string :=
  fold_left (fun text p => replace (fst p) (snd p) text) entities text.

Definition _strip_html (html : string) : string :=
  decode_entities (strip_tags html).

(** *** The preview image of an entry *)

(** <img[^>]+src=Q([^Q]+)Q *)
Definition img_src : Regex :=
  rseq [RLit "<img"; RPlus true ">"; RLit "src="; q; value_group; q].

Definition _find_img_in_html (html : string) : option string :=
  re_search img_src html.

(** A loop that may return from the function: [Some r] when it returned
    [r], [None] when it fell through. *)
Fixpoint media_content_loop (l : list MediaContent) : option (option string) :=
  match l with
  | [] => None
  | mc :: rest =>
    if String.eqb (mc_medium mc) "image" || startswith "image" (mc_type mc)
    then Some (mc_url mc)
    else if truthy_opt (mc_url mc) && negb (truthy (mc_type mc))
    then Some (mc_url mc)
    else media_content_loop rest
  end.

Fixpoint media_thumbnail_loop (l : list string) : option (option string) :=
  match l with
  | [] => None
  | url :: rest =>
    if truthy url then Some (Some url) else media_thumbnail_loop rest
  end.

(** [enc.get(href) or enc.get(url)] of the first image enclosure. *)
Fixpoint enclosures_loop (l : list Enclosure) : option (option string) :=
  match l with
  | [] => None
  | enc :: rest =>
    if startswith "image" (enc_type enc)
    then Some (if truthy_opt (enc_href enc) then enc_href enc else enc_url enc)
    else enclosures_loop rest
  end.

(** [for c in entry.content]: the first content element with an image in
    its markup. *)
Fixpoint content_loop (l : list string) : option (option string) :=
  match l with
  | [] => None
  | value :: rest =>
    if truthy_opt (_find_img_in_html value)
    then Some (_find_img_in_html value)
    else content_loop rest
  end.

(** [for field in (summary, description)]: the first non-empty field
    with an image in its markup. *)
Fixpoint fields_loop (l : list string) : option (option string) :=
  match l with
  | [] => None
  | html :: rest =>
    if truthy html && truthy_opt (_find_img_in_html html)
    then Some (_find_img_in_html html)
    else fields_loop rest
  end.

Definition first_return {A} (a b : option A) : option A :=
  match a with Some r => Some r | None => b end.

(** [_extract_feed_image(entry)]. *)
Definition _extract_feed_image (e : Entry) : option string :=
  match
    first_return (media_content_loop (e_media_content e))
      (first_return (media_thumbnail_loop (e_media_thumbnail e))
         (first_return (enclosures_loop (e_enclosures e))
            (first_return (content_loop (e_content e))
               (fields_loop [e_summary e; e_description e]))))
  with
  | Some r => r
  | None => None
  end.

(** *** The candidate of an entry *)

Definition entry_description (e : Entry) : string :=
  if truthy (e_summary e) then take_str 500 (_strip_html (e_summary e))
  else if truthy (e_description e)
       then take_str 500 (_strip_html (e_description e))
       else "".

Definition entry_author (e : Entry) : string :=
  if negb (truthy (e_author e))
     && match e_authors e with [] => false | _ => true end
  then join ", " (List.filter truthy (e_authors e))
  else e_author e.

(** The body of [for entry in feed.entries]: [None] for an entry passed
    over. *)
Definition normalize_entry (env : Env) (e : Entry) : option Item :=
  let link := strip (e_link e) in
  if negb (truthy link) then None
  else
    Some {| i_url := link;
            i_headline := strip (e_title e);
            i_description := entry_description e;
            i_byline := entry_author e;
            i_publish_date := pub_date env e;
            i_preview_image_url :=
              match _extract_feed_image e with
              | Some u => u
              | None => ""
              end;
            i_tags := List.filter truthy (e_tags e) |}.

(** The articles [fetch_feed] returns for the entries of a parsed feed;
    the oracle [feed_items] stands for this list. *)
Fixpoint normalize_entries (env : Env) (entries : list Entry) : list Item :=
  match entries with
  | [] => []
  | e :: rest =>
    match normalize_entry env e with
    | Some article => article :: normalize_entries env rest
    | None => normalize_entries env rest
    end
  end.
(** * Observations and inputs *)

(** ** Reading the log *)

(** The requests sent, in order. *)
Fixpoint gets_of (tr : list Event) : list Request :=
  match tr with
  | [] => []
  | EGet rq :: rest => rq :: gets_of rest
  | _ :: rest => gets_of rest
  end.

(** The fixed sleeps taken, in seconds, in order. *)
Fixpoint sleeps_of (tr : list Event) : list Z :=
  match tr with
  | [] => []
  | ESleep s :: rest => s :: sleeps_of rest
  | _ :: rest => sleeps_of rest
  end.

(** The calls of [_try_playwright], in order. *)
Fixpoint browsers_of (tr : list Event) : list string :=
  match tr with
  | [] => []
  | EBrowser u _ :: rest => u :: browsers_of rest
  | _ :: rest => browsers_of rest
  end.

(** [n] attempts at [rq] from attempt number [attempt] on, with the
    backoff sleep between two attempts and none after the last. *)
Fixpoint backoff_schedule (rq : Request) (n : nat) (attempt : Z) : list Event :=
  match n with
  | O => []
  | S O => [EGet rq]
  | S n' =>
    EGet rq :: ESleep (2 ^ (attempt + 1))%Z :: backoff_schedule rq n' (attempt + 1)
  end.

(** ** Assumptions on the outside world *)

(** A server that answers every request with HTTP 429. *)
Definition always_429 (env : Env) : Prop :=
  forall tr rq, exists resp,
    http env tr rq = Returned resp /\ status_code resp = 429%Z.

(** The feeds answer the same whenever they are asked. *)
Definition stable_feeds (env : Env) : Prop :=
  forall tr tr' u, feed_items env tr u = feed_items env tr' u.

(** The request [resolve_redirect_url] sends. *)
Definition redirect_request (u : string) : Request :=
  {| req_url := u; req_headers := [("User-Agent", og_user_agent)];
     req_timeout := 10 |}.

(** Where a redirect request lands: the final URL, or the URL itself when
    the request raises. *)
Definition landing (u : string) (out : Outcome) : string :=
  match out with
  | Returned resp => final_url resp
  | Raised => u
  end.

(** Google News links resolve the same whenever they are followed. *)
Definition stable_redirects (env : Env) : Prop :=
  forall tr tr' u,
    contains "news.google.com" u = true ->
    landing u (http env tr (redirect_request u))
    = landing u (http env tr' (redirect_request u)).

(** ** Notions used in the proofs *)

(** A computation that leaves the store alone. *)
Definition keeps_db {A} (m : M A) : Prop :=
  forall w, w_db (snd (m w)) = w_db w.

(** A URL lookup among candidates. *)
Definition has_url (u : string) (it : Item) : bool := String.eqb (i_url it) u.

(** The texts of the paragraphs of a document, in document order. *)
Definition paragraph_texts (doc : list Node) : list string :=
  map get_text (flat_map (find_all "p") doc).

(** [shrinks l k]: [l] is [k] with some entries left out and the others
    no longer than they were. *)
Inductive shrinks : list string -> list string -> Prop :=
| shrinks_nil (k : list string) : shrinks [] k
| shrinks_keep (x y : string) (l k : list string) :
    (String.length x <= String.length y)%nat ->
    shrinks l k -> shrinks (x :: l) (y :: k)
| shrinks_drop (y : string) (l k : list string) :
    shrinks l k -> shrinks l (y :: k).

(** [lighter doc' doc]: [doc'] has no more text than [doc], and its
    paragraphs are paragraphs of [doc] that lost text at most. *)
Definition lighter (doc' doc : list Node) : Prop :=
  (String.length (get_text_all doc') <= String.length (get_text_all doc))%nat /\
  shrinks (paragraph_texts doc') (paragraph_texts doc).

(** A source that differs from [s] in its [prefer_playwright] flag only. *)
Definition with_prefer_playwright (flag : bool) (s : Source) : Source :=
  {| slug := slug s; name := name s; category := category s;
     rss_urls := rss_urls s; bypass_paywall := bypass_paywall s;
     prefer_playwright := flag |}.

(** ** Concrete environments *)

(** [str(node)] for the documents used below: text without markup
    characters, and elements without attributes. *)
Fixpoint plain_markup (n : Node) : string :=
  match n with
  | NText s => s
  | NComment s => "<!--" +:+ s +:+ "-->"
  | NElem t _ ch =>
    "<" +:+ t +:+ ">" +:+ cat (map plain_markup ch) +:+ "</" +:+ t +:+ ">"
  end.

(** A parser known on a table of pages. A page outside the table is taken
    to hold no markup, and parses to one text node. *)
Definition parser_of (table : list (string * list Node)) (html : string)
  : option (list Node) :=
  match assoc html table with
  | Some doc => Some doc
  | None => Some [NText html]
  end.

(** An environment from its server, browser, feeds and pages; dates parse
    to themselves, no image is cached, the clock stands still. *)
Definition make_env (server : list Event -> Request -> Outcome)
    (chromium : list Event -> string -> Z -> option string)
    (feeds : list Event -> string -> list Item)
    (table : list (string * list Node)) : Env :=
  {| bs4_available := true;
     http := server;
     browser := chromium;
     feed_items := feeds;
     html_parser := parser_of table;
     to_html := plain_markup;
     parse_date := fun s => Some s;
     image_cache := fun _ _ _ _ => Ok None;
     clock := fun _ => "2024-01-01T00:00:00+00:00" |}.

(** A server that gives every request the same status and body. *)
Definition respond (status : Z) (body : string) : list Event -> Request -> Outcome :=
  fun _ rq =>
    Returned {| status_code := status; text := body; final_url := req_url rq |}.

(** Playwright is not installed. *)
Definition no_browser : list Event -> string -> Z -> option string :=
  fun _ _ _ => None.

Definition no_feeds : list Event -> string -> list Item := fun _ _ => [].

Definition fresh_world : World := {| w_db := Database.empty; w_log := [] |}.

Definition example_url : string := "https://example.com/a".

Definition example_request (headers : list (string * string)) : Request :=
  {| req_url := example_url; req_headers := headers;
     req_timeout := default_timeout |}.

Definition google_news_url : string :=
  "https://news.google.com/rss/articles/CBMiK2h0dHBz".

(** A page of [n] times the letter [c]: no markup, one text node. *)
Definition page_of (c : ascii) (n : nat) : string := repeat_char c n.

Definition body_direct : string := page_of "d" 600.
Definition body_browser : string := page_of "b" 600.
Definition body_500 : string := page_of "a" 500.

(** A page whose sanitized markup is 504 characters long around 497
    characters of text. *)
Definition html_504 : string := "<p>" +:+ page_of "a" 497 +:+ "</p>".

(** Meta tags in the two attribute orders. *)
Definition author_name_first : string :=
  "<head><meta name='author' content='Jane Doe'></head>".
Definition author_content_first : string :=
  "<head><meta content='Jane Doe' name='author'></head>".
Definition published_property_first : string :=
  "<head><meta property='article:published_time' content='2024-01-01T00:00:00Z'></head>".
Definition published_content_first : string :=
  "<head><meta content='2024-01-01T00:00:00Z' property='article:published_time'></head>".
Definition image_property_first : string :=
  "<head><meta property='og:image' content='https://x/y.jpg'></head>".
Definition image_content_first : string :=
  "<head><meta content='https://x/y.jpg' property='og:image'></head>".

(** A paywall teaser page and its parse. *)
Definition teaser_html : string :=
  "<html><body><nav><p>Home</p></nav><article><p>Subscribe to continue reading.</p></article></body></html>".

Definition teaser_doc : list Node :=
  [NElem "html" []
     [NElem "body" []
        [NElem "nav" [] [NElem "p" [] [NText "Home"]];
         NElem "article" []
           [NElem "p" [] [NText "Subscribe to continue reading."]]]]].

(** A small page: a body with a div of class article-body, a main
    element and a sidebar. *)
Definition small_page : list Node :=
  [NElem "html" []
     [NElem "body" []
        [NElem "div" [("class", AList ["article-body"])]
           [NElem "p" [] [NText " Lead. "]];
         NElem "main" [("id", AStr "Main")]
           [NElem "section" [("class", AList ["story"])]
              [NElem "a" [("href", AStr "/x"); ("onclick", AStr "f()")]
                 [NText "link"];
               NElem "img" [("src", AStr "i.png"); ("class", AList ["big"])] [];
               NElem "script" [] [NText "var x;"];
               NComment "c"]];
         NElem "div" [("class", AList ["Sidebar"; "x"])] [NText "ads"]]]].

Definition feed1 : string := "https://example.com/feed1.xml".
Definition feed2 : string := "https://example.com/feed2.xml".

(** A candidate without image or description. *)
Definition item_a : Item :=
  {| i_url := example_url; i_headline := "X"; i_description := "";
     i_byline := ""; i_publish_date := Some "2024-01-01T00:00:00+00:00";
     i_preview_image_url := ""; i_tags := [] |}.

(** A candidate that came with a preview image but no description. *)
Definition item_b : Item :=
  {| i_url := "https://example.com/b"; i_headline := "Y"; i_description := "";
     i_byline := ""; i_publish_date := None;
     i_preview_image_url := "https://feed/img.jpg"; i_tags := [] |}.

(** Both feeds list the same article. *)
Definition two_feeds : list Event -> string -> list Item :=
  fun _ u =>
    if String.eqb u feed1 || String.eqb u feed2 then [item_a] else [].

(** A source with both policy flags set. *)
Definition source_heavy : Source :=
  {| slug := "example"; name := "Example"; category := "news";
     rss_urls := [feed1; feed2];
     bypass_paywall := true; prefer_playwright := true |}.

(** The rate-limiting server. *)
Definition env_429 : Env := make_env (respond 429 "") no_browser no_feeds [].

(** A network on which every request raises. *)
Definition env_offline : Env :=
  make_env (fun _ _ => Raised) no_browser no_feeds [].

(** The site answers every request with [body_direct]; a browser session
    renders [body_browser]. *)
Definition env_site : Env :=
  make_env (respond 200 body_direct) (fun _ _ _ => Some body_browser)
    two_feeds [].

(** A server whose page sanitizes to exactly 500 characters. *)
Definition env_500 : Env :=
  make_env (respond 200 body_500) no_browser no_feeds [].

(** A server whose page is [html_504]. *)
Definition env_markup : Env :=
  make_env (respond 200 html_504) no_browser no_feeds
    [(html_504, [NElem "p" [] [NText (page_of "a" 497)]])].

(** A site whose pages carry an og:image tag. *)
Definition env_og : Env :=
  make_env (respond 200 image_property_first) no_browser no_feeds [].

(** A site that serves the teaser page. *)
Definition env_teaser : Env :=
  make_env (respond 200 teaser_html) no_browser no_feeds
    [(teaser_html, teaser_doc)].


(** ** A link that resolves on the second try, and a malformed image *)

(** A source with one feed and neither policy flag. *)
Definition source_plain : Source :=
  {| slug := "example"; name := "Example"; category := "news";
     rss_urls := [feed1];
     bypass_paywall := false; prefer_playwright := false |}.

(** A candidate that is a Google News link. *)
Definition item_news : Item :=
  {| i_url := google_news_url; i_headline := "X"; i_description := "";
     i_byline := ""; i_publish_date := Some "2024-01-01T00:00:00+00:00";
     i_preview_image_url := ""; i_tags := [] |}.

(** The first request of a run raises; every later one lands on
    [example_url]. The feed lists the one Google News link, always. *)
Definition env_flaky_redirect : Env :=
  make_env
    (fun tr rq =>
       match gets_of tr with
       | [] => Raised
       | _ :: _ =>
         Returned {| status_code := 200; text := body_direct;
                     final_url := example_url |}
       end)
    no_browser
    (fun _ u => if String.eqb u feed1 then [item_news] else [])
    [].

(** An image address that [urlparse] refuses: a bracket that opens an
    IPv6 host and never closes. *)
Definition bad_image_url : string := "http://[x/y.jpg".

Definition bad_image_page : string :=
  "<head><meta property='og:image' content='http://[x/y.jpg'></head>".

(** The site names the malformed image the first time a page is asked
    for, and no image afterwards; the feed lists the one article, always.
    [download_image] raises on the malformed address. *)
Definition env_bad_image : Env :=
  {| bs4_available := true;
     http := fun tr rq =>
       match gets_of tr with
       | [] => Returned {| status_code := 200; text := bad_image_page;
                           final_url := req_url rq |}
       | _ :: _ => Returned {| status_code := 200; text := body_direct;
                               final_url := req_url rq |}
       end;
     browser := no_browser;
     feed_items := fun _ u => if String.eqb u feed1 then [item_a] else [];
     html_parser := parser_of [];
     to_html := plain_markup;
     parse_date := fun s => Some s;
     image_cache := fun _ u _ _ =>
       if String.eqb u bad_image_url then Exn else Ok None;
     clock := fun _ => "2024-01-01T00:00:00+00:00" |}.

(** ** The strategies of the bypass chain *)

(** The methods of [fetch_article_text_via_bypass] in the order the code
    tries them. *)
Definition strategies (env : Env) (u : string) (timeout : Z)
    (prefer_playwright : bool) : list (M (option string)) :=
  [ (if prefer_playwright then _try_playwright env u timeout else ret None);
    fetch_method env u headers_standard timeout;
    fetch_method env u headers_google timeout;
    fetch_method env u headers_facebook timeout;
    fetch_method env ("https://12ft.io/" +:+ u) headers_standard timeout;
    fetch_method env ("https://removepaywalls.com/" +:+ u) headers_standard timeout;
    (if negb prefer_playwright then _try_playwright env u timeout else ret None) ].

(** Running methods one after the other while each of them gives
    nothing: the world after the last, or [None] when one of them gave a
    text. *)
Fixpoint all_fail (ms : list (M (option string))) (w : World) : option World :=
  match ms with
  | [] => Some w
  | m :: rest =>
    match m w with
    | (None, w') => all_fail rest w'
    | (Some _, _) => None
    end
  end.

(** The direct fetch gives a page that sanitizes to 500 characters; with
    the Google referrer the site gives 600. *)
Definition env_referrer : Env :=
  make_env
    (fun _ rq =>
       Returned {| status_code := 200;
                   text := match assoc "Referer" (req_headers rq) with
                           | Some _ => body_direct
                           | None => body_500
                           end;
                   final_url := req_url rq |})
    no_browser no_feeds [].

(** ** Fifty-one short paragraphs *)

Definition short_paragraphs : list Node :=
  repeat (NElem "p" [] [NText "abc"]) 51.

Definition short_paragraphs_html : string :=
  cat (map plain_markup short_paragraphs).

(** A site that serves the fifty-one paragraphs. *)
Definition env_short_paragraphs : Env :=
  make_env (respond 200 short_paragraphs_html) no_browser no_feeds
    [(short_paragraphs_html, short_paragraphs)].
(** ** Invariants of the store *)

(** The shadow table mirrors the table, row for row. *)
Definition fts_in_sync (db : Database.Store) : Prop :=
  Database.articles_fts db = map Database.fts_row (Database.articles db).

(** Rowids are distinct, positive, and none exceeds the AUTOINCREMENT
    counter. *)
Definition rowids_ok (db : Database.Store) : Prop :=
  List.NoDup (map Database.id (Database.articles db)) /\
  Forall (fun r => (1 <= Database.id r <= Database.sequence db)%Z)
    (Database.articles db).

(** What every store reached from the empty one satisfies. *)
Definition well_formed (db : Database.Store) : Prop :=
  Database.unique_urls db /\ fts_in_sync db /\ rowids_ok db.

(** One slug, one checkpoint. *)
Definition unique_slugs (rows : list SourceChecks.Check) : Prop :=
  List.NoDup (map SourceChecks.source_slug rows).

(** ** Measuring a run *)

Fixpoint sum_Z (l : list Z) : Z :=
  match l with
  | [] => 0
  | x :: rest => x + sum_Z rest
  end.

(** [does m P]: whatever the world, [m] leaves the store alone, appends a
    stretch of events to the log, and its result and that stretch satisfy
    [P]. *)
Definition does {A} (m : M A) (P : A -> list Event -> Prop) : Prop :=
  forall w, exists a tr,
    m w = (a, {| w_db := w_db w; w_log := w_log w ++ tr |}) /\ P a tr.

(** At most [g] requests, [b] browser calls and [s] seconds of fixed
    sleep. *)
Definition within (g b : nat) (s : Z) (tr : list Event) : Prop :=
  (List.length (gets_of tr) <= g)%nat /\
  (List.length (browsers_of tr) <= b)%nat /\
  (0 <= sum_Z (sleeps_of tr) <= s)%Z.

(** The fixed sleep [fetch_with_retry] can add up to: 2 + 4 + ... up to
    the last attempt but one. *)
Definition backoff_total (max_retries : Z) : Z :=
  Z.max 0 (2 ^ max_retries - 2).

(** A network on which every request raises. *)
Definition always_raises (env : Env) : Prop :=
  forall tr rq, http env tr rq = Raised.

(** Every event of the stretch is a request [rq] or a fixed sleep. *)
Definition only_requests (rq : Request) (tr : list Event) : Prop :=
  Forall (fun e => e = EGet rq \/ exists s, e = ESleep s) tr.

(** What the loop may do with [n] iterations left before the bound. *)
Definition retry_budget (rq : Request) (max_retries : Z) (n : nat)
    (attempt : Z) (r : option Response) (tr : list Event) : Prop :=
  within n 0 (match n with
              | O => 0
              | S _ => 2 ^ max_retries - 2 ^ (attempt + 1)
              end) tr /\
  only_requests rq tr /\
  (forall resp, r = Some resp -> status_code resp <> 429%Z).

(** What one retrieval step may cost and return: at most [g] requests,
    all satisfying [U], [b] browser calls and [s] seconds of fixed sleep;
    and a body, when there is one, is longer than 500 characters. *)
Definition retrieval_budget (g b : nat) (s : Z) (U : Request -> Prop)
    (r : option string) (tr : list Event) : Prop :=
  within g b s tr /\
  Forall U (gets_of tr) /\
  (forall t, r = Some t -> (500 < String.length t)%nat).

(** The three addresses the bypass chain fetches for a URL. *)
Definition bypass_targets (u : string) (rq : Request) : Prop :=
  In (req_url rq)
     [u; "https://12ft.io/" +:+ u; "https://removepaywalls.com/" +:+ u].

(** ** What the sanitizer leaves *)

(** [v] is the string [s]. *)
Definition attr_is (v : option AttrVal) (s : string) : bool :=
  match v with
  | Some (AStr x) => String.eqb x s
  | _ => false
  end.

(** The attributes a kept element may carry after step 4: those of its
    allow-list, and the safety attributes step 4 itself adds to links and
    images. *)
Definition attr_allowed (t k : string) : bool :=
  in_list k (match assoc t KEEP_ATTRS with Some l => l | None => [] end)
  || (String.eqb t "a" && in_list k ["target"; "rel"])
  || (String.eqb t "img" && in_list k ["loading"; "referrerpolicy"]).

(** A link with a non-empty [href] opens in a new tab without opener or
    referrer; an image loads lazily without referrer. *)
Definition hardened (t : string) (a : Attrs) : bool :=
  (if String.eqb t "a"
      && match assoc "href" a with
         | Some (AStr s) => truthy s
         | Some (AList l) => match l with [] => false | _ => true end
         | None => false
         end
   then attr_is (assoc "target" a) "_blank"
        && attr_is (assoc "rel" a) "noopener noreferrer"
   else true)
  &&
  (if String.eqb t "img"
   then attr_is (assoc "loading" a) "lazy"
        && attr_is (assoc "referrerpolicy" a) "no-referrer"
   else true).

(** Every element of the tree is a kept tag with allowed attributes only,
    hardened where it is a link or an image. *)
Fixpoint clean (n : Node) : bool :=
  match n with
  | NElem t a ch =>
    in_list t KEEP_TAGS
    && forallb (fun kv => attr_allowed t (fst kv)) a
    && hardened t a
    && forallb clean ch
  | _ => true
  end.

(** What is below the container is clean. *)
Definition container_clean (c : Container) : bool :=
  match c with
  | InElement (NElem _ _ ch) => forallb clean ch
  | InElement _ => true
  | WholeDocument doc => forallb clean doc
  end.

(** No element of the tree has one of the tags. *)
Fixpoint free_of (tags : list string) (n : Node) : bool :=
  match n with
  | NElem t _ ch => negb (in_list t tags) && forallb (free_of tags) ch
  | _ => true
  end.

(** ** Rows a pass writes *)

(** A row as [process_source] writes it for a source: the source's slug,
    name and category; a full text that is empty or longer than 500
    characters, and empty when the source has no bypass; no extra image
    lists and no section. *)
Definition written_for (source : Source) (r : Database.Article) : Prop :=
  Database.source_slug r = slug source /\
  Database.source_name r = name source /\
  Database.category r = category source /\
  (Database.article_text r = ""
   \/ (500 < String.length (Database.article_text r))%nat) /\
  (bypass_paywall source = false -> Database.article_text r = "") /\
  Database.image_urls r = [] /\
  Database.local_image_paths r = [] /\
  Database.article_section r = "".

(** ** A run over several sources *)

(** The store holds the resolved URL of every candidate of the source. *)
Definition covered (env : Env) (source : Source) (db : Database.Store) : Prop :=
  forall w w' item,
    In item (dedup (fst (collect_items env (rss_urls source) w))) ->
    Database.url_exists db (fst (resolve_redirect_url env (i_url item) 10 w'))
    = true.

(** Every URL stored in [db] is stored in [db']. *)
Definition grows (db db' : Database.Store) : Prop :=
  forall v, Database.url_exists db v = true -> Database.url_exists db' v = true.

(** The run is never stopped. *)
Definition never_stopped (running : list Event -> bool) : Prop :=
  forall tr, running tr = true.

Definition run_db (rw : RunWorld) : Database.Store := w_db (rw_world rw).

(** ** The backfill *)

(** The articles a backfill is to write into [db]. *)
Definition to_backfill (db : Database.Store) (all_articles : list Item)
  : list Item :=
  List.filter (fun a => negb (Database.url_exists db (i_url a)))
    (unique_articles all_articles).

(** A row as the backfill writes it for [source]: no text, no tags. *)
Definition backfilled_for (source : Source) (r : Database.Article) : Prop :=
  Database.source_slug r = slug source /\
  Database.source_name r = name source /\
  Database.category r = category source /\
  Database.article_text r = "" /\
  Database.tags r = [] /\
  Database.image_urls r = [] /\
  Database.local_image_paths r = [] /\
  Database.article_section r = "".

(** ** More inputs *)

(** A server whose page parses to [small_page]. *)
Definition small_html : string := "<html>small page</html>".

Definition env_small : Env :=
  make_env (respond 200 small_html) no_browser no_feeds
    [(small_html, small_page)].

(** A configuration of three entries: the example source, a section
    divider without slug, and a disabled site. *)
Definition site_example : Site :=
  {| site_source := source_heavy; site_enabled := true;
     site_google := false; site_scrape := false |}.

Definition site_divider : Site :=
  {| site_source :=
       {| slug := ""; name := "Local"; category := ""; rss_urls := [];
          bypass_paywall := false; prefer_playwright := false |};
     site_enabled := true; site_google := false; site_scrape := false |}.

Definition site_disabled : Site :=
  {| site_source :=
       {| slug := "old"; name := "Old"; category := "news";
          rss_urls := [feed2];
          bypass_paywall := false; prefer_playwright := false |};
     site_enabled := false; site_google := false; site_scrape := false |}.

Definition config_example : list Site :=
  [site_divider; site_example; site_disabled].

Definition fresh_run : RunWorld :=
  {| rw_world := fresh_world; rw_checks := []; rw_errors := [] |}.

(** A candidate whose feed entry names the malformed image. *)
Definition item_c : Item :=
  {| i_url := "https://example.com/c"; i_headline := "Z"; i_description := "d";
     i_byline := ""; i_publish_date := None;
     i_preview_image_url := bad_image_url; i_tags := [] |}.

(** [download_image] raises on the malformed address, and finds no other
    image. *)
Definition raising_images
  : list Event -> string -> string -> string -> Result (option string) :=
  fun _ u _ _ => if String.eqb u bad_image_url then Exn else Ok None.

(** The feed lists a sound article, then the one with the malformed
    image; the site answers every request with [body_direct]. *)
Definition env_second_image : Env :=
  {| bs4_available := true;
     http := respond 200 body_direct;
     browser := no_browser;
     feed_items := fun _ u => if String.eqb u feed1 then [item_a; item_c] else [];
     html_parser := parser_of [];
     to_html := plain_markup;
     parse_date := fun s => Some s;
     image_cache := raising_images;
     clock := fun _ => "2024-01-01T00:00:00+00:00" |}.

Definition site_plain : Site :=
  {| site_source := source_plain; site_enabled := true;
     site_google := false; site_scrape := false |}.

(** No signal arrives. *)
Definition always_running : list Event -> bool := fun _ => true.

(** ** Counting *)

(** Whether the rows written for [source] pass the filters of
    [count_articles]: a falsy filter lets every row pass. *)
Definition source_selected (cat src : option string) (source : Source) : bool :=
  (negb (truthy_opt cat)
   || String.eqb (category source) (match cat with Some c => c | None => "" end))
  &&
  (negb (truthy_opt src)
   || String.eqb (slug source) (match src with Some s => s | None => "" end)).

(** ** What a pattern matched *)

Fixpoint all_chars (p : ascii -> bool) (s : string) : bool :=
  match s with
  | EmptyString => true
  | String c rest => p c && all_chars p rest
  end.

(** [matches r s g rest g']: the pattern [r] matches a prefix of [s],
    leaving [rest], and turns the group text [g] into [g']. *)
Inductive matches : Regex -> string -> option string -> string
                    -> option string -> Prop :=
| MLit l s g rest :
    strip_prefix l s = Some rest -> matches (RLit l) s g rest g
| MClass neg ms c rest g :
    in_class neg ms c = true -> matches (RClass neg ms) (String c rest) g rest g
| MPlus neg ms pre rest g :
    pre <> "" -> all_chars (in_class neg ms) pre = true ->
    matches (RPlus neg ms) (pre +:+ rest) g rest g
| MAltL a b s g rest g' :
    matches a s g rest g' -> matches (RAlt a b) s g rest g'
| MAltR a b s g rest g' :
    matches b s g rest g' -> matches (RAlt a b) s g rest g'
| MSeq a b s g mid g1 rest g2 :
    matches a s g mid g1 -> matches b mid g1 rest g2 ->
    matches (RSeq a b) s g rest g2
| MGroup a s g rest g' :
    matches a s g rest g' ->
    matches (RGroup a) s g rest (Some (consumed s rest)).

(** Every group of the pattern is a repetition of the class. *)
Fixpoint groups_are (neg : bool) (ms : string) (r : Regex) : bool :=
  match r with
  | RGroup (RPlus n m) => Bool.eqb n neg && String.eqb m ms
  | RGroup _ => false
  | RAlt a b | RSeq a b => groups_are neg ms a && groups_are neg ms b
  | _ => true
  end.

(** Every match of the pattern passes through a group. *)
Fixpoint always_groups (r : Regex) : bool :=
  match r with
  | RGroup _ => true
  | RSeq a b => always_groups a || always_groups b
  | RAlt a b => always_groups a && always_groups b
  | _ => false
  end.

(** A value read off a page: not empty, free of quote characters, and a
    substring of the page. *)
Definition taken_from (html v : string) : Prop :=
  v <> "" /\ all_chars (in_class true quotes) v = true /\
  contains v html = true.

(** A value in [s]: not empty, of the class, and a substring. *)
Definition in_text (neg : bool) (ms s v : string) : Prop :=
  v <> "" /\ all_chars (in_class neg ms) v = true /\
  exists a b, s = a +:+ (v +:+ b).

(** The text [fetch_og_metadata] scans: the first 50000 characters of the
    response, when there is one. *)
Definition og_page (env : Env) (u : string) (timeout : Z) (w : World)
  : option string :=
  match http env (w_log w)
          {| req_url := u; req_headers := [("User-Agent", og_user_agent)];
             req_timeout := timeout |} with
  | Returned resp => Some (take_str (Z.to_nat 50000) (text resp))
  | Raised => None
  end.

(** ** Feed entries *)

(** Where the preview image of an entry can come from. *)
Definition image_of_entry (e : Entry) (u : string) : Prop :=
  (exists mc, In mc (e_media_content e) /\ mc_url mc = Some u) \/
  In u (e_media_thumbnail e) \/
  (exists enc, In enc (e_enclosures e) /\
               (enc_href enc = Some u \/ enc_url enc = Some u)) \/
  (exists html, In html (e_content e ++ [e_summary e; e_description e]) /\
                taken_from html u).

(** A media element that the first test of the loop takes for an image. *)
Definition is_image_media (mc : MediaContent) : bool :=
  String.eqb (mc_medium mc) "image" || startswith "image" (mc_type mc).

(** An entry whose first media element is an image without url, with a
    thumbnail and an image in its summary. *)
Definition entry_example : Entry :=
  {| e_link := " https://example.com/a ";
     e_title := "X";
     e_published_parsed := None;
     e_updated_parsed := None;
     e_published := "";
     e_updated := "";
     e_media_content :=
       [{| mc_medium := "image"; mc_type := ""; mc_url := None |}];
     e_media_thumbnail := ["https://feed/thumb.jpg"];
     e_enclosures := [];
     e_content := [];
     e_summary := "<p><img src='https://feed/img.jpg'>Lead</p>";
     e_description := "";
     e_author := "";
     e_authors := [];
     e_tags := [] |}.

(** ** Markup removal *)

(** The rest of [s] after its first > character. *)
Fixpoint until_gt (s : string) : option string :=
  match s with
  | EmptyString => None
  | String c rest => if Ascii.eqb c ">" then Some rest else until_gt rest
  end.

(** The rest of [s] after the tag it starts with: a < character, at
    least one character other than >, and the first > character. *)
Definition tag_end (s : string) : option string :=
  match s with
  | String c (String d rest) =>
    if Ascii.eqb c "<" && negb (Ascii.eqb d ">") then until_gt rest else None
  | _ => None
  end.

(** A tag starts somewhere in [s]. *)
Fixpoint has_tag (s : string) : bool :=
  match tag_end s with
  | Some _ => true
  | None =>
    match s with
    | EmptyString => false
    | String _ rest => has_tag rest
    end
  end.

(** [thins ws x y]: [y] is [x] with some characters dropped or turned
    into a space; when [ws] is set, only whitespace is touched. *)
Inductive thins (ws : bool) : string -> string -> Prop :=
| thins_nil : thins ws "" ""
| thins_keep c x y : thins ws x y -> thins ws (String c x) (String c y)
| thins_drop c x y :
    (ws = true -> is_space c = true) ->
    thins ws x y -> thins ws (String c x) y
| thins_space c x y :
    (ws = true -> is_space c = true) ->
    thins ws x y -> thins ws (String c x) (String " " y).

(** The first [k] characters of [s] satisfy [p]. *)
Fixpoint all_first (p : ascii -> bool) (k : nat) (s : string) : bool :=
  match k, s with
  | S k', String c rest => p c && all_first p k' rest
  | _, _ => true
  end.

(** The only whitespace of [s] is the single space, and no two spaces
    are adjacent. *)
Fixpoint single_spaced (s : string) : bool :=
  match s with
  | EmptyString => true
  | String c rest =>
    (if is_space c
     then Ascii.eqb c " "
          && match rest with
             | String d _ => negb (is_space d)
             | EmptyString => true
             end
     else true)
    && single_spaced rest
  end.

(** [s] without its leading characters that satisfy [p]. *)
Fixpoint drop_while (p : ascii -> bool) (s : string) : string :=
  match s with
  | String c rest => if p c then drop_while p rest else s
  | EmptyString => EmptyString
  end.

(** ** The cost of a pass *)

Fixpoint downloads_of (tr : list Event) : list string :=
  match tr with
  | [] => []
  | EDownload u :: rest => u :: downloads_of rest
  | _ :: rest => downloads_of rest
  end.

Fixpoint feeds_of (tr : list Event) : list string :=
  match tr with
  | [] => []
  | EFeed u :: rest => u :: feeds_of rest
  | _ :: rest => feeds_of rest
  end.

(** At most [g] page requests, [b] browser sessions and [d] image
    downloads, and no feed fetch. *)
Definition cost (g b d : nat) (tr : list Event) : Prop :=
  (List.length (gets_of tr) <= g)%nat /\
  (List.length (browsers_of tr) <= b)%nat /\
  (List.length (downloads_of tr) <= d)%nat /\
  feeds_of tr = [].

(** Neither an image download nor a feed fetch. *)
Definition quiet (tr : list Event) : Prop :=
  downloads_of tr = [] /\ feeds_of tr = [].

(** [m] extends the log by events that satisfy [P]; the store may
    change. *)
Definition logs {A} (m : M A) (P : A -> list Event -> Prop) : Prop :=
  forall w, exists tr,
    w_log (snd (m w)) = w_log w ++ tr /\ P (fst (m w)) tr.

(** The requests one candidate can take: its redirect, its page for the
    Open Graph tags when enrichment is on, and the bypass chain when the
    source has one. *)
Definition requests_per_item (source : Source) (enrich : bool) : nat :=
  1 + (if enrich then 1 else 0) + (if bypass_paywall source then 15 else 0).

Definition browsers_per_item (source : Source) : nat :=
  if bypass_paywall source then 1 else 0.

(** The request [fetch_og_metadata] sends with its default timeout. *)
Definition og_request (u : string) : Request :=
  {| req_url := u; req_headers := [("User-Agent", og_user_agent)];
     req_timeout := 15 |}.

(** What the backfill may log for the articles [l]: one page request for
    each, in order, at most one image download for each and only from an
    http address, and neither a browser session nor a feed fetch. *)
Definition backfill_trace (l : list Item) (tr : list Event) : Prop :=
  gets_of tr = map (fun a => og_request (i_url a)) l /\
  browsers_of tr = [] /\ feeds_of tr = [] /\
  (List.length (downloads_of tr) <= List.length l)%nat /\
  Forall (fun u => startswith "http" u = true) (downloads_of tr).

(** The last second of a leap day, and an entry dated by it whose date
    strings say otherwise. *)
Definition leap_day : TimeStruct :=
  {| tm_year := 2024; tm_mon := 2; tm_mday := 29;
     tm_hour := 23; tm_min := 59; tm_sec := 59 |}.

Definition entry_dated : Entry :=
  {| e_link := "https://example.com/b";
     e_title := "Y";
     e_published_parsed := Some leap_day;
     e_updated_parsed := None;
     e_published := "yesterday";
     e_updated := "today";
     e_media_content := [];
     e_media_thumbnail := [];
     e_enclosures := [];
     e_content := [];
     e_summary := "";
     e_description := "";
     e_author := "";
     e_authors := [];
     e_tags := [] |}.

(** * Properties *)

(** ** The store *)

Section StoreFacts.
Import Database.

Lemma id_le_max_rowid (rows : list Article) (r : Article) :
  In r rows -> (id r <= max_rowid rows)%Z.
Proof.
  induction rows as [|x rows IH]; simpl; [tauto|].
  intros [->|Hin]; [lia|].
  specialize (IH Hin). lia.
Qed.

Lemma max_rowid_nonneg (rows : list Article) : (0 <= max_rowid rows)%Z.
Proof. induction rows; simpl; lia. Qed.

Lemma next_rowid_fresh (db : Store) (r : Article) :
  In r (articles db) -> (id r <? next_rowid db)%Z = true.
Proof.
  intros Hin. apply Z.ltb_lt. unfold next_rowid.
  pose proof (id_le_max_rowid _ _ Hin). lia.
Qed.

Lemma next_rowid_pos (db : Store) : (1 <= next_rowid db)%Z.
Proof. unfold next_rowid. pose proof (max_rowid_nonneg (articles db)). lia. Qed.

Lemma url_exists_false_filter (db : Store) (u : string) :
  url_exists db u = false ->
  List.filter (fun r => String.eqb (url r) u) (articles db) = [].
Proof.
  unfold url_exists. induction (articles db) as [|x rows IH]; simpl; [done|].
  intros H. apply orb_false_iff in H as [Hx Hrest].
  rewrite Hx. auto.
Qed.

Lemma find_id_fresh (rows : list Article) (rid : Z) (r : Article) :
  (forall x, In x rows -> (id x <? rid)%Z = true) ->
  id r = rid ->
  List.find (fun x => Z.eqb (id x) rid) (rows ++ [r]) = Some r.
Proof.
  intros Hfresh Hid. induction rows as [|x rows IH]; simpl.
  - rewrite Hid, Z.eqb_refl. done.
  - assert (Hx : (id x <? rid)%Z = true) by (apply Hfresh; simpl; auto).
    apply Z.ltb_lt in Hx.
    destruct (Z.eqb_spec (id x) rid); [lia|].
    apply IH. intros y Hy. apply Hfresh. simpl. auto.
Qed.

Lemma url_exists_app (db : Store) (extra : list Article) (fts : list FtsRow)
    (s : Z) (u : string) :
  url_exists db u = true ->
  url_exists {| articles := articles db ++ extra; articles_fts := fts;
                sequence := s |} u = true.
Proof.
  unfold url_exists. simpl. rewrite existsb_app. intros ->. done.
Qed.

(** A write never removes a URL from the store. *)
Lemma add_article_keeps_urls (now : string) (a : ArticleArgs) (db : Store)
    (u : string) :
  url_exists db u = true -> url_exists (snd (add_article now a db)) u = true.
Proof.
  intros H. unfold add_article.
  destruct (url_exists db (a_url a)); simpl; [done|].
  by apply url_exists_app.
Qed.

(** After a write its URL is in the store, whichever way the write went. *)
Lemma add_article_url_present (now : string) (a : ArticleArgs) (db : Store) :
  url_exists (snd (add_article now a db)) (a_url a) = true.
Proof.
  unfold add_article.
  destruct (url_exists db (a_url a)) eqn:E; simpl; [done|].
  unfold url_exists. simpl. rewrite existsb_app. simpl.
  rewrite String.eqb_refl. by rewrite orb_true_r.
Qed.

Lemma url_exists_false_not_in (db : Store) (u : string) :
  url_exists db u = false -> ~ In u (map url (articles db)).
Proof.
  unfold url_exists. intros H Hin.
  apply in_map_iff in Hin as (r & Hr & Hin).
  assert (Ht : existsb (fun r => String.eqb (url r) u) (articles db) = true).
  { apply existsb_exists. exists r. split; [done|]. by apply String.eqb_eq. }
  congruence.
Qed.

(** A write keeps the URLs of the table distinct. *)
Lemma add_article_unique (now : string) (a : ArticleArgs) (db : Store) :
  unique_urls db -> unique_urls (snd (add_article now a db)).
Proof.
  unfold unique_urls, add_article. intros Hnd.
  destruct (url_exists db (a_url a)) eqn:E; simpl; [done|].
  rewrite map_app. simpl. apply NoDup_ListNoDup in Hnd.
  apply NoDup_ListNoDup, NoDup_app.
  split; [done|]. split.
  - intros x Hx Hin. apply list_elem_of_In in Hx.
    apply list_elem_of_In in Hin. simpl in Hin. destruct Hin as [<-|[]].
    by apply (url_exists_false_not_in db (a_url a)).
  - apply NoDup_singleton.
Qed.


End StoreFacts.

(** ** The retry policy *)

Ltac run_m :=
  unfold bind, ret, emit, get_log, get_db, put_db, http_get, sleep,
    sleep_uniform in *; simpl in *.

(** Against a server that always answers 429 the loop runs all its
    iterations, sleeping after each but the last. *)
Lemma retry_loop_all_429 (env : Env) (rq : Request) (max_retries : Z) :
  always_429 env ->
  forall (n : nat) (attempt : Z) (w : World),
    (attempt + Z.of_nat n = max_retries)%Z ->
    retry_loop env rq max_retries n attempt w
    = (None, {| w_db := w_db w;
                w_log := w_log w ++ backoff_schedule rq n attempt |}).
Proof.
  intros H429 n. induction n as [|n IH]; intros attempt w Hsum.
  - simpl. unfold ret. rewrite app_nil_r. by destruct w.
  - cbn [retry_loop]. run_m.
    destruct (H429 (w_log w) rq) as (resp & -> & Hst). rewrite Hst. simpl.
    destruct n as [|n].
    + assert (E : (attempt <? max_retries - 1)%Z = false)
        by (apply Z.ltb_ge; lia).
      rewrite E. reflexivity.
    + assert (E : (attempt <? max_retries - 1)%Z = true)
        by (apply Z.ltb_lt; lia).
      rewrite E. rewrite IH by lia. cbn [w_db w_log].
      f_equal. rewrite <- !app_assoc. reflexivity.
Qed.

(** The schedule for any bound: [max_retries] requests, result [None]. *)
Lemma fetch_with_retry_all_429 (env : Env) (u : string)
    (headers : list (string * string)) (timeout max_retries : Z) (w : World) :
  always_429 env ->
  (0 <= max_retries)%Z ->
  let rq := {| req_url := u; req_headers := headers; req_timeout := timeout |} in
  fetch_with_retry env u headers timeout max_retries w
  = (None, {| w_db := w_db w;
              w_log := w_log w
                       ++ backoff_schedule rq (Z.to_nat max_retries) 0 |}).
Proof.
  intros H429 Hpos rq. unfold fetch_with_retry.
  apply retry_loop_all_429; [done|lia].
Qed.

Lemma gets_of_backoff (rq : Request) (n : nat) (attempt : Z) :
  gets_of (backoff_schedule rq n attempt) = repeat rq n.
Proof.
  revert attempt. induction n as [|n IH]; intros attempt; [done|].
  destruct n as [|n]; [done|].
  change (gets_of (backoff_schedule rq (S (S n)) attempt))
    with (rq :: gets_of (backoff_schedule rq (S n) (attempt + 1))).
  by rewrite IH.
Qed.

(** The schedule against a server that answers HTTP 429 on every
    attempt: [fetch_with_retry] with the default bound sends exactly three
    requests, sleeps 2 seconds after the first and 4 seconds after the
    second (2^(attempt+1)), does not sleep after the third, and returns
    [None]. *)
Lemma fetch_with_retry_429_default (env : Env) (u : string)
    (headers : list (string * string)) (timeout : Z) (w : World) :
  always_429 env ->
  let rq := {| req_url := u; req_headers := headers; req_timeout := timeout |} in
  fetch_with_retry env u headers timeout default_max_retries w
  = (None, {| w_db := w_db w;
              w_log := w_log w
                       ++ [EGet rq; ESleep 2; EGet rq; ESleep 4; EGet rq] |}).
Proof.
  intros H429 rq.
  rewrite fetch_with_retry_all_429 by (done || (unfold default_max_retries; lia)).
  reflexivity.
Qed.

Lemma env_429_always : always_429 env_429.
Proof. intros tr rq. eexists. split; reflexivity. Qed.

(** C3, evaluated. The docstring of [fetch_with_retry] and the comment on
    its backoff line both promise delays of 2s, 4s, 8s. Against the
    server that answers 429 on every attempt, with the default bound of
    three, the call sends three requests and returns [None], and the
    sleeps it takes are 2s and 4s only: the guard on the backoff skips the
    sleep after the last attempt, so the 8s delay is never taken. *)
Theorem fetch_with_retry_429_never_sleeps_8 :
  always_429 env_429 /\
  let res := fetch_with_retry env_429 example_url [] default_timeout
               default_max_retries fresh_world in
  fst res = None /\
  w_log (snd res) = [EGet (example_request []); ESleep 2;
                     EGet (example_request []); ESleep 4;
                     EGet (example_request [])] /\
  List.length (gets_of (w_log (snd res))) = 3%nat /\
  sleeps_of (w_log (snd res)) = [2; 4]%Z /\
  sleeps_of (w_log (snd res)) <> [2; 4; 8]%Z.
Proof.
  split; [exact env_429_always|].
  cbv zeta.
  rewrite (fetch_with_retry_429_default env_429 example_url [] default_timeout
             fresh_world env_429_always).
  vm_compute. repeat split. discriminate.
Qed.

(** ** Deduplication *)

Lemma dedup_from_urls_unseen (items : list Item) :
  forall (seen : gset string) (it : Item),
    In it (dedup_from seen items) -> (i_url it ∉ seen) /\ In it items.
Proof.
  induction items as [|x items IH]; intros seen it; simpl; [tauto|].
  destruct (decide (i_url x ∈ seen)) as [Hin|Hout].
  - intros H. destruct (IH _ _ H). auto.
  - intros [<-|H]; [auto|].
    destruct (IH _ _ H) as [Hu Hi]. split; [set_solver|auto].
Qed.

Lemma dedup_from_nodup (items : list Item) :
  forall seen : gset string, List.NoDup (map i_url (dedup_from seen items)).
Proof.
  induction items as [|x items IH]; intros seen; simpl; [constructor|].
  destruct (decide (i_url x ∈ seen)); [apply IH|].
  simpl. constructor; [|apply IH].
  intros Hin. apply in_map_iff in Hin as (y & Hy & Hin).
  apply dedup_from_urls_unseen in Hin as [Hu _]. set_solver.
Qed.

Lemma dedup_from_sublist (items : list Item) :
  forall seen : gset string, sublist (dedup_from seen items) items.
Proof.
  induction items as [|x items IH]; intros seen; simpl; [constructor|].
  destruct (decide (i_url x ∈ seen)).
  - apply sublist_cons. apply IH.
  - apply sublist_skip. apply IH.
Qed.

Lemma find_seen_none (items : list Item) :
  forall (seen : gset string) (u : string),
    u ∈ seen -> List.find (has_url u) (dedup_from seen items) = None.
Proof.
  intros seen u Hin.
  destruct (List.find (has_url u) (dedup_from seen items)) as [it|] eqn:E; [|done].
  apply find_some in E as [Hit Hu]. unfold has_url in Hu.
  apply String.eqb_eq in Hu. subst u.
  apply dedup_from_urls_unseen in Hit as [Hout _]. contradiction.
Qed.

Lemma dedup_from_find (items : list Item) :
  forall (seen : gset string) (u : string),
    u ∉ seen ->
    List.find (has_url u) (dedup_from seen items) = List.find (has_url u) items.
Proof.
  induction items as [|x items IH]; intros seen u Hout; simpl; [done|].
  destruct (decide (i_url x ∈ seen)) as [Hin|Hx]; simpl;
    destruct (has_url u x) eqn:E; try done.
  - unfold has_url in E. apply String.eqb_eq in E. congruence.
  - by apply IH.
  - apply IH. unfold has_url in E. apply String.eqb_neq in E. set_solver.
Qed.

Lemma nodup_filter_at_most_one (l : list Item) (u : string) :
  List.NoDup (map i_url l) ->
  (List.length (List.filter (has_url u) l) <= 1)%nat.
Proof.
  induction l as [|x l IH]; simpl; [lia|].
  intros Hnd. inversion Hnd as [|? ? Hx Hl]; subst.
  destruct (has_url u x) eqn:E; [|by apply IH].
  unfold has_url in E. apply String.eqb_eq in E. subst u.
  assert (List.filter (has_url (i_url x)) l = []) as ->; [|simpl; lia].
  destruct (List.filter (has_url (i_url x)) l) as [|y ys] eqn:E; [done|].
  exfalso. apply Hx.
  assert (Hy : In y (List.filter (has_url (i_url x)) l)) by (rewrite E; simpl; auto).
  apply filter_In in Hy as [Hy Hu]. apply String.eqb_eq in Hu.
  apply in_map_iff. eauto.
Qed.

(** C7. The deduplication step keeps, for every URL, exactly the first
    candidate that carries it, in the order of discovery: the result has
    no URL twice, it is the collected list with some entries left out (so
    relative order is kept), and looking a URL up in the result gives the
    same candidate as looking it up in the collected list, namely the
    earliest. A URL found in two feeds therefore yields exactly one
    candidate. *)
Theorem dedup_keeps_first_occurrence (all_items : list Item) :
  List.NoDup (map i_url (dedup all_items)) /\
  sublist (dedup all_items) all_items /\
  (forall u, List.find (has_url u) (dedup all_items)
             = List.find (has_url u) all_items) /\
  (forall feed1 feed2 x y,
     all_items = feed1 ++ feed2 ->
     In x feed1 -> In y feed2 -> i_url x = i_url y ->
     List.length (List.filter (has_url (i_url x)) (dedup all_items)) = 1%nat).
Proof.
  unfold dedup. split; [apply dedup_from_nodup|].
  split; [apply dedup_from_sublist|].
  split; [intros u; apply dedup_from_find; set_solver|].
  intros feed1 feed2 x y -> Hx Hy Hxy.
  pose proof (nodup_filter_at_most_one (dedup_from ∅ (feed1 ++ feed2)) (i_url x)
                (dedup_from_nodup _ _)) as Hle.
  destruct (List.find (has_url (i_url x)) (feed1 ++ feed2)) as [z|] eqn:E.
  - rewrite <- (dedup_from_find _ ∅) in E by set_solver.
    apply find_some in E as [Hz Hu].
    assert (Hin : In z (List.filter (has_url (i_url x)) (dedup_from ∅ (feed1 ++ feed2))))
      by (apply filter_In; auto).
    destruct (List.filter (has_url (i_url x)) (dedup_from ∅ (feed1 ++ feed2)));
      simpl in *; [tauto|lia].
  - assert (Hf : has_url (i_url x) x = false)
      by (apply (find_none _ _ E x), in_or_app; auto).
    unfold has_url in Hf. rewrite String.eqb_refl in Hf. discriminate.
Qed.

(** ** Enrichment *)

(** Each assignment writes one field, and only when it is empty. *)
Ltac fill_cases f :=
  unfold f;
  repeat match goal with
         | |- context [match ?o with Some _ => _ | None => _ end] => destruct o
         | |- context [if ?c then _ else _] => destruct c eqn:?
         end; simpl; auto.

Lemma fill_preview_image_url_frame (og : OgData) (it : Item) :
  let it' := fill_preview_image_url og it in
  i_url it' = i_url it /\ i_headline it' = i_headline it /\
  i_description it' = i_description it /\ i_byline it' = i_byline it /\
  i_publish_date it' = i_publish_date it /\ i_tags it' = i_tags it /\
  (truthy (i_preview_image_url it) = true ->
     i_preview_image_url it' = i_preview_image_url it).
Proof.
  repeat split; try (fill_cases fill_preview_image_url).
  intros H. fill_cases fill_preview_image_url.
  rewrite H in *. discriminate.
Qed.

Lemma fill_description_frame (og : OgData) (it : Item) :
  let it' := fill_description og it in
  i_url it' = i_url it /\ i_headline it' = i_headline it /\
  i_preview_image_url it' = i_preview_image_url it /\
  i_byline it' = i_byline it /\
  i_publish_date it' = i_publish_date it /\ i_tags it' = i_tags it /\
  (truthy (i_description it) = true -> i_description it' = i_description it).
Proof.
  repeat split; try (fill_cases fill_description).
  intros H. fill_cases fill_description.
  rewrite H in *. discriminate.
Qed.

Lemma fill_byline_frame (og : OgData) (it : Item) :
  let it' := fill_byline og it in
  i_url it' = i_url it /\ i_headline it' = i_headline it /\
  i_preview_image_url it' = i_preview_image_url it /\
  i_description it' = i_description it /\
  i_publish_date it' = i_publish_date it /\ i_tags it' = i_tags it /\
  (truthy (i_byline it) = true -> i_byline it' = i_byline it).
Proof.
  repeat split; try (fill_cases fill_byline).
  intros H. fill_cases fill_byline.
  rewrite H in *. discriminate.
Qed.

Lemma fill_publish_date_frame (og : OgData) (it : Item) :
  let it' := fill_publish_date og it in
  i_url it' = i_url it /\ i_headline it' = i_headline it /\
  i_preview_image_url it' = i_preview_image_url it /\
  i_description it' = i_description it /\
  i_byline it' = i_byline it /\ i_tags it' = i_tags it /\
  (truthy_opt (i_publish_date it) = true ->
     i_publish_date it' = i_publish_date it).
Proof.
  repeat split; try (fill_cases fill_publish_date).
  intros H. fill_cases fill_publish_date.
  rewrite H in *. discriminate.
Qed.

Lemma fill_headline_frame (og : OgData) (it : Item) :
  let it' := fill_headline og it in
  i_url it' = i_url it /\ i_byline it' = i_byline it /\
  i_preview_image_url it' = i_preview_image_url it /\
  i_description it' = i_description it /\
  i_publish_date it' = i_publish_date it /\ i_tags it' = i_tags it /\
  (truthy (i_headline it) = true -> i_headline it' = i_headline it).
Proof.
  repeat split; try (fill_cases fill_headline).
  intros H. fill_cases fill_headline.
  rewrite H, andb_false_r in *. discriminate.
Qed.

Lemma apply_og_frame (og : OgData) (item : Item) :
  (truthy (i_preview_image_url item) = true ->
     i_preview_image_url (apply_og og item) = i_preview_image_url item) /\
  (truthy (i_description item) = true ->
     i_description (apply_og og item) = i_description item) /\
  (truthy (i_byline item) = true ->
     i_byline (apply_og og item) = i_byline item) /\
  (truthy_opt (i_publish_date item) = true ->
     i_publish_date (apply_og og item) = i_publish_date item) /\
  (truthy (i_headline item) = true ->
     i_headline (apply_og og item) = i_headline item) /\
  i_url (apply_og og item) = i_url item /\
  i_tags (apply_og og item) = i_tags item.
Proof.
  unfold apply_og.
  set (i1 := fill_preview_image_url og item).
  set (i2 := fill_description og i1).
  set (i3 := fill_byline og i2).
  set (i4 := fill_publish_date og i3).
  destruct (fill_preview_image_url_frame og item) as (A1 & A2 & A3 & A4 & A5 & A6 & A7).
  destruct (fill_description_frame og i1) as (B1 & B2 & B3 & B4 & B5 & B6 & B7).
  destruct (fill_byline_frame og i2) as (C1 & C2 & C3 & C4 & C5 & C6 & C7).
  destruct (fill_publish_date_frame og i3) as (D1 & D2 & D3 & D4 & D5 & D6 & D7).
  destruct (fill_headline_frame og i4) as (E1 & E2 & E3 & E4 & E5 & E6 & E7).
  fold i1 in A1, A2, A3, A4, A5, A6, A7.
  fold i2 in B1, B2, B3, B4, B5, B6, B7.
  fold i3 in C1, C2, C3, C4, C5, C6, C7.
  fold i4 in D1, D2, D3, D4, D5, D6, D7.
  repeat split; intros; try congruence.
  - rewrite E3, D3, C3, B3. auto.
  - rewrite E4, D4, C4, B7 by congruence. congruence.
  - rewrite E2, D5, C7 by congruence. congruence.
  - rewrite E5, D7 by congruence. congruence.
  - rewrite E7 by congruence. congruence.
Qed.

(** Enrichment never touches the URL of a candidate. *)
Lemma enrich_item_url (env : Env) (enrich : bool) (item : Item) (w : World) :
  i_url (fst (enrich_item env enrich item w)) = i_url item.
Proof.
  unfold enrich_item, fetch_og_metadata.
  destruct (enrich && _); run_m; [|done].
  destruct (http env _ _); simpl; apply apply_og_frame.
Qed.

(** C8. Enrichment only fills fields that are still empty: a preview
    image URL, description, byline, publish date or headline that is
    non-empty before the enrichment step is the same after it, whatever
    the fetched page says. The URL and the tags are never touched. *)
Theorem enrichment_fills_only_empty_fields (env : Env) (enrich : bool)
    (item : Item) (w : World) :
  let item' := fst (enrich_item env enrich item w) in
  (truthy (i_preview_image_url item) = true ->
     i_preview_image_url item' = i_preview_image_url item) /\
  (truthy (i_description item) = true ->
     i_description item' = i_description item) /\
  (truthy (i_byline item) = true -> i_byline item' = i_byline item) /\
  (truthy_opt (i_publish_date item) = true ->
     i_publish_date item' = i_publish_date item) /\
  (truthy (i_headline item) = true -> i_headline item' = i_headline item) /\
  i_url item' = i_url item /\
  i_tags item' = i_tags item.
Proof.
  unfold enrich_item, fetch_og_metadata.
  destruct (enrich && _); run_m; [|tauto].
  destruct (http env _ _); simpl; apply apply_og_frame.
Qed.

(** ** The store is only written by [add_article] *)

Lemma bind_run {A B} (m : M A) (f : A -> M B) (w : World) :
  bind m f w = f (fst (m w)) (snd (m w)).
Proof. unfold bind. by destruct (m w). Qed.

Lemma keeps_db_ret {A} (a : A) : keeps_db (ret a).
Proof. by intros w. Qed.

Lemma keeps_db_bind {A B} (m : M A) (f : A -> M B) :
  keeps_db m -> (forall a, keeps_db (f a)) -> keeps_db (bind m f).
Proof.
  intros Hm Hf w. rewrite bind_run. by rewrite Hf, Hm.
Qed.

Lemma keeps_db_emit (e : Event) : keeps_db (emit e).
Proof. by intros w. Qed.

Lemma keeps_db_get_log : keeps_db get_log.
Proof. by intros w. Qed.

Lemma keeps_db_get_db : keeps_db get_db.
Proof. by intros w. Qed.

Create HintDb keeps.

#[local] Hint Resolve keeps_db_ret keeps_db_emit keeps_db_get_log
  keeps_db_get_db : keeps.

Ltac keeps :=
  repeat first
    [ progress (auto with keeps)
    | apply keeps_db_bind; [|intros]
    | match goal with
      | |- keeps_db (match ?x with _ => _ end) => destruct x
      end ].

Lemma keeps_db_http_get (env : Env) (rq : Request) : keeps_db (http_get env rq).
Proof. unfold http_get. keeps. Qed.

#[local] Hint Resolve keeps_db_http_get : keeps.

Lemma keeps_db_retry_loop (env : Env) (rq : Request) (max_retries : Z)
    (n : nat) :
  forall attempt, keeps_db (retry_loop env rq max_retries n attempt).
Proof.
  induction n as [|n IH]; intros attempt; simpl; [keeps|].
  apply keeps_db_bind; [keeps|]. intros out. unfold sleep.
  destruct out as [resp|]; keeps.
Qed.

Lemma keeps_db_fetch_with_retry (env : Env) (u : string)
    (headers : list (string * string)) (timeout max_retries : Z) :
  keeps_db (fetch_with_retry env u headers timeout max_retries).
Proof. unfold fetch_with_retry. apply keeps_db_retry_loop. Qed.

#[local] Hint Resolve keeps_db_retry_loop keeps_db_fetch_with_retry : keeps.

Lemma keeps_db_fetch_og_metadata (env : Env) (u : string) (timeout : Z) :
  keeps_db (fetch_og_metadata env u timeout).
Proof. unfold fetch_og_metadata. keeps. Qed.

Lemma keeps_db_try_playwright (env : Env) (u : string) (timeout : Z) :
  keeps_db (_try_playwright env u timeout).
Proof. unfold _try_playwright. keeps. Qed.

Lemma keeps_db_fetch_method (env : Env) (u : string)
    (headers : list (string * string)) (timeout : Z) :
  keeps_db (fetch_method env u headers timeout).
Proof. unfold fetch_method. keeps. Qed.

Lemma keeps_db_or_else (m next : M (option string)) :
  keeps_db m -> keeps_db next -> keeps_db (or_else m next).
Proof. intros Hm Hn. unfold or_else. keeps. Qed.

#[local] Hint Resolve keeps_db_fetch_og_metadata keeps_db_try_playwright
  keeps_db_fetch_method keeps_db_or_else : keeps.

Lemma keeps_db_bypass (env : Env) (u : string) (timeout : Z) (prefer : bool) :
  keeps_db (fetch_article_text_via_bypass env u timeout prefer).
Proof.
  unfold fetch_article_text_via_bypass.
  destruct (negb (bs4_available env)); [keeps|].
  destruct prefer; simpl; repeat (apply keeps_db_or_else); keeps.
Qed.

Lemma keeps_db_resolve (env : Env) (u : string) (timeout : Z) :
  keeps_db (resolve_redirect_url env u timeout).
Proof. unfold resolve_redirect_url. keeps. Qed.

Lemma keeps_db_download_image (env : Env) (u dir s : string) :
  keeps_db (download_image env u dir s).
Proof. unfold download_image. keeps. Qed.

#[local] Hint Resolve keeps_db_bypass keeps_db_resolve
  keeps_db_download_image : keeps.

Lemma keeps_db_enrich_item (env : Env) (enrich : bool) (item : Item) :
  keeps_db (enrich_item env enrich item).
Proof. unfold enrich_item, sleep_uniform. keeps. Qed.

Lemma keeps_db_fetch_full_text (env : Env) (source : Source) (item : Item) :
  keeps_db (fetch_full_text env source item).
Proof. unfold fetch_full_text, sleep_uniform. keeps. Qed.

Lemma keeps_db_fetch_feed (env : Env) (u : string) : keeps_db (fetch_feed env u).
Proof. unfold fetch_feed. keeps. Qed.

#[local] Hint Resolve keeps_db_enrich_item keeps_db_fetch_full_text
  keeps_db_fetch_feed : keeps.

Lemma keeps_db_collect_items (env : Env) (urls : list string) :
  keeps_db (collect_items env urls).
Proof. induction urls as [|u urls IH]; simpl; keeps. Qed.

(** ** One pass, then another *)

Lemma collect_items_stable (env : Env) (urls : list string) :
  stable_feeds env ->
  forall w w', fst (collect_items env urls w) = fst (collect_items env urls w').
Proof.
  intros Hst. induction urls as [|u urls IH]; intros w w';
    cbn [collect_items]; [done|].
  rewrite !bind_run. cbn [ret fst].
  f_equal; [|apply IH].
  unfold fetch_feed. rewrite !bind_run. cbn [ret fst]. apply Hst.
Qed.

Lemma resolve_stable (env : Env) (u : string) :
  stable_redirects env ->
  forall w w', fst (resolve_redirect_url env u 10 w)
               = fst (resolve_redirect_url env u 10 w').
Proof.
  intros Hst w w'. unfold resolve_redirect_url.
  destruct (contains "news.google.com" u) eqn:E; [|done].
  run_m. specialize (Hst (w_log w) (w_log w') u E).
  unfold redirect_request, landing in Hst.
  destruct (http env (w_log w) _), (http env (w_log w') _); simpl; auto.
Qed.

Lemma resolved_item_url (r : string) (item : Item) :
  i_url (if negb (String.eqb r (i_url item)) then set_url r item else item) = r.
Proof.
  destruct (String.eqb_spec r (i_url item)); simpl; congruence.
Qed.

(** What one iteration of the loop does to the store: nothing when the
    resolved URL is already there or the image download raises, one
    [add_article] under the resolved URL otherwise. *)
Lemma process_item_outcome (env : Env) (source : Source) (dir : string)
    (enrich : bool) (item : Item) (w : World) :
  let u := fst (resolve_redirect_url env (i_url item) 10 w) in
  let res := process_item env source dir enrich item w in
  if Database.url_exists (w_db w) u
  then fst res = Ok 0%Z /\ w_db (snd res) = w_db w
  else (fst res = Exn /\ w_db (snd res) = w_db w) \/
       (exists now a,
          fst res = Ok 1%Z /\
          Database.a_url a = u /\
          w_db (snd res) = snd (Database.add_article now a (w_db w))).
Proof.
  intros u res. subst res. unfold process_item.
  rewrite bind_run. fold u.
  set (w1 := snd (resolve_redirect_url env (i_url item) 10 w)).
  assert (Hdb1 : w_db w1 = w_db w) by apply keeps_db_resolve.
  set (item1 := if negb (String.eqb u (i_url item)) then set_url u item else item).
  assert (Hu1 : i_url item1 = u) by apply resolved_item_url.
  rewrite bind_run. cbn [get_db fst snd]. rewrite Hu1, Hdb1.
  destruct (Database.url_exists (w_db w) u) eqn:Ex; [by rewrite <- Hdb1|].
  rewrite bind_run.
  set (item2 := fst (enrich_item env enrich item1 w1)).
  set (w2 := snd (enrich_item env enrich item1 w1)).
  assert (Hdb2 : w_db w2 = w_db w)
    by (unfold w2; rewrite keeps_db_enrich_item; done).
  assert (Hu2 : i_url item2 = u)
    by (unfold item2; rewrite enrich_item_url; exact Hu1).
  rewrite bind_run.
  set (txt := fst (fetch_full_text env source item2 w2)).
  set (w3 := snd (fetch_full_text env source item2 w2)).
  assert (Hdb3 : w_db w3 = w_db w)
    by (unfold w3; rewrite keeps_db_fetch_full_text; done).
  rewrite bind_run.
  set (dl := if truthy (i_preview_image_url item2)
             then download_image env (i_preview_image_url item2) dir (slug source)
             else ret (Ok None)).
  assert (Hdb4 : w_db (snd (dl w3)) = w_db w).
  { unfold dl. destruct (truthy _); [rewrite keeps_db_download_image|]; done. }
  destruct (fst (dl w3)) as [img|] eqn:Edl; [right|left; by split].
  unfold db_add_article. run_m. rewrite Hdb4.
  exists (clock env (w_log (snd (dl w3)))), (article_args source item2 txt img).
  assert (Efresh : Database.url_exists (w_db w)
            (Database.a_url (article_args source item2 txt img)) = false)
    by (cbn [article_args Database.a_url]; congruence).
  unfold Database.add_article. rewrite Efresh. cbn [fst snd].
  pose proof (next_rowid_pos (w_db w)) as Hpos.
  destruct (Z.eqb_spec (Database.next_rowid (w_db w)) 0) as [E0|_]; [lia|].
  done.
Qed.

(** A candidate whose resolved URL is stored is skipped entirely: after
    the redirect resolution nothing else happens. *)
Lemma process_item_skip (env : Env) (source : Source) (dir : string)
    (enrich : bool) (item : Item) (w : World) :
  Database.url_exists (w_db w) (fst (resolve_redirect_url env (i_url item) 10 w))
  = true ->
  process_item env source dir enrich item w
  = (Ok 0%Z, snd (resolve_redirect_url env (i_url item) 10 w)).
Proof.
  intros Hex. unfold process_item. rewrite bind_run.
  rewrite bind_run. cbn [get_db fst snd].
  rewrite resolved_item_url, keeps_db_resolve, Hex. reflexivity.
Qed.

(** An iteration that returns leaves the resolved URL in the store. *)
Lemma process_item_present (env : Env) (source : Source) (dir : string)
    (enrich : bool) (item : Item) (w : World) (n : Z) :
  fst (process_item env source dir enrich item w) = Ok n ->
  Database.url_exists
    (w_db (snd (process_item env source dir enrich item w)))
    (fst (resolve_redirect_url env (i_url item) 10 w)) = true.
Proof.
  intros Hok.
  pose proof (process_item_outcome env source dir enrich item w) as H.
  cbv zeta in H.
  destruct (Database.url_exists (w_db w)
              (fst (resolve_redirect_url env (i_url item) 10 w))) eqn:Ex.
  - destruct H as [_ ->]. exact Ex.
  - destruct H as [[Hexn _]|(now & a & _ & <- & ->)]; [congruence|].
    apply add_article_url_present.
Qed.

(** An iteration that raises leaves the store as it was. *)
Lemma process_item_raises (env : Env) (source : Source) (dir : string)
    (enrich : bool) (item : Item) (w : World) :
  fst (process_item env source dir enrich item w) = Exn ->
  w_db (snd (process_item env source dir enrich item w)) = w_db w.
Proof.
  intros Hexn.
  pose proof (process_item_outcome env source dir enrich item w) as H.
  cbv zeta in H.
  destruct (Database.url_exists (w_db w)
              (fst (resolve_redirect_url env (i_url item) 10 w))).
  - destruct H as [H _]. congruence.
  - destruct H as [[_ H]|(now & a & H & _)]; [exact H|congruence].
Qed.

Lemma process_item_grows (env : Env) (source : Source) (dir : string)
    (enrich : bool) (item : Item) (w : World) (v : string) :
  Database.url_exists (w_db w) v = true ->
  Database.url_exists
    (w_db (snd (process_item env source dir enrich item w))) v = true.
Proof.
  intros Hv.
  pose proof (process_item_outcome env source dir enrich item w) as H.
  cbv zeta in H.
  destruct (Database.url_exists (w_db w)
              (fst (resolve_redirect_url env (i_url item) 10 w))).
  - destruct H as [_ ->]. exact Hv.
  - destruct H as [[_ ->]|(now & a & _ & _ & ->)]; [exact Hv|].
    by apply add_article_keeps_urls.
Qed.

(** The loop, one iteration unfolded. *)
Lemma process_items_cons (env : Env) (source : Source) (dir : string)
    (enrich : bool) (x : Item) (items : list Item) (n : Z) (w : World) :
  process_items env source dir enrich (x :: items) n w
  = match fst (process_item env source dir enrich x w) with
    | Exn => (Exn, snd (process_item env source dir enrich x w))
    | Ok added =>
      process_items env source dir enrich items (n + added)
        (snd (process_item env source dir enrich x w))
    end.
Proof.
  cbn [process_items]. rewrite bind_run.
  by destruct (fst (process_item env source dir enrich x w)).
Qed.

Lemma process_items_grows (env : Env) (source : Source) (dir : string)
    (enrich : bool) (items : list Item) :
  forall (n : Z) (w : World) (v : string),
    Database.url_exists (w_db w) v = true ->
    Database.url_exists
      (w_db (snd (process_items env source dir enrich items n w))) v = true.
Proof.
  induction items as [|x items IH]; intros n w v Hv; [exact Hv|].
  rewrite process_items_cons.
  pose proof (process_item_grows env source dir enrich x w v Hv) as Hg.
  destruct (fst (process_item env source dir enrich x w)); [by apply IH|exact Hg].
Qed.

(** After a loop that returns, every candidate's resolved URL is in the
    store. *)
Lemma process_items_all_present (env : Env) (source : Source) (dir : string)
    (enrich : bool) (items : list Item) :
  stable_redirects env ->
  forall (n m : Z) (w w' : World) (item : Item),
    fst (process_items env source dir enrich items n w) = Ok m ->
    In item items ->
    Database.url_exists
      (w_db (snd (process_items env source dir enrich items n w)))
      (fst (resolve_redirect_url env (i_url item) 10 w')) = true.
Proof.
  intros Hst. induction items as [|x items IH]; intros n m w w' item Hok Hin;
    [destruct Hin|].
  rewrite process_items_cons in Hok |- *.
  destruct (fst (process_item env source dir enrich x w)) as [added|] eqn:Ex;
    [|discriminate Hok].
  destruct Hin as [->|Hin].
  - apply process_items_grows.
    rewrite (resolve_stable env (i_url item) Hst w' w).
    by eapply process_item_present.
  - by eapply IH.
Qed.

(** Over a store that holds every candidate's resolved URL, the loop
    counts nothing and writes nothing, and it returns. *)
Lemma process_items_all_skipped (env : Env) (source : Source) (dir : string)
    (enrich : bool) (items : list Item) :
  stable_redirects env ->
  forall (n : Z) (w : World),
    (forall item w', In item items ->
       Database.url_exists (w_db w)
         (fst (resolve_redirect_url env (i_url item) 10 w')) = true) ->
    fst (process_items env source dir enrich items n w) = Ok n /\
    w_db (snd (process_items env source dir enrich items n w)) = w_db w.
Proof.
  intros Hst. induction items as [|x items IH]; intros n w Hall; [done|].
  rewrite process_items_cons.
  rewrite process_item_skip by (apply Hall; simpl; auto).
  cbn [fst snd].
  destruct (IH (n + 0)%Z (snd (resolve_redirect_url env (i_url x) 10 w)))
    as [Hn Hdb].
  { intros item w' Hin. rewrite keeps_db_resolve. apply Hall. simpl. auto. }
  rewrite Hn, Hdb, keeps_db_resolve. split; [f_equal; lia|done].
Qed.

Lemma process_item_unique (env : Env) (source : Source) (dir : string)
    (enrich : bool) (item : Item) (w : World) :
  Database.unique_urls (w_db w) ->
  Database.unique_urls (w_db (snd (process_item env source dir enrich item w))).
Proof.
  intros Hu.
  pose proof (process_item_outcome env source dir enrich item w) as H.
  cbv zeta in H.
  destruct (Database.url_exists (w_db w)
              (fst (resolve_redirect_url env (i_url item) 10 w))).
  - destruct H as [_ ->]. exact Hu.
  - destruct H as [[_ ->]|(now & a & _ & _ & ->)]; [exact Hu|].
    by apply add_article_unique.
Qed.

Lemma process_items_unique (env : Env) (source : Source) (dir : string)
    (enrich : bool) (items : list Item) :
  forall (n : Z) (w : World),
    Database.unique_urls (w_db w) ->
    Database.unique_urls
      (w_db (snd (process_items env source dir enrich items n w))).
Proof.
  induction items as [|x items IH]; intros n w Hu; [exact Hu|].
  rewrite process_items_cons.
  pose proof (process_item_unique env source dir enrich x w Hu) as Hx.
  destruct (fst (process_item env source dir enrich x w)); [by apply IH|exact Hx].
Qed.

(** A pass, over any feed, keeps the stored URLs distinct. *)
Lemma process_source_unique (env : Env) (source : Source) (dir : string)
    (enrich : bool) (w : World) :
  Database.unique_urls (w_db w) ->
  Database.unique_urls (w_db (snd (process_source env source dir enrich w))).
Proof.
  intros Hu. unfold process_source.
  destruct (rss_urls source); [exact Hu|].
  rewrite bind_run. apply process_items_unique.
  by rewrite keeps_db_collect_items.
Qed.

Lemma process_source_loop (env : Env) (source : Source) (dir : string)
    (enrich : bool) (w : World) :
  rss_urls source <> [] ->
  process_source env source dir enrich w
  = process_items env source dir enrich
      (dedup (fst (collect_items env (rss_urls source) w))) 0
      (snd (collect_items env (rss_urls source) w)).
Proof.
  intros Hne. unfold process_source.
  destruct (rss_urls source) as [|f fs]; [done|].
  by rewrite bind_run.
Qed.


Lemma env_site_stable_feeds : stable_feeds env_site.
Proof. intros tr tr' u. reflexivity. Qed.

Lemma env_site_stable_redirects : stable_redirects env_site.
Proof. intros tr tr' u _. reflexivity. Qed.



(** ** URL resolution *)


(** ** The bypass chain *)

(** C4, evaluated. The source sets both [bypass_paywall] and
    [prefer_playwright], and a browser session would succeed; the pass
    nevertheless starts no browser session and stores the body of the
    direct fetch, while the retriever called with the flag returns the
    browser's body. *)
Lemma process_source_drops_prefer_playwright :
  prefer_playwright source_heavy = true /\
  bypass_paywall source_heavy = true /\
  (let w := snd (process_source env_site source_heavy "images" true fresh_world) in
   browsers_of (w_log w) = [] /\
   map Database.article_text (Database.articles (w_db w)) = [body_direct]) /\
  fst (fetch_article_text_via_bypass env_site example_url default_timeout true
         fresh_world) = Some body_browser.
Proof. vm_compute. repeat split. Qed.

Lemma process_items_blind_to_prefer_playwright (env : Env) (s : Source)
    (dir : string) (enrich : bool) (flag : bool) (items : list Item) :
  forall (n : Z) (w : World),
    process_items env s dir enrich items n w
    = process_items env (with_prefer_playwright flag s) dir enrich items n w.
Proof.
  induction items as [|x items IH]; intros n w; [done|].
  rewrite !process_items_cons.
  change (process_item env (with_prefer_playwright flag s) dir enrich x)
    with (process_item env s dir enrich x).
  destruct (fst (process_item env s dir enrich x w)); [apply IH|done].
Qed.

(** The flag is never read: two sources that differ only in it are
    processed alike. *)
Lemma process_source_blind_to_prefer_playwright (env : Env) (s : Source)
    (dir : string) (enrich : bool) (flag : bool) (w : World) :
  process_source env s dir enrich w
  = process_source env (with_prefer_playwright flag s) dir enrich w.
Proof.
  unfold process_source. cbn [with_prefer_playwright rss_urls].
  destruct (rss_urls s); [done|].
  rewrite !bind_run. apply process_items_blind_to_prefer_playwright.
Qed.

Lemma or_else_some (m next : M (option string)) (w w' : World) (t : string) :
  m w = (Some t, w') -> or_else m next w = (Some t, w').
Proof. intros H. unfold or_else. rewrite bind_run, H. reflexivity. Qed.

Lemma or_else_none (m next : M (option string)) (w w' : World) :
  m w = (None, w') -> or_else m next w = next w'.
Proof. intros H. unfold or_else. rewrite bind_run, H. reflexivity. Qed.

(** The length test, without the redundant truth test. *)
Lemma substantial_spec (t : option string) :
  substantial t
  = match t with
    | Some s => if (500 <? String.length s)%nat then Some s else None
    | None => None
    end.
Proof.
  destruct t as [s|]; [|done]. unfold substantial.
  destruct s; [done|]. reflexivity.
Qed.

Lemma substantial_inv (t : option string) (body : string) :
  substantial t = Some body -> t = Some body /\ (500 < String.length body)%nat.
Proof.
  rewrite substantial_spec. destruct t as [s|]; [|done].
  destruct (Nat.ltb_spec 500 (String.length s)); [|done].
  intros [= <-]. done.
Qed.

(** What a fetching method returns, from what [fetch_with_retry] gave. *)
Lemma fetch_method_spec (env : Env) (u : string)
    (headers : list (string * string)) (timeout : Z) (w : World) :
  fetch_method env u headers timeout w
  = (match fst (fetch_with_retry env u headers timeout default_max_retries w) with
     | Some r =>
       if (status_code r =? 200)%Z
       then substantial (extract_article_text env (text r))
       else None
     | None => None
     end,
     snd (fetch_with_retry env u headers timeout default_max_retries w)).
Proof.
  unfold fetch_method. rewrite bind_run.
  destruct (fst (fetch_with_retry env u headers timeout default_max_retries w))
    as [r|]; [|done].
  by destruct (status_code r =? 200)%Z.
Qed.

Lemma fetch_method_long (env : Env) (u : string)
    (headers : list (string * string)) (timeout : Z) (w w' : World)
    (body : string) :
  fetch_method env u headers timeout w = (Some body, w') ->
  (500 < String.length body)%nat.
Proof.
  rewrite fetch_method_spec. intros [= E _]. revert E.
  destruct (fst (fetch_with_retry _ _ _ _ _ _)) as [r|]; [|done].
  destruct (status_code r =? 200)%Z; [|done].
  intros E. by apply substantial_inv in E as [_ ?].
Qed.

Lemma try_playwright_long (env : Env) (u : string) (timeout : Z)
    (w w' : World) (body : string) :
  _try_playwright env u timeout w = (Some body, w') ->
  (500 < String.length body)%nat.
Proof.
  unfold _try_playwright. run_m.
  destruct (browser env (w_log w) u timeout) as [page|]; [|done].
  unfold ret. intros [= E _]. by apply substantial_inv in E as [_ ?].
Qed.

(** Every method of the chain gives a text of more than 500 characters
    or nothing. *)
Lemma strategies_long (env : Env) (u : string) (timeout : Z) (prefer : bool)
    (m : M (option string)) (w w' : World) (body : string) :
  In m (strategies env u timeout prefer) ->
  m w = (Some body, w') ->
  (500 < String.length body)%nat.
Proof.
  unfold strategies. cbn [In].
  intros [<-|[<-|[<-|[<-|[<-|[<-|[<-|[]]]]]]]];
    try apply fetch_method_long;
    destruct prefer; cbn [negb];
    try apply try_playwright_long; done.
Qed.

(** Methods tried in turn. *)
Lemma or_else_chain_stops (ms : list (M (option string))) :
  forall (pre post : list (M (option string))) (m : M (option string))
         (w w1 w2 : World) (body : string),
    ms = pre ++ m :: post ->
    all_fail pre w = Some w1 ->
    m w1 = (Some body, w2) ->
    fold_right or_else (ret None) ms w = (Some body, w2).
Proof.
  intros pre. revert ms.
  induction pre as [|p pre IH]; intros ms post m w w1 w2 body -> Hpre Hm.
  - injection Hpre as <-. cbn [app fold_right]. by apply or_else_some.
  - cbn [app fold_right]. cbn [all_fail] in Hpre.
    destruct (p w) as [[t|] w'] eqn:Ep; [done|].
    rewrite (or_else_none _ _ w w' Ep).
    by eapply IH.
Qed.

Lemma or_else_chain_fails (ms : list (M (option string))) :
  forall (w w' : World),
    all_fail ms w = Some w' ->
    fold_right or_else (ret None) ms w = (None, w').
Proof.
  induction ms as [|m ms IH]; intros w w' H.
  - by injection H as <-.
  - cbn [fold_right]. cbn [all_fail] in H.
    destruct (m w) as [[t|] w1] eqn:Em; [done|].
    rewrite (or_else_none _ _ w w1 Em). by apply IH.
Qed.

Lemma or_else_ext (m n n' : M (option string)) :
  (forall w, n w = n' w) -> forall w, or_else m n w = or_else m n' w.
Proof.
  intros H w. unfold or_else. rewrite !bind_run.
  destruct (fst (m w)); [done|apply H].
Qed.

Lemma or_else_ret_none (m : M (option string)) (w : World) :
  or_else m (ret None) w = m w.
Proof.
  unfold or_else. rewrite bind_run.
  destruct (m w) as [[t|] w']; reflexivity.
Qed.

(** The chain of [fetch_article_text_via_bypass] is its methods tried in
    turn. *)
Lemma bypass_is_chain (env : Env) (u : string) (timeout : Z) (prefer : bool)
    (w : World) :
  bs4_available env = true ->
  fetch_article_text_via_bypass env u timeout prefer w
  = fold_right or_else (ret None) (strategies env u timeout prefer) w.
Proof.
  intros Hbs. unfold fetch_article_text_via_bypass, strategies.
  rewrite Hbs. cbn [negb fold_right].
  do 6 (apply or_else_ext; intros ?).
  symmetry. apply or_else_ret_none.
Qed.

(** C5, as amended. The chain stops at the first method whose sanitized
    output, the HTML string, is longer than 500 characters. Whatever the
    place of a method in the chain, when every method before it gave
    nothing and it gives a text, that text is the result of the call and
    the world is the one this method left, so no later method sends
    anything; and the text is longer than 500 characters. A fetching
    method gives a text exactly when the response has status 200 and
    sanitizes to more than 500 characters, a browser session when the
    rendered page does. When every method gives nothing the result is
    [None]. In particular, once the browser-first step (if any) has
    failed, a direct fetch that returns status 200 and sanitizes to more
    than 500 characters ends the call. *)
Theorem bypass_stops_at_first_success (env : Env) (u : string) (timeout : Z)
    (prefer : bool) :
  bs4_available env = true ->
  (forall pre m post w w1 w2 body,
     strategies env u timeout prefer = pre ++ m :: post ->
     all_fail pre w = Some w1 ->
     m w1 = (Some body, w2) ->
     fetch_article_text_via_bypass env u timeout prefer w = (Some body, w2) /\
     (500 < String.length body)%nat) /\
  (forall w w',
     all_fail (strategies env u timeout prefer) w = Some w' ->
     fetch_article_text_via_bypass env u timeout prefer w = (None, w')) /\
  (forall v headers w,
     fetch_method env v headers timeout w
     = (match fst (fetch_with_retry env v headers timeout default_max_retries w)
        with
        | Some r =>
          if (status_code r =? 200)%Z
          then match extract_article_text env (text r) with
               | Some body =>
                 if (500 <? String.length body)%nat then Some body else None
               | None => None
               end
          else None
        | None => None
        end,
        snd (fetch_with_retry env v headers timeout default_max_retries w))) /\
  (forall w page,
     browser env (w_log w) u timeout = Some page ->
     _try_playwright env u timeout w
     = (match extract_article_text env page with
        | Some body =>
          if (500 <? String.length body)%nat then Some body else None
        | None => None
        end,
        {| w_db := w_db w; w_log := w_log w ++ [EBrowser u timeout] |})) /\
  (forall w w1 w2 r body,
     (if prefer then _try_playwright env u timeout else ret None) w = (None, w1) ->
     fetch_with_retry env u headers_standard timeout default_max_retries w1
     = (Some r, w2) ->
     status_code r = 200%Z ->
     extract_article_text env (text r) = Some body ->
     (500 < String.length body)%nat ->
     fetch_article_text_via_bypass env u timeout prefer w = (Some body, w2)).
Proof.
  intros Hbs.
  assert (Hgen : forall pre m post w w1 w2 body,
     strategies env u timeout prefer = pre ++ m :: post ->
     all_fail pre w = Some w1 ->
     m w1 = (Some body, w2) ->
     fetch_article_text_via_bypass env u timeout prefer w = (Some body, w2) /\
     (500 < String.length body)%nat).
  { intros pre m post w w1 w2 body Hs Hpre Hm. split.
    - rewrite bypass_is_chain by done.
      by eapply or_else_chain_stops.
    - apply (strategies_long env u timeout prefer m w1 w2); [|done].
      rewrite Hs. apply in_elt. }
  assert (Hmeth : forall v headers w,
     fetch_method env v headers timeout w
     = (match fst (fetch_with_retry env v headers timeout default_max_retries w)
        with
        | Some r =>
          if (status_code r =? 200)%Z
          then match extract_article_text env (text r) with
               | Some body =>
                 if (500 <? String.length body)%nat then Some body else None
               | None => None
               end
          else None
        | None => None
        end,
        snd (fetch_with_retry env v headers timeout default_max_retries w))).
  { intros v headers w. rewrite fetch_method_spec. f_equal.
    destruct (fst (fetch_with_retry _ _ _ _ _ _)) as [r|]; [|done].
    by rewrite substantial_spec. }
  split; [exact Hgen|].
  split.
  { intros w w' H. rewrite bypass_is_chain by done.
    by apply or_else_chain_fails. }
  split; [exact Hmeth|].
  split.
  { intros w page Hpage. unfold _try_playwright. run_m. rewrite Hpage.
    unfold ret. by rewrite substantial_spec. }
  intros w w1 w2 r body Hfirst Hfetch Hst Hex Hlen.
  refine (proj1 (Hgen
            [if prefer then _try_playwright env u timeout else ret None]
            (fetch_method env u headers_standard timeout) _ w w1 w2 body
            eq_refl _ _)).
  - cbn [all_fail]. by rewrite Hfirst.
  - rewrite Hmeth, Hfetch. cbn [fst snd]. rewrite Hst, Z.eqb_refl, Hex.
    apply Nat.ltb_lt in Hlen. by rewrite Hlen.
Qed.

(** The direct fetch sanitizes to 500 characters and gives nothing; the
    fetch with the Google referrer sanitizes to 600 and ends the call:
    two requests, and no other. On the small site the direct fetch is the
    only request. *)
Lemma bypass_stops_at_first_success_witness :
  fetch_article_text_via_bypass env_referrer example_url default_timeout false
    fresh_world
  = (Some body_direct,
     {| w_db := Database.empty;
        w_log := [EGet (example_request headers_standard);
                  EGet (example_request headers_google)] |}) /\
  fetch_article_text_via_bypass env_site example_url default_timeout false
    fresh_world
  = (Some body_direct,
     {| w_db := Database.empty;
        w_log := [EGet (example_request headers_standard)] |}).
Proof.
  split.
  - refine (proj1 (proj1 (bypass_stops_at_first_success env_referrer example_url
                            default_timeout false eq_refl)
                     [ret None;
                      fetch_method env_referrer example_url headers_standard
                        default_timeout]
                     (fetch_method env_referrer example_url headers_google
                        default_timeout)
                     _ fresh_world
                     {| w_db := Database.empty;
                        w_log := [EGet (example_request headers_standard)] |}
                     _ body_direct eq_refl _ _)).
    + vm_compute. reflexivity.
    + vm_compute. reflexivity.
  - refine (proj2 (proj2 (proj2 (proj2
              (bypass_stops_at_first_success env_site example_url
                 default_timeout false eq_refl))))
              fresh_world fresh_world _
              {| status_code := 200; text := body_direct;
                 final_url := example_url |}
              body_direct eq_refl _ eq_refl _ _).
    + vm_compute. reflexivity.
    + vm_compute. reflexivity.
    + vm_compute. lia.
Defined.

(** C5, as the claim states it, fails. The direct fetch yields exactly 500
    extracted characters (the sanitized output and its plain text are both
    500 long), yet its body is not returned: every later method is
    invoked, and the call ends with [None]. And the length that is tested
    is that of the sanitized markup, not of its plain text: a page with
    497 characters of text in 504 characters of markup ends the chain at
    the direct fetch. *)
Lemma bypass_continues_at_500 :
  extract_article_text env_500 body_500 = Some body_500 /\
  String.length body_500 = 500%nat /\
  (let res := fetch_article_text_via_bypass env_500 example_url default_timeout
                false fresh_world in
   fst res = None /\
   map (fun rq => (req_url rq, req_headers rq)) (gets_of (w_log (snd res)))
   = [(example_url, headers_standard);
      (example_url, headers_google);
      (example_url, headers_facebook);
      ("https://12ft.io/" +:+ example_url, headers_standard);
      ("https://removepaywalls.com/" +:+ example_url, headers_standard)] /\
   browsers_of (w_log (snd res)) = [example_url]) /\
  (let res := fetch_article_text_via_bypass env_markup example_url
                default_timeout false fresh_world in
   fst res = Some html_504 /\
   String.length html_504 = 504%nat /\
   String.length (get_text_all [NElem "p" [] [NText (page_of "a" 497)]])
   = 497%nat /\
   w_log (snd res) = [EGet (example_request headers_standard)]).
Proof. vm_compute. repeat split. Qed.

(** ** Open Graph scan *)

(** C9, evaluated. The author and published-time tags are found when the
    name or property attribute comes before content, and missed when
    content comes first; the image tag is found in both orders. *)
Lemma scan_og_author_order_matters :
  og_author (scan_og env_site author_name_first) = Some "Jane Doe" /\
  og_author (scan_og env_site author_content_first) = None /\
  og_published (scan_og env_site published_property_first)
  = Some "2024-01-01T00:00:00Z" /\
  og_published (scan_og env_site published_content_first) = None /\
  og_image (scan_og env_site image_property_first) = Some "https://x/y.jpg" /\
  og_image (scan_og env_site image_content_first) = Some "https://x/y.jpg".
Proof. vm_compute. repeat split. Qed.

(** ** The sanitizer floor *)

(** The steps on a small page. The script and the sidebar go; the class
    test of step 3 sees the characters of a class name spaced out and
    passes over the article-body div, so the container is the main
    element; below it the section is unwrapped, the link and the image
    keep their allowed attributes and get the safety ones. *)
Example sanitize_small_page :
  option_map fst
    (option_map (choose_container container_tests)
       (drop_noise_all (flat_map remove_junk small_page)))
  = Some
      (InElement
         (NElem "main" [("id", AStr "Main")]
            [NElem "a"
               [("href", AStr "/x"); ("target", AStr "_blank");
                ("rel", AStr "noopener noreferrer")]
               [NText "link"];
             NElem "img"
               [("src", AStr "i.png"); ("loading", AStr "lazy");
                ("referrerpolicy", AStr "no-referrer")]
               [];
             NComment "c"])).
Proof. vm_compute. reflexivity. Qed.

(** A noise element that holds an element makes the loop of step 2 read
    a wiped node: the sanitizer gives up. *)
Example noise_with_children_raises :
  drop_noise_all
    [NElem "div" [("class", AList ["sidebar"])] [NElem "p" [] [NText "x"]]]
  = None.
Proof. reflexivity. Qed.

Lemma Node_forest_ind (P : Node -> Prop) :
  (forall s, P (NText s)) ->
  (forall s, P (NComment s)) ->
  (forall t a ch, Forall P ch -> P (NElem t a ch)) ->
  forall n, P n.
Proof.
  intros Ht Hc He.
  fix IH 1. intros [s|s|t a ch]; [apply Ht|apply Hc|].
  apply He. induction ch as [|x ch IHch]; constructor; [apply IH|apply IHch].
Qed.

Lemma length_append (a b : string) :
  String.length (a +:+ b) = (String.length a + String.length b)%nat.
Proof. induction a as [|c a IH]; simpl; [done|]. by rewrite IH. Qed.

Lemma cat_cons (x : string) (l : list string) : cat (x :: l) = x +:+ cat l.
Proof. reflexivity. Qed.

Lemma length_cat_app (l k : list string) :
  String.length (cat (l ++ k))
  = (String.length (cat l) + String.length (cat k))%nat.
Proof.
  induction l as [|x l IH]; [done|].
  rewrite <- app_comm_cons, !cat_cons, !length_append, IH. lia.
Qed.

Lemma length_join_cons (sep x : string) (l : list string) :
  String.length (join sep (x :: l))
  = (String.length x
     + match l with
       | [] => 0
       | _ => String.length sep + String.length (join sep l)
       end)%nat.
Proof.
  destruct l as [|y l]; simpl; [lia|].
  rewrite !length_append. reflexivity.
Qed.

Lemma shrinks_refl (l : list string) : shrinks l l.
Proof. induction l; constructor; auto. Qed.

Lemma shrinks_app (l1 k1 l2 k2 : list string) :
  shrinks l1 k1 -> shrinks l2 k2 -> shrinks (l1 ++ l2) (k1 ++ k2).
Proof.
  intros H1 H2. induction H1 as [k| |]; simpl.
  - induction k as [|y k IH]; simpl; [done|]. by constructor.
  - by constructor.
  - by constructor.
Qed.

Lemma shrinks_join (l k : list string) :
  shrinks l k ->
  (String.length (join " " l) <= String.length (join " " k))%nat.
Proof.
  induction 1 as [k|x y l k Hxy Hlk IH|y l k Hlk IH].
  - simpl. lia.
  - rewrite !length_join_cons.
    destruct l as [|x' l].
    + destruct k; lia.
    + inversion Hlk; subst; lia.
  - rewrite length_join_cons.
    destruct k as [|y' k]; [inversion Hlk; subst; simpl; lia|lia].
Qed.

Lemma shrinks_trans (l k m : list string) :
  shrinks l k -> shrinks k m -> shrinks l m.
Proof.
  intros Hlk Hkm. revert l Hlk.
  induction Hkm as [m|x y k m Hxy Hkm IH|y k m Hkm IH]; intros l Hlk.
  - inversion Hlk; subst. constructor.
  - inversion Hlk; subst.
    + constructor.
    + apply shrinks_keep; [lia|auto].
    + apply shrinks_drop. auto.
  - apply shrinks_drop. auto.
Qed.

Lemma get_text_all_app (a b : list Node) :
  String.length (get_text_all (a ++ b))
  = (String.length (get_text_all a) + String.length (get_text_all b))%nat.
Proof. unfold get_text_all. by rewrite map_app, length_cat_app. Qed.

Lemma paragraph_texts_app (a b : list Node) :
  paragraph_texts (a ++ b) = paragraph_texts a ++ paragraph_texts b.
Proof. unfold paragraph_texts. by rewrite flat_map_app, map_app. Qed.

Lemma get_text_all_one (n : Node) :
  String.length (get_text_all [n]) = String.length (get_text n).
Proof.
  unfold get_text_all. cbn [map].
  change (cat [get_text n]) with (get_text n +:+ "").
  rewrite length_append. simpl. lia.
Qed.

Lemma paragraph_texts_elem (t : string) (a : Attrs) (ch : list Node) :
  paragraph_texts [NElem t a ch]
  = (if String.eqb t "p" then [get_text_all ch] else []) ++ paragraph_texts ch.
Proof.
  unfold paragraph_texts. simpl. rewrite app_nil_r, map_app.
  destruct (String.eqb t "p"); reflexivity.
Qed.

Lemma lighter_refl (doc : list Node) : lighter doc doc.
Proof. split; [lia|apply shrinks_refl]. Qed.

Lemma lighter_trans (a b c : list Node) :
  lighter a b -> lighter b c -> lighter a c.
Proof.
  intros [H1 H2] [H3 H4]. split; [lia|by eapply shrinks_trans].
Qed.

Lemma lighter_app (a b c d : list Node) :
  lighter a b -> lighter c d -> lighter (a ++ c) (b ++ d).
Proof.
  intros [H1 H2] [H3 H4]. split.
  - rewrite !get_text_all_app. lia.
  - rewrite !paragraph_texts_app. by apply shrinks_app.
Qed.

Lemma lighter_nil (doc : list Node) : lighter [] doc.
Proof. split; [simpl; lia|constructor]. Qed.

Lemma lighter_elem (t : string) (a a' : Attrs) (ch ch' : list Node) :
  lighter ch' ch -> lighter [NElem t a' ch'] [NElem t a ch].
Proof.
  intros [H1 H2]. split.
  - rewrite !get_text_all_one. exact H1.
  - rewrite !paragraph_texts_elem.
    apply shrinks_app; [|done].
    destruct (String.eqb t "p"); [|constructor].
    apply shrinks_keep; [exact H1|constructor].
Qed.

Lemma lighter_unwrap (t : string) (a : Attrs) (ch ch' : list Node) :
  lighter ch' ch -> lighter ch' [NElem t a ch].
Proof.
  intros [H1 H2]. split.
  - rewrite get_text_all_one. exact H1.
  - rewrite paragraph_texts_elem.
    destruct (String.eqb t "p"); [apply shrinks_drop|]; exact H2.
Qed.

Lemma lighter_flat_map (f : Node -> list Node) (doc : list Node) :
  Forall (fun n => lighter (f n) [n]) doc -> lighter (flat_map f doc) doc.
Proof.
  induction 1 as [|x doc Hx Hdoc IH]; simpl; [apply lighter_refl|].
  change (x :: doc) with ([x] ++ doc). by apply lighter_app.
Qed.

Lemma remove_junk_lighter (n : Node) : lighter (remove_junk n) [n].
Proof.
  induction n as [s|s|t a ch IH] using Node_forest_ind;
    try apply lighter_refl.
  cbn [remove_junk]. destruct (in_list t JUNK_TAGS); [apply lighter_nil|].
  apply lighter_elem. by apply lighter_flat_map.
Qed.

Lemma sanitize_lighter (n : Node) : lighter (sanitize n) [n].
Proof.
  induction n as [s|s|t a ch IH] using Node_forest_ind;
    try apply lighter_refl.
  cbn [sanitize]. destruct (in_list t KEEP_TAGS).
  - apply lighter_elem. by apply lighter_flat_map.
  - apply lighter_unwrap. by apply lighter_flat_map.
Qed.

Lemma drop_noise_children (ch : list Node) :
  (fix go (l : list Node) : option (list Node) :=
     match l with
     | [] => Some []
     | x :: xs =>
       match drop_noise x, go xs with
       | Some x', Some xs' => Some (x' ++ xs')
       | _, _ => None
       end
     end) ch = drop_noise_all ch.
Proof. induction ch as [|x ch IH]; simpl; [done|]. by rewrite IH. Qed.

Lemma drop_noise_all_lighter (doc out : list Node) :
  Forall (fun n => forall o, drop_noise n = Some o -> lighter o [n]) doc ->
  drop_noise_all doc = Some out -> lighter out doc.
Proof.
  intros Hall. revert out.
  induction Hall as [|x doc Hx Hdoc IH]; intros out; simpl.
  - intros [= <-]. apply lighter_refl.
  - destruct (drop_noise x) as [x'|] eqn:Ex; [|done].
    destruct (drop_noise_all doc) as [doc'|] eqn:Ed; [|done].
    intros [= <-]. change (x :: doc) with ([x] ++ doc).
    apply lighter_app; auto.
Qed.

Lemma drop_noise_lighter (n : Node) (out : list Node) :
  drop_noise n = Some out -> lighter out [n].
Proof.
  revert out. induction n as [s|s|t a ch IH] using Node_forest_ind;
    intros out.
  - intros [= <-]. apply lighter_refl.
  - intros [= <-]. apply lighter_refl.
  - cbn [drop_noise]. rewrite drop_noise_children.
    destruct (is_noise a) as [[|]|]; [| |done].
    + destruct (existsb is_elem ch); [done|].
      intros [= <-]. apply lighter_nil.
    + destruct (drop_noise_all ch) as [ch'|] eqn:E; [|done].
      intros [= <-]. apply lighter_elem.
      by apply drop_noise_all_lighter.
Qed.

Lemma sanitize_container_lighter (n : Node) : lighter [sanitize_container n] [n].
Proof.
  destruct n as [s|s|t a ch]; try apply lighter_refl.
  simpl. apply lighter_elem, lighter_flat_map.
  apply Forall_forall. intros x _. apply sanitize_lighter.
Qed.

Lemma rewrite_first_children (want : string -> Attrs -> bool)
    (f : Node -> Node) (ch : list Node) :
  (fix go (l : list Node) : option (Node * list Node) :=
     match l with
     | [] => None
     | x :: xs =>
       match rewrite_first want f x with
       | Some (c, x') => Some (c, x' :: xs)
       | None =>
         match go xs with
         | Some (c, xs') => Some (c, x :: xs')
         | None => None
         end
       end
     end) ch = rewrite_first_in want f ch.
Proof. induction ch as [|x ch IH]; simpl; [done|]. by rewrite IH. Qed.

Lemma rewrite_first_in_lighter (want : string -> Attrs -> bool)
    (doc doc' : list Node) (c : Node) :
  Forall (fun n => forall c n',
            rewrite_first want sanitize_container n = Some (c, n') ->
            lighter [n'] [n]) doc ->
  rewrite_first_in want sanitize_container doc = Some (c, doc') ->
  lighter doc' doc.
Proof.
  intros Hall. revert c doc'.
  induction Hall as [|x doc Hx Hdoc IH]; intros c doc'; simpl; [done|].
  destruct (rewrite_first want sanitize_container x) as [[c1 x']|] eqn:Ex.
  - intros [= <- <-]. change (x' :: doc) with ([x'] ++ doc).
    change (x :: doc) with ([x] ++ doc).
    apply lighter_app; [eauto|apply lighter_refl].
  - destruct (rewrite_first_in want sanitize_container doc) as [[c2 xs']|] eqn:Ed;
      [|done].
    intros [= <- <-]. change (x :: xs') with ([x] ++ xs').
    change (x :: doc) with ([x] ++ doc).
    apply lighter_app; [apply lighter_refl|eauto].
Qed.

Lemma rewrite_first_lighter (want : string -> Attrs -> bool) (n : Node) :
  forall c n',
    rewrite_first want sanitize_container n = Some (c, n') -> lighter [n'] [n].
Proof.
  induction n as [s|s|t a ch IH] using Node_forest_ind; intros c n';
    try discriminate.
  cbn [rewrite_first]. rewrite rewrite_first_children.
  destruct (want t a).
  - intros [= <- <-]. apply (sanitize_container_lighter (NElem t a ch)).
  - destruct (rewrite_first_in want sanitize_container ch) as [[c1 ch']|] eqn:E;
      [|done].
    intros [= <- <-]. apply lighter_elem.
    by eapply rewrite_first_in_lighter.
Qed.

Lemma choose_container_lighter (tests : list (string -> Attrs -> bool))
    (doc : list Node) :
  lighter (snd (choose_container tests doc)) doc.
Proof.
  induction tests as [|want tests IH]; simpl.
  - apply lighter_flat_map, Forall_forall. intros x _. apply sanitize_lighter.
  - destruct (rewrite_first_in want sanitize_container doc) as [[c doc']|] eqn:E;
      [|exact IH].
    simpl. eapply rewrite_first_in_lighter; [|exact E].
    apply Forall_forall. intros x _. apply rewrite_first_lighter.
Qed.

(** What steps 1 to 4 leave of a document has paragraphs of the original
    only, each with no more text than it had. *)
Lemma prepare_lighter (env : Env) (html : string) (doc soup : list Node)
    (container : Container) :
  html_parser env html = Some doc ->
  prepare env html = Some (container, soup) ->
  lighter soup doc.
Proof.
  unfold prepare. intros ->.
  destruct (drop_noise_all (flat_map remove_junk doc)) as [d2|] eqn:E; [|done].
  intros Hc.
  apply (f_equal (fun o => match o with Some p => snd p | None => soup end))
    in Hc.
  cbv beta iota in Hc. cbn [snd] in Hc. rewrite <- Hc.
  eapply lighter_trans; [apply choose_container_lighter|].
  eapply lighter_trans.
  - eapply drop_noise_all_lighter; [|exact E].
    apply Forall_forall. intros x _. apply drop_noise_lighter.
  - apply lighter_flat_map, Forall_forall. intros x _. apply remove_junk_lighter.
Qed.

(** C6, as amended. Whenever the plain text extracted from the container
    is shorter than 200 characters and the paragraph fallback is shorter
    than 200 characters too, [extract_article_text] returns [None], never
    a short document. The fallback is measured as the code builds it: the
    texts of the paragraph elements joined by single spaces, so that each
    separator counts for one character. The code joins the paragraphs the
    document holds once junk and noise are removed; the paragraphs of the
    document as parsed bound it from above, so the floor holds for either
    reading of the fallback. *)
Theorem sanitizer_floor (env : Env) (html : string) (doc soup : list Node)
    (container : Container) :
  html_parser env html = Some doc ->
  prepare env html = Some (container, soup) ->
  (String.length (container_text container) < 200)%nat ->
  (String.length (paragraph_text soup) < 200)%nat \/
  (String.length (paragraph_text doc) < 200)%nat ->
  extract_article_text env html = None.
Proof.
  intros Hparse Hprep Hplain Hparas.
  assert (Hshort : (String.length (paragraph_text soup) < 200)%nat).
  { destruct Hparas as [H|H]; [exact H|].
    destruct (prepare_lighter env html doc soup container Hparse Hprep)
      as [_ Hsh].
    apply shrinks_join in Hsh.
    unfold paragraph_text, paragraph_texts in *. lia. }
  unfold extract_article_text. destruct (negb (bs4_available env)); [done|].
  rewrite Hprep.
  apply Nat.ltb_lt in Hplain. rewrite Hplain.
  unfold paragraph_text in Hshort. apply Nat.ltb_lt in Hshort.
  by rewrite Hshort.
Qed.

(** The teaser page is rejected. *)
Lemma sanitizer_floor_witness :
  extract_article_text env_teaser teaser_html = None.
Proof.
  apply (sanitizer_floor env_teaser teaser_html teaser_doc
           [NElem "html" []
              [NElem "body" []
                 [NElem "article" []
                    [NElem "p" [] [NText "Subscribe to continue reading."]]]]]
           (InElement
              (NElem "article" []
                 [NElem "p" [] [NText "Subscribe to continue reading."]]))).
  - reflexivity.
  - vm_compute. reflexivity.
  - vm_compute. lia.
  - left. vm_compute. lia.
Defined.

(** C6, as the claim states it, fails. A page of fifty-one paragraphs of
    three letters: the plain text of the container is 153 characters long,
    and so is the concatenation of all paragraph elements, both under 200;
    yet the sanitizer returns a document, the 510 characters of the
    paragraphs' markup. The fallback that is measured joins the paragraphs
    with single spaces, which makes 203 characters. *)
Lemma sanitizer_counts_separators :
  html_parser env_short_paragraphs short_paragraphs_html
  = Some short_paragraphs /\
  prepare env_short_paragraphs short_paragraphs_html
  = Some (WholeDocument short_paragraphs, short_paragraphs) /\
  String.length (container_text (WholeDocument short_paragraphs)) = 153%nat /\
  String.length (cat (paragraph_texts short_paragraphs)) = 153%nat /\
  String.length (paragraph_text short_paragraphs) = 203%nat /\
  extract_article_text env_short_paragraphs short_paragraphs_html
  = Some short_paragraphs_html /\
  String.length short_paragraphs_html = 510%nat.
Proof. vm_compute. repeat split. Qed.

(** ** Instances *)


(** A preview image from the feed survives an og:image tag; an empty one
    is filled from it. *)
Lemma enrichment_fills_only_empty_fields_witness :
  i_preview_image_url (fst (enrich_item env_og true item_b fresh_world))
  = "https://feed/img.jpg" /\
  i_preview_image_url (fst (enrich_item env_og true item_a fresh_world))
  = "https://x/y.jpg".
Proof.
  split.
  - exact (proj1 (enrichment_fills_only_empty_fields env_og true item_b
                    fresh_world) eq_refl).
  - vm_compute. reflexivity.
Defined.


(** The same article in two feeds, the second time under another
    headline: the first one stays. *)
Lemma dedup_keeps_first_occurrence_witness :
  List.length
    (List.filter (has_url example_url)
       (dedup ([item_a; item_b] ++ [set_headline "again" item_a])))
  = 1%nat /\
  dedup ([item_a; item_b] ++ [set_headline "again" item_a]) = [item_a; item_b].
Proof.
  split.
  - exact (proj2 (proj2 (proj2 (dedup_keeps_first_occurrence
                                  ([item_a; item_b] ++ [set_headline "again" item_a]))))
             [item_a; item_b] [set_headline "again" item_a]
             item_a (set_headline "again" item_a)
             eq_refl (or_introl eq_refl) (or_introl eq_refl) eq_refl).
  - vm_compute. reflexivity.
Defined.

(** * Further properties *)

(** ** The store, continued *)

Section StoreInvariants.
Import Database.

Lemma empty_well_formed : well_formed empty.
Proof.
  repeat split; simpl; try constructor.
Qed.

Lemma add_article_fts_in_sync (now : string) (a : ArticleArgs) (db : Store) :
  fts_in_sync db -> fts_in_sync (snd (add_article now a db)).
Proof.
  unfold fts_in_sync, add_article. intros H.
  destruct (url_exists db (a_url a)); simpl; [done|].
  by rewrite map_app, H.
Qed.

Lemma add_article_rowids_ok (now : string) (a : ArticleArgs) (db : Store) :
  rowids_ok db -> rowids_ok (snd (add_article now a db)).
Proof.
  unfold rowids_ok, add_article. intros [Hnd Hle].
  destruct (url_exists db (a_url a)); simpl; [done|].
  assert (Hnext : (sequence db < next_rowid db)%Z) by (unfold next_rowid; lia).
  split.
  - rewrite map_app. simpl. apply NoDup_ListNoDup in Hnd.
    apply NoDup_ListNoDup, NoDup_app. split; [done|]. split.
    + intros x Hx Hin. apply list_elem_of_In in Hx.
      apply list_elem_of_In in Hin. simpl in Hin. destruct Hin as [<-|[]].
      apply in_map_iff in Hx as (r & Hr & Hin).
      rewrite Forall_forall in Hle. apply list_elem_of_In in Hin.
      specialize (Hle r Hin). simpl in Hle. lia.
    + apply NoDup_singleton.
  - apply Forall_app. split.
    + eapply Forall_impl; [exact Hle|]. simpl. intros r Hr. lia.
    + constructor; [|constructor]. simpl.
      pose proof (next_rowid_pos db). lia.
Qed.

(** X1. Every write keeps the store well formed: URLs stay distinct, the
    full-text table mirrors the article table row for row, and rowids are
    distinct, positive and bounded by the AUTOINCREMENT counter. *)
Theorem add_article_well_formed (now : string) (a : ArticleArgs) (db : Store) :
  well_formed db -> well_formed (snd (add_article now a db)).
Proof.
  intros (Hu & Hf & Hr). repeat split.
  - by apply add_article_unique.
  - by apply add_article_fts_in_sync.
  - by apply add_article_rowids_ok.
  - by apply add_article_rowids_ok.
Qed.

(** A write into the empty store. *)
Lemma add_article_well_formed_witness :
  well_formed empty /\
  well_formed
    (snd (add_article "2024-01-01T00:00:00+00:00"
            (article_args source_heavy item_a "" None) empty)).
Proof.
  split; [exact empty_well_formed|].
  exact (add_article_well_formed _ _ _ empty_well_formed).
Defined.

End StoreInvariants.

Section StoreReads.
Import Database.

Lemma find_app_some {A} (f : A -> bool) (l k : list A) (x : A) :
  List.find f l = Some x -> List.find f (l ++ k) = Some x.
Proof.
  induction l as [|y l IH]; simpl; [done|].
  destruct (f y); auto.
Qed.

Lemma url_exists_find (db : Store) (u : string) :
  url_exists db u = true <-> is_Some (get_article_by_url db u).
Proof.
  unfold url_exists, get_article_by_url.
  induction (articles db) as [|r rows IH]; simpl.
  - split; [done|]. intros [x Hx]. discriminate.
  - destruct (String.eqb (url r) u); simpl; [|exact IH].
    split; eauto.
Qed.

(** X2. A write never changes what is stored: every URL that was stored
    still looks up the very same row, and so does every id, whether the
    write inserted a row or was ignored. *)
Theorem add_article_keeps_rows (now : string) (a : ArticleArgs) (db : Store) :
  (forall u, url_exists db u = true ->
     get_article_by_url (snd (add_article now a db)) u
     = get_article_by_url db u) /\
  (forall i r, get_article db i = Some r ->
     get_article (snd (add_article now a db)) i = Some r).
Proof.
  unfold add_article.
  destruct (url_exists db (a_url a)); simpl; [done|].
  split.
  - intros u Hu. apply url_exists_find in Hu as [r Hr].
    unfold get_article_by_url in *. simpl. rewrite Hr.
    by apply find_app_some.
  - intros i r Hr. unfold get_article in *. simpl. by apply find_app_some.
Qed.

End StoreReads.

(** ** Checkpoints *)

Section Checkpoints.
Import SourceChecks.

Lemma upsert_lookup (s ts : string) (rows : list Check) :
  get_last_check (upsert s ts rows) s = Some ts.
Proof.
  unfold get_last_check.
  induction rows as [|r rows IH]; simpl.
  - by rewrite String.eqb_refl.
  - destruct (String.eqb (source_slug r) s) eqn:E; simpl.
    + by rewrite String.eqb_refl.
    + by rewrite E.
Qed.

Lemma upsert_other (s ts s' : string) (rows : list Check) :
  s' <> s ->
  List.find (fun r => String.eqb (source_slug r) s') (upsert s ts rows)
  = List.find (fun r => String.eqb (source_slug r) s') rows.
Proof.
  intros Hne. induction rows as [|r rows IH]; simpl.
  - destruct (String.eqb_spec s s'); congruence.
  - destruct (String.eqb_spec (source_slug r) s) as [E|E]; simpl.
    + subst s. destruct (String.eqb_spec (source_slug r) s'); congruence.
    + by rewrite IH.
Qed.

Lemma upsert_slugs (s ts : string) (rows : list Check) :
  map source_slug (upsert s ts rows)
  = if existsb (fun r => String.eqb (source_slug r) s) rows
    then map source_slug rows
    else map source_slug rows ++ [s].
Proof.
  induction rows as [|r rows IH]; simpl; [done|].
  destruct (String.eqb_spec (source_slug r) s) as [E|E]; simpl.
  - by rewrite E.
  - rewrite IH. by destruct (existsb _ rows).
Qed.

Lemma upsert_unique (s ts : string) (rows : list Check) :
  unique_slugs rows -> unique_slugs (upsert s ts rows).
Proof.
  unfold unique_slugs. intros Hnd. rewrite upsert_slugs.
  destruct (existsb _ rows) eqn:E; [done|].
  apply NoDup_ListNoDup in Hnd. apply NoDup_ListNoDup, NoDup_app.
  split; [done|]. split; [|apply NoDup_singleton].
  intros x Hx Hin. apply list_elem_of_In in Hx.
  apply list_elem_of_In in Hin. simpl in Hin. destruct Hin as [<-|[]].
  apply in_map_iff in Hx as (r & Hr & Hin).
  assert (existsb (fun r => String.eqb (source_slug r) s) rows = true).
  { apply existsb_exists. exists r. split; [done|]. by apply String.eqb_eq. }
  congruence.
Qed.

(** X3. The checkpoint upsert: after [set_last_check] the slug reads back
    the timestamp written (the clock's when none, or an empty one, is
    given); every other slug reads as before; and a table with one row
    per slug keeps one row per slug, growing by a row only for a slug it
    did not hold. *)
Theorem set_last_check_upserts (now s : string) (ts : option string)
    (rows : list Check) :
  get_last_check (set_last_check now s ts rows) s
  = Some (if truthy_opt ts then match ts with Some t => t | None => now end
          else now) /\
  (forall s', s' <> s ->
     get_last_check (set_last_check now s ts rows) s' = get_last_check rows s') /\
  (unique_slugs rows -> unique_slugs (set_last_check now s ts rows)) /\
  List.length (set_last_check now s ts rows)
  = match get_last_check rows s with
    | Some _ => List.length rows
    | None => S (List.length rows)
    end.
Proof.
  unfold set_last_check.
  set (t := match ts with
            | Some t => if truthy t then t else now
            | None => now
            end).
  assert (Ht : t = if truthy_opt ts
                   then match ts with Some t => t | None => now end else now).
  { unfold t. destruct ts as [x|]; simpl; [|done]. by destruct (truthy x). }
  rewrite <- Ht. split; [apply upsert_lookup|].
  split; [intros s' Hne; unfold get_last_check; by rewrite upsert_other|].
  split.
  - apply upsert_unique.
  - unfold get_last_check. clear Ht.
    induction rows as [|r rows IH]; simpl; [done|].
    destruct (String.eqb (source_slug r) s); simpl; [done|].
    rewrite IH. by destruct (List.find _ rows).
Qed.

End Checkpoints.

(** ** What a computation appends to the log *)

Lemma does_ret {A} (a : A) (P : A -> list Event -> Prop) :
  P a [] -> does (ret a) P.
Proof.
  intros H w. exists a, []. split; [|done].
  unfold ret. rewrite app_nil_r. by destruct w.
Qed.

Lemma does_bind {A B} (m : M A) (f : A -> M B)
    (P : A -> list Event -> Prop) (Q : B -> list Event -> Prop) :
  does m P ->
  (forall a tr1, P a tr1 -> does (f a) (fun b tr2 => Q b (tr1 ++ tr2))) ->
  does (bind m f) Q.
Proof.
  intros Hm Hf w. destruct (Hm w) as (a & tr1 & Em & HP).
  destruct (Hf a tr1 HP {| w_db := w_db w; w_log := w_log w ++ tr1 |})
    as (b & tr2 & Ef & HQ).
  exists b, (tr1 ++ tr2). split; [|done].
  rewrite bind_run, Em. cbn [fst snd]. rewrite Ef. cbn [w_db w_log].
  by rewrite app_assoc.
Qed.

Lemma does_weaken {A} (m : M A) (P Q : A -> list Event -> Prop) :
  does m P -> (forall a tr, P a tr -> Q a tr) -> does m Q.
Proof.
  intros Hm HPQ w. destruct (Hm w) as (a & tr & E & HP). eauto.
Qed.

Lemma does_emit (e : Event) : does (emit e) (fun _ tr => tr = [e]).
Proof. intros w. exists tt, [e]. done. Qed.

Lemma does_http_get (env : Env) (rq : Request) :
  does (http_get env rq) (fun _ tr => tr = [EGet rq]).
Proof. intros w. exists (http env (w_log w) rq), [EGet rq]. done. Qed.

Lemma gets_of_app (a b : list Event) : gets_of (a ++ b) = gets_of a ++ gets_of b.
Proof.
  induction a as [|e a IH]; simpl; [done|]. destruct e; simpl; by rewrite ?IH.
Qed.

Lemma sleeps_of_app (a b : list Event) :
  sleeps_of (a ++ b) = sleeps_of a ++ sleeps_of b.
Proof.
  induction a as [|e a IH]; simpl; [done|]. destruct e; simpl; by rewrite ?IH.
Qed.

Lemma browsers_of_app (a b : list Event) :
  browsers_of (a ++ b) = browsers_of a ++ browsers_of b.
Proof.
  induction a as [|e a IH]; simpl; [done|]. destruct e; simpl; by rewrite ?IH.
Qed.

Lemma sum_Z_app (a b : list Z) : sum_Z (a ++ b) = (sum_Z a + sum_Z b)%Z.
Proof. induction a as [|x a IH]; simpl; lia. Qed.

Lemma within_nil : within 0 0 0 [].
Proof. repeat split; simpl; lia. Qed.

Lemma within_app (g1 g2 b1 b2 : nat) (s1 s2 : Z) (t1 t2 : list Event) :
  within g1 b1 s1 t1 -> within g2 b2 s2 t2 ->
  within (g1 + g2) (b1 + b2) (s1 + s2) (t1 ++ t2).
Proof.
  intros (A1 & A2 & A3) (B1 & B2 & B3). unfold within.
  rewrite gets_of_app, browsers_of_app, sleeps_of_app, sum_Z_app, !length_app.
  repeat split; lia.
Qed.

Lemma within_le (g g' b b' : nat) (s s' : Z) (tr : list Event) :
  within g b s tr -> (g <= g')%nat -> (b <= b')%nat -> (s <= s')%Z ->
  within g' b' s' tr.
Proof. intros (A1 & A2 & A3) ? ? ?. repeat split; lia. Qed.

(** ** The retry policy, continued *)

Ltac log_simpl :=
  cbn [gets_of sleeps_of browsers_of sum_Z app List.length List.app] in *.

Lemma retry_loop_budget (env : Env) (rq : Request) (max_retries : Z) :
  forall (n : nat) (attempt : Z),
    (0 <= attempt)%Z ->
    (attempt + Z.of_nat n = max_retries)%Z ->
    does (retry_loop env rq max_retries n attempt)
      (retry_budget rq max_retries n attempt).
Proof.
  induction n as [|n IH]; intros attempt Hpos Hsum.
  - apply does_ret. split; [apply within_nil|]. split; [constructor|done].
  - cbn [retry_loop].
    assert (Hpow : (2 ^ (attempt + 1 + 1) = 2 * 2 ^ (attempt + 1))%Z)
      by (replace (attempt + 1 + 1)%Z with (Z.succ (attempt + 1)) by lia;
          rewrite Z.pow_succ_r by lia; reflexivity).
    assert (Hp : (0 < 2 ^ (attempt + 1))%Z) by (apply Z.pow_pos_nonneg; lia).
    assert (Hm : (2 ^ (attempt + 1) <= 2 ^ max_retries)%Z)
      by (apply Z.pow_le_mono_r; lia).
    assert (Hgo :
      does (if (attempt <? max_retries - 1)%Z
            then run sleep (2 ^ (attempt + 1))%Z;
                 retry_loop env rq max_retries n (attempt + 1)
            else ret None)
        (fun r tr2 => retry_budget rq max_retries (S n) attempt r
                        ([EGet rq] ++ tr2))).
    { destruct (Z.ltb_spec attempt (max_retries - 1)) as [Hlt|Hge].
      - eapply does_bind; [apply does_emit|].
        intros _ tr1 ->. eapply does_weaken; [apply (IH (attempt + 1)%Z); lia|].
        intros r tr ((W1 & W2 & W3) & Ho & Hr).
        destruct n as [|n]; [lia|].
        split; [|split; [|exact Hr]].
        + unfold within. log_simpl. repeat split; lia.
        + constructor; [by left|]. constructor; [right; eauto|]. exact Ho.
      - apply does_ret. assert (n = O) by lia. subst n.
        assert (max_retries = attempt + 1)%Z by lia. subst max_retries.
        split; [|split; [|done]].
        + unfold within. log_simpl. repeat split; lia.
        + constructor; [by left|constructor]. }
    eapply does_bind; [apply does_http_get|].
    intros out tr1 ->. destruct out as [resp|]; [|exact Hgo].
    destruct (Z.eqb_spec (status_code resp) 429) as [E|E]; [exact Hgo|].
    apply does_ret. rewrite app_nil_r.
    split; [|split].
    + unfold within. log_simpl. repeat split; lia.
    + constructor; [by left|constructor].
    + intros r [= <-]. exact E.
Qed.

Lemma fetch_with_retry_does (env : Env) (u : string)
    (headers : list (string * string)) (timeout max_retries : Z) :
  does (fetch_with_retry env u headers timeout max_retries)
    (fun r tr =>
       within (Z.to_nat max_retries) 0 (backoff_total max_retries) tr /\
       only_requests
         {| req_url := u; req_headers := headers; req_timeout := timeout |} tr /\
       (forall resp, r = Some resp -> status_code resp <> 429%Z)).
Proof.
  unfold fetch_with_retry, backoff_total.
  destruct (Z.le_gt_cases 0 max_retries) as [Hpos|Hneg].
  - eapply does_weaken; [apply retry_loop_budget; lia|].
    intros r tr (Hw & Ho & Hr). split; [|done].
    eapply within_le; [exact Hw|lia|lia|].
    destruct (Z.to_nat max_retries); [lia|].
    assert (0 < 2 ^ (0 + 1))%Z by (apply Z.pow_pos_nonneg; lia). lia.
  - replace (Z.to_nat max_retries) with O by lia. cbn [retry_loop].
    apply does_ret. split; [|split; [constructor|done]].
    eapply within_le; [apply within_nil|lia..].
Qed.

(** X4. Whatever the server does, one call of [fetch_with_retry] sends at
    most [max_retries] requests, all of them the same request, sleeps at
    most 2 + 4 + ... + 2^(max_retries-1) seconds in all, starts no browser,
    leaves the store alone, and never hands back a 429 response. *)
Theorem fetch_with_retry_bounded (env : Env) (u : string)
    (headers : list (string * string)) (timeout max_retries : Z) :
  does (fetch_with_retry env u headers timeout max_retries)
    (fun r tr =>
       within (Z.to_nat max_retries) 0 (backoff_total max_retries) tr /\
       only_requests
         {| req_url := u; req_headers := headers; req_timeout := timeout |} tr /\
       (forall resp, r = Some resp -> status_code resp <> 429%Z)).
Proof. apply fetch_with_retry_does. Qed.

(** X5. No retry on any other status: when the first answer is a response
    whose status is not 429, be it 200, 404 or 500, [fetch_with_retry]
    returns that response after this single request, without sleeping. *)
Theorem fetch_with_retry_returns_other_status (env : Env) (u : string)
    (headers : list (string * string)) (timeout max_retries : Z) (w : World)
    (resp : Response) :
  (0 < max_retries)%Z ->
  let rq := {| req_url := u; req_headers := headers; req_timeout := timeout |} in
  http env (w_log w) rq = Returned resp ->
  status_code resp <> 429%Z ->
  fetch_with_retry env u headers timeout max_retries w
  = (Some resp, {| w_db := w_db w; w_log := w_log w ++ [EGet rq] |}).
Proof.
  intros Hpos rq Hresp Hst. unfold fetch_with_retry.
  destruct (Z.to_nat max_retries) as [|n] eqn:E; [lia|].
  cbn [retry_loop]. run_m. fold rq. rewrite Hresp.
  destruct (Z.eqb_spec (status_code resp) 429); [contradiction|reflexivity].
Qed.

(** The server of a failing page. *)
Lemma fetch_with_retry_returns_other_status_witness :
  fetch_with_retry (make_env (respond 500 "oops") no_browser no_feeds [])
    example_url [] default_timeout default_max_retries fresh_world
  = (Some {| status_code := 500; text := "oops"; final_url := example_url |},
     {| w_db := Database.empty; w_log := [EGet (example_request [])] |}).
Proof.
  apply (fetch_with_retry_returns_other_status
           (make_env (respond 500 "oops") no_browser no_feeds [])
           example_url [] default_timeout default_max_retries fresh_world).
  - reflexivity.
  - reflexivity.
  - discriminate.
Defined.

Lemma retry_loop_all_raised (env : Env) (rq : Request) (max_retries : Z) :
  always_raises env ->
  forall (n : nat) (attempt : Z) (w : World),
    (attempt + Z.of_nat n = max_retries)%Z ->
    retry_loop env rq max_retries n attempt w
    = (None, {| w_db := w_db w;
                w_log := w_log w ++ backoff_schedule rq n attempt |}).
Proof.
  intros Hall n. induction n as [|n IH]; intros attempt w Hsum.
  - simpl. unfold ret. rewrite app_nil_r. by destruct w.
  - cbn [retry_loop]. run_m. rewrite Hall.
    destruct n as [|n].
    + assert (E : (attempt <? max_retries - 1)%Z = false)
        by (apply Z.ltb_ge; lia).
      rewrite E. reflexivity.
    + assert (E : (attempt <? max_retries - 1)%Z = true)
        by (apply Z.ltb_lt; lia).
      rewrite E. rewrite IH by lia. cbn [w_db w_log].
      f_equal. rewrite <- !app_assoc. reflexivity.
Qed.

(** X6. Transport failures follow the schedule of rate limits: when every
    request raises, [fetch_with_retry] makes [max_retries] attempts with
    the sleeps 2, 4, ... between them and none after the last, and returns
    [None]; the exception never reaches the caller. *)
Theorem fetch_with_retry_all_raised (env : Env) (u : string)
    (headers : list (string * string)) (timeout max_retries : Z) (w : World) :
  always_raises env ->
  (0 <= max_retries)%Z ->
  let rq := {| req_url := u; req_headers := headers; req_timeout := timeout |} in
  fetch_with_retry env u headers timeout max_retries w
  = (None, {| w_db := w_db w;
              w_log := w_log w
                       ++ backoff_schedule rq (Z.to_nat max_retries) 0 |}).
Proof.
  intros Hall Hpos rq. unfold fetch_with_retry.
  apply retry_loop_all_raised; [done|lia].
Qed.

Lemma env_offline_raises : always_raises env_offline.
Proof. intros tr rq. reflexivity. Qed.

(** Offline, with the default bound: three attempts, 2s and 4s. *)
Lemma fetch_with_retry_all_raised_witness :
  fetch_with_retry env_offline example_url [] default_timeout
    default_max_retries fresh_world
  = (None, {| w_db := Database.empty;
              w_log := [EGet (example_request []); ESleep 2;
                        EGet (example_request []); ESleep 4;
                        EGet (example_request [])] |}).
Proof.
  exact (fetch_with_retry_all_raised env_offline example_url [] default_timeout
           default_max_retries fresh_world env_offline_raises
           ltac:(unfold default_max_retries; lia)).
Defined.

(** ** The bypass chain, continued *)

Lemma substantial_long (o : option string) (t : string) :
  substantial o = Some t -> (500 < String.length t)%nat.
Proof. intros H. by apply substantial_inv in H as [_ ?]. Qed.

Lemma only_requests_gets (rq : Request) (tr : list Event) :
  only_requests rq tr -> Forall (fun x => x = rq) (gets_of tr).
Proof.
  induction 1 as [|e tr He Htr IH]; simpl; [constructor|].
  destruct He as [->|[s ->]]; simpl; [constructor|]; done.
Qed.

Lemma try_playwright_budget (env : Env) (u : string) (timeout : Z)
    (U : Request -> Prop) :
  does (_try_playwright env u timeout) (retrieval_budget 0 1 0 U).
Proof.
  intros w. unfold _try_playwright. run_m.
  destruct (browser env (w_log w) u timeout) as [html|]; simpl;
    eexists _, [EBrowser u timeout]; (split; [reflexivity|]);
    (split; [unfold within; log_simpl; repeat split; lia|]);
    (split; [constructor|]); [apply substantial_long|done].
Qed.

Lemma fetch_method_budget (env : Env) (u : string)
    (headers : list (string * string)) (timeout : Z) (U : Request -> Prop) :
  (forall rq, req_url rq = u -> U rq) ->
  does (fetch_method env u headers timeout) (retrieval_budget 3 0 6 U).
Proof.
  intros HU. unfold fetch_method.
  eapply does_bind; [apply fetch_with_retry_does|].
  intros r tr1 (Hw & Ho & _).
  assert (Hw' : within 3 0 6 tr1) by exact Hw.
  assert (HB : forall o, retrieval_budget 3 0 6 U (substantial o) (tr1 ++ [])
               /\ retrieval_budget 3 0 6 U None (tr1 ++ [])).
  { intros o. rewrite app_nil_r. unfold retrieval_budget.
    assert (Forall U (gets_of tr1)).
    { eapply Forall_impl; [apply (only_requests_gets _ _ Ho)|].
      intros rq ->. by apply HU. }
    split; (split; [exact Hw'|split; [done|]]); [apply substantial_long|done]. }
  destruct r as [resp|]; [|apply does_ret, (proj2 (HB None))].
  destruct (status_code resp =? 200)%Z; apply does_ret;
    [apply (proj1 (HB _))|apply (proj2 (HB None))].
Qed.

Lemma or_else_budget (m next : M (option string)) (g1 g2 b1 b2 : nat)
    (s1 s2 : Z) (U : Request -> Prop) :
  (0 <= s2)%Z ->
  does m (retrieval_budget g1 b1 s1 U) ->
  does next (retrieval_budget g2 b2 s2 U) ->
  does (or_else m next) (retrieval_budget (g1 + g2) (b1 + b2) (s1 + s2) U).
Proof.
  intros Hs Hm Hn. unfold or_else.
  eapply does_bind; [exact Hm|].
  intros r tr1 (Hw & HU & Hr). destruct r as [t|].
  - apply does_ret. rewrite app_nil_r. split; [|split; [done|]].
    + eapply within_le; [exact Hw|lia..].
    + intros t' [= <-]. by apply Hr.
  - eapply does_weaken; [exact Hn|].
    intros r tr2 (Hw2 & HU2 & Hr2). split; [|split; [|done]].
    + by apply within_app.
    + rewrite gets_of_app. apply Forall_app. done.
Qed.

Lemma ret_none_budget (U : Request -> Prop) :
  does (ret (None : option string)) (retrieval_budget 0 0 0 U).
Proof.
  apply does_ret. split; [apply within_nil|]. split; [constructor|done].
Qed.

Lemma bypass_does (env : Env) (u : string) (timeout : Z) (prefer : bool) :
  does (fetch_article_text_via_bypass env u timeout prefer)
    (retrieval_budget 15 1 30 (bypass_targets u)).
Proof.
  unfold fetch_article_text_via_bypass.
  destruct (negb (bs4_available env)).
  { eapply does_weaken; [apply (ret_none_budget (bypass_targets u))|].
    intros r tr (Hw & HU & Hr). split; [|done].
    eapply within_le; [exact Hw|lia..]. }
  assert (T1 : forall rq, req_url rq = u -> bypass_targets u rq)
    by (intros rq Hq; unfold bypass_targets; rewrite Hq; simpl; auto).
  assert (T2 : forall rq, req_url rq = "https://12ft.io/" +:+ u ->
                          bypass_targets u rq)
    by (intros rq Hq; unfold bypass_targets; rewrite Hq; simpl; auto).
  assert (T3 : forall rq, req_url rq = "https://removepaywalls.com/" +:+ u ->
                          bypass_targets u rq)
    by (intros rq Hq; unfold bypass_targets; rewrite Hq; simpl; auto).
  destruct prefer; cbn [negb].
  - change 15%nat with (0 + (3 + (3 + (3 + (3 + (3 + 0))))))%nat.
    change 1%nat with (1 + (0 + (0 + (0 + (0 + (0 + 0))))))%nat.
    change 30%Z with (0 + (6 + (6 + (6 + (6 + (6 + 0))))))%Z.
    repeat (apply or_else_budget; [lia| |]);
      try (apply fetch_method_budget; assumption);
      [apply try_playwright_budget|apply ret_none_budget].
  - change 15%nat with (0 + (3 + (3 + (3 + (3 + (3 + 0))))))%nat.
    change 1%nat with (0 + (0 + (0 + (0 + (0 + (0 + 1))))))%nat.
    change 30%Z with (0 + (6 + (6 + (6 + (6 + (6 + 0))))))%Z.
    repeat (apply or_else_budget; [lia| |]);
      try (apply fetch_method_budget; assumption);
      [apply ret_none_budget|apply try_playwright_budget].
Qed.

(** X7. What one call of the retriever can cost and return, whatever the
    servers do and whichever way the flag is set: at most 15 requests,
    each to the URL itself or to one of the two proxy addresses for it; at
    most one browser session; at most 30 seconds of backoff sleep; no
    write to the store; and a body, when one is returned, is longer than
    500 characters. *)
Theorem bypass_budget (env : Env) (u : string) (timeout : Z) (prefer : bool) :
  does (fetch_article_text_via_bypass env u timeout prefer)
    (retrieval_budget 15 1 30 (bypass_targets u)).
Proof. apply bypass_does. Qed.

(** ** The sanitizer, continued *)

Lemma forallb_flat_map {A B} (p : B -> bool) (f : A -> list B) (l : list A) :
  Forall (fun x => forallb p (f x) = true) l ->
  forallb p (flat_map f l) = true.
Proof.
  induction 1 as [|x l Hx Hl IH]; simpl; [done|].
  rewrite forallb_app, Hx, IH. done.
Qed.

Lemma assoc_app_some {V} (k : string) (a b : list (string * V)) (v : V) :
  assoc k a = Some v -> assoc k (a ++ b) = Some v.
Proof.
  induction a as [|[k' v'] a IH]; simpl; [done|].
  destruct (String.eqb k' k); auto.
Qed.

Lemma assoc_app_none {V} (k : string) (a b : list (string * V)) :
  assoc k a = None -> assoc k (a ++ b) = assoc k b.
Proof.
  induction a as [|[k' v'] a IH]; simpl; [done|].
  destruct (String.eqb k' k); [done|auto].
Qed.

Lemma assoc_filter_none {V} (k : string) (keep : list string)
    (a : list (string * V)) :
  in_list k keep = false ->
  assoc k (List.filter (fun kv => in_list (fst kv) keep) a) = None.
Proof.
  intros Hk. induction a as [|[k' v'] a IH]; simpl; [done|].
  destruct (in_list k' keep) eqn:E; simpl; [|exact IH].
  destruct (String.eqb_spec k' k) as [->|]; [congruence|exact IH].
Qed.

Lemma filter_allowed (t : string) (a : Attrs) :
  forallb (fun kv => attr_allowed t (fst kv))
    (List.filter
       (fun kv => in_list (fst kv)
                    (match assoc t KEEP_ATTRS with Some l => l | None => [] end))
       a) = true.
Proof.
  unfold attr_allowed.
  generalize (match assoc t KEEP_ATTRS with Some l => l | None => [] end).
  intros allowed.
  induction a as [|kv a IH]; cbn [List.filter forallb]; [done|].
  destruct (in_list (fst kv) allowed) eqn:E; [|exact IH].
  cbn [forallb]. by rewrite E, IH.
Qed.

(** The attributes step 4 leaves are allowed ones, and links and images
    carry their safety attributes. *)
Lemma clean_attrs_ok (t : string) (a : Attrs) :
  forallb (fun kv => attr_allowed t (fst kv)) (clean_attrs t a) = true /\
  hardened t (clean_attrs t a) = true.
Proof.
  unfold clean_attrs, hardened.
  set (allowed := match assoc t KEEP_ATTRS with Some l => l | None => [] end).
  set (kept := List.filter (fun kv => in_list (fst kv) allowed) a).
  assert (Hk : forallb (fun kv => attr_allowed t (fst kv)) kept = true)
    by apply filter_allowed.
  destruct (String.eqb t "a") eqn:Ea; destruct (String.eqb t "img") eqn:Ei.
  - apply String.eqb_eq in Ea, Ei. congruence.
  - apply String.eqb_eq in Ea. subst t.
    assert (Ht : assoc "target" kept = None)
      by (apply assoc_filter_none; reflexivity).
    assert (Hr : assoc "rel" kept = None)
      by (apply assoc_filter_none; reflexivity).
    cbn [andb].
    destruct (assoc "href" kept) as [[s|l]|] eqn:Eh.
    + destruct (truthy s) eqn:Es.
      * rewrite forallb_app, Hk, (assoc_app_some _ _ _ _ Eh), Es.
        rewrite !assoc_app_none by done. split; reflexivity.
      * rewrite Eh, Es. split; [exact Hk|reflexivity].
    + destruct l as [|x l].
      * rewrite Eh. split; [exact Hk|reflexivity].
      * rewrite forallb_app, Hk, (assoc_app_some _ _ _ _ Eh).
        rewrite !assoc_app_none by done. split; reflexivity.
    + rewrite Eh. split; [exact Hk|reflexivity].
  - apply String.eqb_eq in Ei. subst t.
    assert (Hl : assoc "loading" kept = None)
      by (apply assoc_filter_none; reflexivity).
    assert (Hp : assoc "referrerpolicy" kept = None)
      by (apply assoc_filter_none; reflexivity).
    cbn [andb]. rewrite forallb_app, Hk. rewrite !assoc_app_none by done.
    split; reflexivity.
  - cbn [andb]. split; [exact Hk|reflexivity].
Qed.

Lemma sanitize_clean (n : Node) : forallb clean (sanitize n) = true.
Proof.
  induction n as [s|s|t a ch IH] using Node_forest_ind; try reflexivity.
  cbn [sanitize]. destruct (in_list t KEEP_TAGS) eqn:Ek.
  - cbn [forallb clean]. rewrite Ek.
    destruct (clean_attrs_ok t a) as [-> ->].
    rewrite (forallb_flat_map clean sanitize ch IH). reflexivity.
  - by apply forallb_flat_map.
Qed.

Lemma rewrite_first_in_container (want : string -> Attrs -> bool)
    (doc doc' : list Node) (c : Node) :
  Forall (fun n => forall c n',
            rewrite_first want sanitize_container n = Some (c, n') ->
            container_clean (InElement c) = true) doc ->
  rewrite_first_in want sanitize_container doc = Some (c, doc') ->
  container_clean (InElement c) = true.
Proof.
  intros Hall. revert c doc'.
  induction Hall as [|x doc Hx Hdoc IH]; intros c doc'; simpl; [done|].
  destruct (rewrite_first want sanitize_container x) as [[c1 x']|] eqn:Ex.
  - intros [= <- <-]. eauto.
  - destruct (rewrite_first_in want sanitize_container doc) as [[c2 xs']|] eqn:Ed;
      [|done].
    intros [= <- <-]. eauto.
Qed.

Lemma rewrite_first_container (want : string -> Attrs -> bool) (n : Node) :
  forall c n',
    rewrite_first want sanitize_container n = Some (c, n') ->
    container_clean (InElement c) = true.
Proof.
  induction n as [s|s|t a ch IH] using Node_forest_ind; intros c n';
    try discriminate.
  cbn [rewrite_first]. rewrite rewrite_first_children.
  destruct (want t a).
  - intros [= <- <-]. cbn [sanitize_container container_clean].
    apply forallb_flat_map, Forall_forall. intros x _. apply sanitize_clean.
  - destruct (rewrite_first_in want sanitize_container ch) as [[c1 ch']|] eqn:E;
      [|done].
    intros [= <- <-]. by eapply rewrite_first_in_container.
Qed.

Lemma choose_container_clean (tests : list (string -> Attrs -> bool))
    (doc : list Node) :
  container_clean (fst (choose_container tests doc)) = true.
Proof.
  induction tests as [|want tests IH]; cbn [choose_container].
  - cbn [fst container_clean].
    apply forallb_flat_map, Forall_forall. intros x _. apply sanitize_clean.
  - destruct (rewrite_first_in want sanitize_container doc) as [[c doc']|] eqn:E;
      [|exact IH].
    cbn [fst]. eapply rewrite_first_in_container; [|exact E].
    apply Forall_forall. intros x _. apply rewrite_first_container.
Qed.

(** X8. Whatever the page, everything below the container that steps 1
    to 4 deliver is sanitized: every element is one of KEEP_TAGS, carries
    only attributes of its allow-list or the safety attributes, every link
    with a non-empty href has target _blank and rel noopener noreferrer,
    and every image has loading lazy and referrerpolicy no-referrer. (The
    container element itself keeps its own tag and attributes.) *)
Theorem prepare_container_clean (env : Env) (html : string)
    (container : Container) (soup : list Node) :
  prepare env html = Some (container, soup) ->
  container_clean container = true.
Proof.
  unfold prepare. destruct (html_parser env html) as [doc|]; [|done].
  destruct (drop_noise_all (flat_map remove_junk doc)) as [d2|]; [|done].
  intros H.
  apply (f_equal (fun o => match o with
                           | Some p => container_clean (fst p)
                           | None => true
                           end)) in H.
  cbv beta iota in H. cbn [fst] in H. rewrite <- H.
  apply choose_container_clean.
Qed.

(** The container of the small page. *)
Lemma prepare_container_clean_witness :
  exists container soup,
    prepare env_small small_html = Some (container, soup) /\
    container_clean container = true.
Proof.
  eexists _, _. split; [vm_compute; reflexivity|].
  eapply (prepare_container_clean env_small small_html).
  vm_compute. reflexivity.
Defined.

Lemma append_nil_r (s : string) : s +:+ "" = s.
Proof.
  induction s as [|c s IH]; [done|].
  change (String c (s +:+ "") = String c s). by rewrite IH.
Qed.

Lemma append_assoc (a b c : string) : (a +:+ b) +:+ c = a +:+ (b +:+ c).
Proof.
  induction a as [|x a IH]; [done|].
  change (String x ((a +:+ b) +:+ c) = String x (a +:+ (b +:+ c))).
  by rewrite IH.
Qed.

Lemma cat_app (l k : list string) : cat (l ++ k) = cat l +:+ cat k.
Proof.
  induction l as [|x l IH]; [done|].
  rewrite <- app_comm_cons, !cat_cons, IH. by rewrite append_assoc.
Qed.

Lemma get_text_all_cons (n : Node) (doc : list Node) :
  get_text_all (n :: doc) = get_text n +:+ get_text_all doc.
Proof. reflexivity. Qed.

Lemma get_text_all_app_eq (a b : list Node) :
  get_text_all (a ++ b) = get_text_all a +:+ get_text_all b.
Proof. unfold get_text_all. by rewrite map_app, cat_app. Qed.

Lemma sanitize_keeps_text (n : Node) :
  get_text_all (sanitize n) = get_text n /\
  paragraph_texts (sanitize n) = paragraph_texts [n].
Proof.
  induction n as [s|s|t a ch IH] using Node_forest_ind.
  - split; [|done]. cbn [sanitize]. rewrite get_text_all_cons.
    apply append_nil_r.
  - split; reflexivity.
  - assert (Hch : get_text_all (flat_map sanitize ch) = get_text_all ch
                  /\ paragraph_texts (flat_map sanitize ch) = paragraph_texts ch).
    { induction IH as [|x ch [Hx1 Hx2] Hch IH]; [done|].
      destruct IH as [I1 I2]. cbn [flat_map]. split.
      - by rewrite get_text_all_app_eq, Hx1, I1.
      - rewrite paragraph_texts_app, Hx2, I2.
        change (x :: ch) with ([x] ++ ch). by rewrite paragraph_texts_app. }
    destruct Hch as [H1 H2].
    cbn [sanitize]. destruct (in_list t KEEP_TAGS) eqn:Ek.
    + split.
      * rewrite get_text_all_cons. cbn [get_text].
        fold (get_text_all (flat_map sanitize ch)). rewrite H1.
        apply append_nil_r.
      * rewrite !paragraph_texts_elem, H1, H2. reflexivity.
    + split; [exact H1|].
      rewrite paragraph_texts_elem, H2.
      destruct (String.eqb_spec t "p") as [->|]; [discriminate|done].
Qed.

(** X9. Step 4 loses no text: unwrapping foreign tags and stripping
    attributes leaves the plain text of a document, and the text of each
    of its paragraphs, exactly as they were. *)
Theorem sanitize_preserves_text (doc : list Node) :
  get_text_all (flat_map sanitize doc) = get_text_all doc /\
  paragraph_texts (flat_map sanitize doc) = paragraph_texts doc /\
  (forall n, get_text (sanitize_container n) = get_text n).
Proof.
  assert (H : forall d, get_text_all (flat_map sanitize d) = get_text_all d
                        /\ paragraph_texts (flat_map sanitize d)
                           = paragraph_texts d).
  { induction d as [|x d [I1 I2]]; [done|].
    destruct (sanitize_keeps_text x) as [Hx1 Hx2]. cbn [flat_map]. split.
    - by rewrite get_text_all_app_eq, Hx1, I1.
    - rewrite paragraph_texts_app, Hx2, I2.
      change (x :: d) with ([x] ++ d). by rewrite paragraph_texts_app. }
  split; [apply H|]. split; [apply H|].
  intros [s|s|t a ch]; try reflexivity.
  cbn [sanitize_container get_text].
  fold (get_text_all (flat_map sanitize ch)). fold (get_text_all ch).
  apply H.
Qed.

Lemma remove_junk_free (n : Node) :
  forallb (free_of JUNK_TAGS) (remove_junk n) = true.
Proof.
  induction n as [s|s|t a ch IH] using Node_forest_ind; try reflexivity.
  cbn [remove_junk]. destruct (in_list t JUNK_TAGS) eqn:E; [done|].
  cbn [forallb free_of]. rewrite E.
  rewrite (forallb_flat_map (free_of JUNK_TAGS) remove_junk ch IH). done.
Qed.

Lemma remove_junk_fixed (n : Node) :
  free_of JUNK_TAGS n = true -> remove_junk n = [n].
Proof.
  induction n as [s|s|t a ch IH] using Node_forest_ind; try reflexivity.
  cbn [free_of remove_junk]. intros H.
  apply andb_prop in H as [Ht Hch]. apply negb_true_iff in Ht. rewrite Ht.
  do 2 f_equal. clear Ht.
  induction IH as [|x ch Hx Hall IHch]; [done|].
  cbn [forallb] in Hch. apply andb_prop in Hch as [H1 H2].
  cbn [flat_map]. rewrite (Hx H1), (IHch H2). done.
Qed.

(** X10. Step 1 removes the junk for good: after it no script, style,
    nav, footer, aside, header, noscript, form, button, input, select or
    textarea element is left at any depth, and running it again changes
    nothing. *)
Theorem remove_junk_complete (doc : list Node) :
  forallb (free_of JUNK_TAGS) (flat_map remove_junk doc) = true /\
  flat_map remove_junk (flat_map remove_junk doc) = flat_map remove_junk doc.
Proof.
  assert (Hfree : forallb (free_of JUNK_TAGS) (flat_map remove_junk doc) = true).
  { apply forallb_flat_map, Forall_forall. intros x _. apply remove_junk_free. }
  split; [exact Hfree|].
  revert Hfree. generalize (flat_map remove_junk doc). intros d.
  induction d as [|x d IH]; [done|].
  cbn [forallb flat_map]. intros H. apply andb_prop in H as [H1 H2].
  rewrite (remove_junk_fixed x H1), (IH H2). done.
Qed.

(** ** Source processing, continued *)

Lemma fetch_full_text_value (env : Env) (source : Source) (item : Item)
    (w : World) :
  let t := fst (fetch_full_text env source item w) in
  (t = "" \/ (500 < String.length t)%nat) /\
  (bypass_paywall source = false -> t = "").
Proof.
  unfold fetch_full_text. destruct (bypass_paywall source); [|by split; auto].
  rewrite bind_run.
  destruct (bypass_does env (i_url item) default_timeout false w)
    as (r & tr & E & _ & _ & Hr).
  rewrite E. cbn [fst snd]. unfold sleep_uniform. run_m.
  split; [|done]. destruct r as [t|]; [right; by apply Hr|by left].
Qed.

Lemma add_article_fresh (now : string) (a : Database.ArticleArgs)
    (db : Database.Store) :
  Database.url_exists db (Database.a_url a) = false ->
  Database.add_article now a db
  = (Some (Database.next_rowid db),
     {| Database.articles :=
          Database.articles db
          ++ [Database.new_row (Database.next_rowid db) now a];
        Database.articles_fts :=
          Database.articles_fts db
          ++ [Database.fts_row
                (Database.new_row (Database.next_rowid db) now a)];
        Database.sequence := Database.next_rowid db |}).
Proof. intros E. unfold Database.add_article. by rewrite E. Qed.

(** One iteration skips the candidate, raises before any write, or
    appends one row. *)
Lemma process_item_rows (env : Env) (source : Source) (dir : string)
    (enrich : bool) (item : Item) (w : World) :
  let res := process_item env source dir enrich item w in
  (fst res = Ok 0%Z /\ w_db (snd res) = w_db w) \/
  (fst res = Exn /\ w_db (snd res) = w_db w) \/
  (exists now a,
     fst res = Ok 1%Z /\
     Database.url_exists (w_db w) (Database.a_url a) = false /\
     w_db (snd res) = snd (Database.add_article now a (w_db w)) /\
     Database.a_source_slug a = slug source /\
     Database.a_source_name a = name source /\
     Database.a_category a = category source /\
     (Database.a_article_text a = ""
      \/ (500 < String.length (Database.a_article_text a))%nat) /\
     (bypass_paywall source = false -> Database.a_article_text a = "")).
Proof.
  intros res. subst res. unfold process_item.
  rewrite bind_run.
  set (u := fst (resolve_redirect_url env (i_url item) 10 w)).
  set (w1 := snd (resolve_redirect_url env (i_url item) 10 w)).
  assert (Hdb1 : w_db w1 = w_db w) by apply keeps_db_resolve.
  set (item1 := if negb (String.eqb u (i_url item)) then set_url u item else item).
  assert (Hu1 : i_url item1 = u) by apply resolved_item_url.
  rewrite bind_run. cbn [get_db fst snd]. rewrite Hu1, Hdb1.
  destruct (Database.url_exists (w_db w) u) eqn:Ex;
    [left; by rewrite <- Hdb1|right].
  rewrite bind_run.
  set (item2 := fst (enrich_item env enrich item1 w1)).
  set (w2 := snd (enrich_item env enrich item1 w1)).
  assert (Hdb2 : w_db w2 = w_db w)
    by (unfold w2; rewrite keeps_db_enrich_item; done).
  assert (Hu2 : i_url item2 = u)
    by (unfold item2; rewrite enrich_item_url; exact Hu1).
  rewrite bind_run.
  set (txt := fst (fetch_full_text env source item2 w2)).
  set (w3 := snd (fetch_full_text env source item2 w2)).
  assert (Hdb3 : w_db w3 = w_db w)
    by (unfold w3; rewrite keeps_db_fetch_full_text; done).
  destruct (fetch_full_text_value env source item2 w2) as [Ht1 Ht2].
  fold txt in Ht1, Ht2.
  rewrite bind_run.
  set (dl := if truthy (i_preview_image_url item2)
             then download_image env (i_preview_image_url item2) dir (slug source)
             else ret (Ok None)).
  assert (Hdb4 : w_db (snd (dl w3)) = w_db w).
  { unfold dl. destruct (truthy _); [rewrite keeps_db_download_image|]; done. }
  destruct (fst (dl w3)) as [img|] eqn:Edl; [right|left; by split].
  unfold db_add_article.
  run_m. rewrite Hdb4.
  exists (clock env (w_log (snd (dl w3)))), (article_args source item2 txt img).
  assert (Efresh : Database.url_exists (w_db w)
             (Database.a_url (article_args source item2 txt img))
           = false) by (cbn [article_args Database.a_url]; congruence).
  rewrite (add_article_fresh _ _ _ Efresh). cbn [fst snd].
  pose proof (next_rowid_pos (w_db w)) as Hpos.
  destruct (Z.eqb_spec (Database.next_rowid (w_db w)) 0) as [E0|_]; [lia|].
  repeat split; try done.
Qed.

Lemma new_row_written_for (source : Source) (rid : Z) (now : string)
    (a : Database.ArticleArgs) :
  Database.a_source_slug a = slug source ->
  Database.a_source_name a = name source ->
  Database.a_category a = category source ->
  (Database.a_article_text a = ""
   \/ (500 < String.length (Database.a_article_text a))%nat) ->
  (bypass_paywall source = false -> Database.a_article_text a = "") ->
  written_for source (Database.new_row rid now a).
Proof. intros. repeat split; simpl; auto. Qed.

(** The value a call returned, when it returned. *)
Lemma process_items_rows (env : Env) (source : Source) (dir : string)
    (enrich : bool) (items : list Item) :
  forall (n : Z) (w : World),
    exists added,
      Database.articles
        (w_db (snd (process_items env source dir enrich items n w)))
      = Database.articles (w_db w) ++ added /\
      (forall m, fst (process_items env source dir enrich items n w) = Ok m ->
                 m = (n + Z.of_nat (List.length added))%Z) /\
      (List.length added <= List.length items)%nat /\
      Forall (written_for source) added.
Proof.
  induction items as [|x items IH]; intros n w.
  - exists []. rewrite app_nil_r. split; [reflexivity|].
    split; [intros m [= <-]; cbn [List.length]; lia|].
    split; [simpl; lia|constructor].
  - rewrite process_items_cons.
    set (r := process_item env source dir enrich x w).
    destruct (process_item_rows env source dir enrich x w)
      as [[H0 Hdb]|[[H0 Hdb]|(now & a & H1 & Hf & Hdb & S1 & S2 & S3 & S4 & S5)]];
      fold r in H0 || fold r in H1; fold r in Hdb.
    + rewrite H0.
      destruct (IH (n + 0)%Z (snd r)) as (added & Ha & Hn & Hl & Hw).
      exists added. rewrite Ha, Hdb. split; [done|].
      split; [intros m Hm; rewrite (Hn m Hm); lia|].
      split; [simpl; lia|done].
    + rewrite H0. exists []. cbn [snd]. rewrite Hdb, app_nil_r.
      split; [done|]. split; [intros m [=]|].
      split; [simpl; lia|constructor].
    + rewrite H1.
      destruct (IH (n + 1)%Z (snd r)) as (added & Ha & Hn & Hl & Hw).
      rewrite (add_article_fresh _ _ _ Hf) in Hdb. cbn [snd] in Hdb.
      exists (Database.new_row (Database.next_rowid (w_db w)) now a :: added).
      rewrite Ha, Hdb. cbn [Database.articles].
      rewrite <- app_assoc. split; [done|].
      split; [intros m Hm; rewrite (Hn m Hm); cbn [List.length]; lia|].
      split; [simpl; lia|].
      constructor; [by apply new_row_written_for|exact Hw].
Qed.

Lemma process_source_rows (env : Env) (source : Source)
    (dir : string) (enrich : bool) (w : World) :
  exists added,
    Database.articles (w_db (snd (process_source env source dir enrich w)))
    = Database.articles (w_db w) ++ added /\
    (forall n, fst (process_source env source dir enrich w) = Ok n ->
               n = Z.of_nat (List.length added)) /\
    Forall (written_for source) added.
Proof.
  unfold process_source. destruct (rss_urls source) as [|f fs] eqn:E.
  - exists []. rewrite app_nil_r.
    split; [reflexivity|]. split; [by intros n [= <-]|constructor].
  - rewrite bind_run.
    set (c := collect_items env (f :: fs) w).
    destruct (process_items_rows env source dir enrich (dedup (fst c)) 0 (snd c))
      as (added & Ha & Hn & _ & Hw).
    exists added. rewrite Ha. unfold c.
    rewrite keeps_db_collect_items.
    split; [reflexivity|].
    split; [intros n Hok; rewrite (Hn n Hok); lia|exact Hw].
Qed.

(** X11. The count a pass returns is the number of rows it wrote: the
    article table after [process_source] is the table before followed by
    the new rows, and when the pass returns, the count it returns is the
    number of these rows; no existing row is changed or removed, also when
    an image download raises out of the pass; and each new
    row carries the source's slug, name and category, with a full text
    that is empty (always so without bypass) or longer than 500
    characters. *)
Theorem process_source_appends_rows (env : Env) (source : Source)
    (dir : string) (enrich : bool) (w : World) :
  exists added,
    Database.articles (w_db (snd (process_source env source dir enrich w)))
    = Database.articles (w_db w) ++ added /\
    (forall n, fst (process_source env source dir enrich w) = Ok n ->
               n = Z.of_nat (List.length added)) /\
    Forall (written_for source) added.
Proof. apply process_source_rows. Qed.

Lemma add_article_wf (now : string) (a : Database.ArticleArgs)
    (db : Database.Store) :
  well_formed db -> well_formed (snd (Database.add_article now a db)).
Proof.
  intros (Hu & Hf & Hr). split; [|split].
  - by apply add_article_unique.
  - by apply add_article_fts_in_sync.
  - by apply add_article_rowids_ok.
Qed.

Lemma process_item_wf (env : Env) (source : Source) (dir : string)
    (enrich : bool) (item : Item) (w : World) :
  well_formed (w_db w) ->
  well_formed (w_db (snd (process_item env source dir enrich item w))).
Proof.
  intros Hwf.
  destruct (process_item_rows env source dir enrich item w)
    as [[_ ->]|[[_ ->]|(now & a & _ & _ & -> & _)]];
    [done|done|by apply add_article_wf].
Qed.

Lemma process_items_wf (env : Env) (source : Source) (dir : string)
    (enrich : bool) (items : list Item) :
  forall (n : Z) (w : World),
    well_formed (w_db w) ->
    well_formed (w_db (snd (process_items env source dir enrich items n w))).
Proof.
  induction items as [|x items IH]; intros n w Hwf; [exact Hwf|].
  rewrite process_items_cons.
  pose proof (process_item_wf env source dir enrich x w Hwf) as Hx.
  destruct (fst (process_item env source dir enrich x w)); [by apply IH|exact Hx].
Qed.

Lemma process_source_wf (env : Env) (source : Source) (dir : string)
    (enrich : bool) (w : World) :
  well_formed (w_db w) ->
  well_formed (w_db (snd (process_source env source dir enrich w))).
Proof.
  intros Hwf. unfold process_source.
  destruct (rss_urls source); [exact Hwf|].
  rewrite bind_run. apply process_items_wf.
  by rewrite keeps_db_collect_items.
Qed.

(** X12. A pass keeps the store well formed, whatever the feeds and the
    servers answer and however the pass ends: after [process_source],
    returned or raised out of, URLs are still distinct, the
    full-text table still mirrors the article table row for row, and
    rowids are still distinct and within the AUTOINCREMENT counter. *)
Theorem process_source_well_formed (env : Env) (source : Source)
    (dir : string) (enrich : bool) (w : World) :
  well_formed (w_db w) ->
  well_formed (w_db (snd (process_source env source dir enrich w))).
Proof. apply process_source_wf. Qed.

(** A pass over the small site from the empty store. *)
Lemma process_source_well_formed_witness :
  well_formed (w_db fresh_world) /\
  well_formed
    (w_db (snd (process_source env_site source_heavy "images" true
                  fresh_world))).
Proof.
  split; [exact empty_well_formed|].
  exact (process_source_well_formed env_site source_heavy "images" true
           fresh_world empty_well_formed).
Defined.

(** ** A run over all sources *)

Lemma process_source_grows (env : Env) (source : Source) (dir : string)
    (enrich : bool) (w : World) :
  grows (w_db w) (w_db (snd (process_source env source dir enrich w))).
Proof.
  intros v Hv. unfold process_source.
  destruct (rss_urls source); [exact Hv|].
  rewrite bind_run. apply process_items_grows.
  by rewrite keeps_db_collect_items.
Qed.

Lemma covered_grows (env : Env) (source : Source) (db db' : Database.Store) :
  grows db db' -> covered env source db -> covered env source db'.
Proof. intros Hg Hc w w' item Hin. apply Hg. by eapply Hc. Qed.

Lemma grows_refl (db : Database.Store) : grows db db.
Proof. by intros v. Qed.

Lemma grows_trans (a b c : Database.Store) :
  grows a b -> grows b c -> grows a c.
Proof. intros H1 H2 v Hv. auto. Qed.

(** After a pass that returned, the store holds all the candidates of
    the source. *)
Lemma process_source_covers (env : Env) (source : Source) (dir : string)
    (enrich : bool) (w : World) (n : Z) :
  stable_feeds env -> stable_redirects env ->
  fst (process_source env source dir enrich w) = Ok n ->
  covered env source (w_db (snd (process_source env source dir enrich w))).
Proof.
  intros Hf Hr Hok w1 w' item Hin.
  assert (Hcase : rss_urls source = [] \/ rss_urls source <> [])
    by (destruct (rss_urls source); [left|right]; done).
  destruct Hcase as [E|E].
  - rewrite E in Hin. destruct Hin.
  - rewrite process_source_loop in Hok |- * by exact E.
    rewrite (collect_items_stable env _ Hf w1 w) in Hin.
    by eapply process_items_all_present.
Qed.

(** Over a store that holds all its candidates a pass returns, and adds
    nothing. *)
Lemma process_source_skips (env : Env) (source : Source) (dir : string)
    (enrich : bool) (w : World) :
  stable_redirects env ->
  covered env source (w_db w) ->
  fst (process_source env source dir enrich w) = Ok 0%Z /\
  w_db (snd (process_source env source dir enrich w)) = w_db w.
Proof.
  intros Hr Hc.
  assert (Hcase : rss_urls source = [] \/ rss_urls source <> [])
    by (destruct (rss_urls source); [left|right]; done).
  destruct Hcase as [E|E].
  - unfold process_source. rewrite E. done.
  - rewrite process_source_loop by exact E.
    set (c := collect_items env (rss_urls source) w).
    destruct (process_items_all_skipped env source dir enrich
                (dedup (fst c)) Hr 0 (snd c)) as [Hn Hdb].
    + intros item w' Hin. unfold c. rewrite keeps_db_collect_items.
      by eapply Hc.
    + split; [exact Hn|]. rewrite Hdb. apply keeps_db_collect_items.
Qed.

Lemma sleep_db (s : Z) (w : World) : w_db (snd (sleep s w)) = w_db w.
Proof. reflexivity. Qed.

(** One turn of the loop over a site with a discovery method: the
    [try] block when the pass returns, the handler when it raises. *)
Lemma check_sites_step (env : Env) (running : list Event -> bool)
    (dir : string) (enrich : bool) (site : Site) (rest : list Site)
    (total : Z) (rw : RunWorld) :
  running (w_log (rw_world rw)) = true ->
  has_discovery site = true ->
  exists w2,
    w_db w2
    = w_db (snd (process_source env (site_source site) dir enrich
                   (rw_world rw))) /\
    check_sites env running dir enrich (site :: rest) total rw
    = match fst (process_source env (site_source site) dir enrich
                   (rw_world rw)) with
      | Ok new =>
        check_sites env running dir enrich rest (total + new)
          {| rw_world := w2;
             rw_checks :=
               SourceChecks.set_last_check
                 (clock env
                    (w_log (snd (process_source env (site_source site) dir
                                   enrich (rw_world rw)))))
                 (slug (site_source site)) None (rw_checks rw);
             rw_errors := rw_errors rw |}
      | Exn =>
        check_sites env running dir enrich rest total
          {| rw_world := w2;
             rw_checks := rw_checks rw;
             rw_errors := rw_errors rw ++ [name (site_source site)] |}
      end.
Proof.
  intros Hrun Hd. cbn [check_sites]. rewrite Hrun, Hd. cbn [negb].
  destruct (process_source env (site_source site) dir enrich (rw_world rw))
    as [res w1] eqn:E. cbn [fst snd].
  exists (if running (w_log w1) && match rest with [] => false | _ => true end
          then snd (sleep 2 w1) else w1).
  split; [by destruct (running (w_log w1) && _)|].
  by destruct res.
Qed.

(** The error lines of a run are only added to. *)
Lemma check_sites_errors (env : Env) (running : list Event -> bool)
    (dir : string) (enrich : bool) (sites : list Site) :
  forall (total : Z) (rw : RunWorld),
    exists failed,
      rw_errors (snd (check_sites env running dir enrich sites total rw))
      = rw_errors rw ++ failed /\
      Forall (fun nm => exists site,
                In site sites /\ has_discovery site = true /\
                nm = name (site_source site)) failed.
Proof.
  induction sites as [|site rest IH]; intros total rw.
  - exists []. by rewrite app_nil_r.
  - destruct (running (w_log (rw_world rw))) eqn:Hrun.
    2:{ exists []. rewrite app_nil_r. cbn [check_sites]. by rewrite Hrun. }
    destruct (has_discovery site) eqn:Hd.
    + destruct (check_sites_step env running dir enrich site rest total rw
                  Hrun Hd) as (w2 & _ & ->).
      destruct (fst (process_source env (site_source site) dir enrich
                       (rw_world rw))) as [new|].
      * destruct (IH (total + new)%Z
                    {| rw_world := w2;
                       rw_checks :=
                         SourceChecks.set_last_check
                           (clock env
                              (w_log (snd (process_source env (site_source site)
                                             dir enrich (rw_world rw)))))
                           (slug (site_source site)) None (rw_checks rw);
                       rw_errors := rw_errors rw |}) as (failed & -> & Hall).
        exists failed. split; [done|].
        eapply Forall_impl; [exact Hall|].
        intros nm (s' & Hin & Hd' & ->). exists s'. split; [by right|done].
      * destruct (IH total
                    {| rw_world := w2; rw_checks := rw_checks rw;
                       rw_errors := rw_errors rw ++ [name (site_source site)] |})
          as (failed & -> & Hall).
        exists (name (site_source site) :: failed). cbn [rw_errors].
        split; [by rewrite <- app_assoc|].
        constructor; [exists site; split; [by left|done]|].
        eapply Forall_impl; [exact Hall|].
        intros nm (s' & Hin & Hd' & ->). exists s'. split; [by right|done].
    + cbn [check_sites]. rewrite Hrun, Hd. cbn [negb].
      destruct (IH total rw) as (failed & -> & Hall).
      exists failed. split; [done|].
      eapply Forall_impl; [exact Hall|].
      intros nm (s' & Hin & Hd' & ->). exists s'. split; [by right|done].
Qed.

Lemma app_eq_self {A} (l k : list A) : l ++ k = l -> k = [].
Proof.
  intros H. apply (app_inv_head l). by rewrite app_nil_r.
Qed.

(** A complete pass in which no source raised leaves every visited source
    covered; any pass only adds URLs. *)
Lemma check_sites_covers (env : Env) (running : list Event -> bool)
    (dir : string) (enrich : bool) (sites : list Site) :
  stable_feeds env -> stable_redirects env -> never_stopped running ->
  forall (total : Z) (rw : RunWorld),
    let rw' := snd (check_sites env running dir enrich sites total rw) in
    grows (run_db rw) (run_db rw') /\
    (rw_errors rw' = rw_errors rw ->
     Forall (fun site => has_discovery site = true ->
                         covered env (site_source site) (run_db rw')) sites).
Proof.
  intros Hf Hr Hrun. induction sites as [|site rest IH]; intros total rw.
  - split; [apply grows_refl|constructor].
  - destruct (has_discovery site) eqn:Hd.
    + destruct (check_sites_step env running dir enrich site rest total rw
                  (Hrun _) Hd) as (w2 & Hdb & ->).
      cbv zeta.
      assert (Hg1 : grows (run_db rw) (w_db w2)).
      { rewrite Hdb. apply process_source_grows. }
      destruct (fst (process_source env (site_source site) dir enrich
                       (rw_world rw))) as [new|] eqn:Eps.
      * match goal with
        | |- context [check_sites _ _ _ _ rest ?t ?r] =>
          destruct (IH t r) as [Hg Hall]
        end.
        split; [eapply grows_trans; [exact Hg1|exact Hg]|].
        intros Herr. constructor; [|by apply Hall].
        intros _. eapply covered_grows; [exact Hg|].
        unfold run_db. cbn [rw_world]. rewrite Hdb.
        by eapply process_source_covers.
      * match goal with
        | |- context [check_sites _ _ _ _ rest ?t ?r] =>
          destruct (IH t r) as [Hg _];
          destruct (check_sites_errors env running dir enrich rest t r)
            as (failed & Herrs & _)
        end.
        split; [eapply grows_trans; [exact Hg1|exact Hg]|].
        rewrite Herrs. cbn [rw_errors]. rewrite <- app_assoc.
        intros Herr. apply app_eq_self in Herr. discriminate Herr.
    + cbn [check_sites]. rewrite Hrun, Hd. cbn [negb].
      destruct (IH total rw) as [Hg Hall]. split; [exact Hg|].
      intros Herr.
      constructor; [intros Hx; congruence|by apply Hall].
Qed.

(** Over a store that covers every source to visit, a pass counts nothing,
    leaves the article table alone and logs no error, stopped or not. *)
Lemma check_sites_skips (env : Env) (running : list Event -> bool)
    (dir : string) (enrich : bool) (sites : list Site) :
  stable_redirects env ->
  forall (total : Z) (rw : RunWorld),
    Forall (fun site => has_discovery site = true ->
                        covered env (site_source site) (run_db rw)) sites ->
    fst (check_sites env running dir enrich sites total rw) = total /\
    run_db (snd (check_sites env running dir enrich sites total rw))
    = run_db rw /\
    rw_errors (snd (check_sites env running dir enrich sites total rw))
    = rw_errors rw.
Proof.
  intros Hr. induction sites as [|site rest IH]; intros total rw Hall;
    [done|].
  inversion Hall as [|? ? Hsite Hrest]; subst.
  destruct (running (w_log (rw_world rw))) eqn:Hrun;
    [|cbn [check_sites]; rewrite Hrun; done].
  destruct (has_discovery site) eqn:Hd.
  - destruct (check_sites_step env running dir enrich site rest total rw
                Hrun Hd) as (w2 & Hdb & ->).
    destruct (process_source_skips env (site_source site) dir enrich
                (rw_world rw) Hr (Hsite eq_refl)) as [H0 Hsame].
    rewrite H0. rewrite Hsame in Hdb.
    match goal with
    | |- context [check_sites _ _ _ _ rest ?t ?r] =>
      destruct (IH t r) as (Hn & Hdb' & Herr)
    end.
    { unfold run_db. cbn [rw_world]. rewrite Hdb. exact Hrest. }
    rewrite Hn, Hdb', Herr. unfold run_db. cbn [rw_world rw_errors].
    split; [lia|]. split; [exact Hdb|done].
  - cbn [check_sites]. rewrite Hrun, Hd. cbn [negb]. by apply IH.
Qed.



Lemma check_sites_rows (env : Env) (running : list Event -> bool)
    (dir : string) (enrich : bool) (sites : list Site) :
  forall (total : Z) (rw : RunWorld),
    let r := check_sites env running dir enrich sites total rw in
    exists added,
      Database.articles (run_db (snd r))
      = Database.articles (run_db rw) ++ added /\
      (total <= fst r <= total + Z.of_nat (List.length added))%Z /\
      (rw_errors (snd r) = rw_errors rw ->
       fst r = (total + Z.of_nat (List.length added))%Z) /\
      Forall (fun r => exists site,
                In site sites /\ has_discovery site = true /\
                written_for (site_source site) r) added.
Proof.
  induction sites as [|site rest IH]; intros total rw; cbv zeta.
  - exists []. rewrite app_nil_r. cbn [check_sites fst snd List.length].
    split; [reflexivity|]. split; [lia|]. split; [intros _; lia|constructor].
  - destruct (running (w_log (rw_world rw))) eqn:Hrun.
    2:{ exists []. rewrite app_nil_r. cbn [check_sites]. rewrite Hrun.
        cbn [negb fst snd List.length].
        split; [reflexivity|]. split; [lia|].
        split; [intros _; lia|constructor]. }
    destruct (has_discovery site) eqn:Hd.
    + destruct (check_sites_step env running dir enrich site rest total rw
                  Hrun Hd) as (w2 & Hdb & ->).
      destruct (process_source_rows env (site_source site) dir enrich
                  (rw_world rw)) as (a1 & Ha1 & Hn1 & Hw1).
      assert (Hsite : Forall (fun r => exists site0,
                In site0 (site :: rest) /\ has_discovery site0 = true /\
                written_for (site_source site0) r) a1).
      { eapply Forall_impl; [exact Hw1|]. intros r Hr.
        exists site. split; [by left|done]. }
      destruct (fst (process_source env (site_source site) dir enrich
                       (rw_world rw))) as [new|] eqn:Eps.
      * match goal with
        | |- context [check_sites _ _ _ _ rest ?t ?r] =>
          destruct (IH t r) as (a2 & Ha2 & Hb2 & Hn2 & Hw2)
        end.
        cbv zeta in Ha2, Hb2, Hn2. cbn [rw_errors] in Hn2.
        pose proof (Hn1 new eq_refl) as Hnew.
        exists (a1 ++ a2). split; [|split; [|split]].
        -- rewrite Ha2. unfold run_db. cbn [rw_world]. rewrite Hdb, Ha1.
           by rewrite app_assoc.
        -- rewrite length_app. lia.
        -- intros Herr. rewrite (Hn2 Herr), length_app. lia.
        -- apply Forall_app. split; [exact Hsite|].
           eapply Forall_impl; [exact Hw2|].
           intros r (site' & Hin & Hd' & Hr).
           exists site'. split; [by right|done].
      * match goal with
        | |- context [check_sites _ _ _ _ rest ?t ?r] =>
          destruct (IH t r) as (a2 & Ha2 & Hb2 & _ & Hw2);
          destruct (check_sites_errors env running dir enrich rest t r)
            as (failed & Herrs & _)
        end.
        cbv zeta in Ha2, Hb2.
        exists (a1 ++ a2). split; [|split; [|split]].
        -- rewrite Ha2. unfold run_db. cbn [rw_world]. rewrite Hdb, Ha1.
           by rewrite app_assoc.
        -- rewrite length_app. lia.
        -- rewrite Herrs. cbn [rw_errors]. rewrite <- app_assoc.
           intros Herr. apply app_eq_self in Herr. discriminate Herr.
        -- apply Forall_app. split; [exact Hsite|].
           eapply Forall_impl; [exact Hw2|].
           intros r (site' & Hin & Hd' & Hr).
           exists site'. split; [by right|done].
    + cbn [check_sites]. rewrite Hrun, Hd. cbn [negb].
      destruct (IH total rw) as (a2 & Ha2 & Hb2 & Hn2 & Hw2).
      exists a2. split; [done|]. split; [done|]. split; [done|].
      eapply Forall_impl; [exact Hw2|].
      intros r (site' & Hin & Hd' & Hr).
      exists site'. split; [by right|done].
Qed.

Lemma selected_sites_in (config_sites : list Site)
    (only_source : option string) (site : Site) :
  In site (selected_sites config_sites only_source) ->
  In site config_sites /\ site_enabled site = true /\
  truthy (slug (site_source site)) = true /\
  (truthy_opt only_source = true ->
   only_source = Some (slug (site_source site))).
Proof.
  unfold selected_sites. intros Hin.
  destruct (truthy_opt only_source) eqn:Ho.
  - apply filter_In in Hin as [Hin Hs].
    apply filter_In in Hin as [Hin Ht].
    apply filter_In in Hin as [Hin He].
    repeat (split; [done|]). intros _.
    destruct only_source as [o|]; [|discriminate Ho].
    apply String.eqb_eq in Hs. by rewrite Hs.
  - apply filter_In in Hin as [Hin Ht].
    apply filter_In in Hin as [Hin He].
    repeat (split; [done|]). discriminate.
Qed.


(** A source whose second article names a malformed image: the run
    stores the first article, logs the error and reports no new
    article. *)
Lemma check_all_sources_counts_rows_example :
  let r := check_all_sources env_second_image always_running
             [site_plain] "images" true None fresh_run in
  fst r = 0%Z /\
  map Database.url (Database.articles (run_db (snd r))) = [example_url] /\
  rw_errors (snd r) = ["Example"] /\
  rw_checks (snd r) = [].
Proof. vm_compute. repeat split. Qed.

(** *** Checkpoints of a run *)

Lemma set_last_check_keeps_some (now s : string) (ts : option string)
    (rows : list SourceChecks.Check) (s' : string) :
  is_Some (SourceChecks.get_last_check rows s') ->
  is_Some (SourceChecks.get_last_check
             (SourceChecks.set_last_check now s ts rows) s').
Proof.
  intros Hs. unfold SourceChecks.set_last_check.
  destruct (String.eqb_spec s' s) as [->|Hne].
  - rewrite upsert_lookup. by eexists.
  - unfold SourceChecks.get_last_check. by rewrite upsert_other.
Qed.

Lemma check_sites_keeps_checkpoints (env : Env) (running : list Event -> bool)
    (dir : string) (enrich : bool) (sites : list Site) (s : string) :
  forall (total : Z) (rw : RunWorld),
    is_Some (SourceChecks.get_last_check (rw_checks rw) s) ->
    is_Some (SourceChecks.get_last_check
               (rw_checks (snd (check_sites env running dir enrich sites
                                  total rw))) s).
Proof.
  induction sites as [|site rest IH]; intros total rw Hs; [done|].
  destruct (running (w_log (rw_world rw))) eqn:Hrun;
    [|cbn [check_sites]; rewrite Hrun; done].
  destruct (has_discovery site) eqn:Hd.
  - destruct (check_sites_step env running dir enrich site rest total rw
                Hrun Hd) as (w2 & _ & ->).
    destruct (fst (process_source env (site_source site) dir enrich
                     (rw_world rw))); apply IH; cbn [rw_checks]; [|done].
    by apply set_last_check_keeps_some.
  - cbn [check_sites]. rewrite Hrun, Hd. cbn [negb]. by apply IH.
Qed.

(** Every visited site has a checkpoint or an error line. *)
Lemma check_sites_checkpoints (env : Env) (running : list Event -> bool)
    (dir : string) (enrich : bool) (sites : list Site) :
  never_stopped running ->
  forall (total : Z) (rw : RunWorld),
    let rw' := snd (check_sites env running dir enrich sites total rw) in
    exists failed,
      rw_errors rw' = rw_errors rw ++ failed /\
      Forall (fun site =>
                has_discovery site = true ->
                is_Some (SourceChecks.get_last_check (rw_checks rw')
                           (slug (site_source site))) \/
                In (name (site_source site)) failed) sites.
Proof.
  intros Hrun. induction sites as [|site rest IH]; intros total rw; cbv zeta.
  - exists []. by rewrite app_nil_r.
  - destruct (has_discovery site) eqn:Hd.
    + destruct (check_sites_step env running dir enrich site rest total rw
                  (Hrun _) Hd) as (w2 & _ & ->).
      destruct (fst (process_source env (site_source site) dir enrich
                       (rw_world rw))) as [new|].
      * match goal with
        | |- context [check_sites _ _ _ _ rest ?t ?r] =>
          destruct (IH t r) as (failed & Herrs & Hall);
          pose proof (check_sites_keeps_checkpoints env running dir enrich
                        rest (slug (site_source site)) t r) as Hkeep
        end.
        cbv zeta in Herrs, Hall. cbn [rw_errors rw_checks] in Herrs, Hkeep.
        exists failed. split; [exact Herrs|].
        constructor; [|exact Hall].
        intros _. left. apply Hkeep.
        unfold SourceChecks.set_last_check. rewrite upsert_lookup. by eexists.
      * match goal with
        | |- context [check_sites _ _ _ _ rest ?t ?r] =>
          destruct (IH t r) as (failed & Herrs & Hall)
        end.
        cbv zeta in Herrs, Hall. cbn [rw_errors] in Herrs.
        exists (name (site_source site) :: failed).
        split; [by rewrite Herrs, <- app_assoc|].
        constructor; [intros _; right; by left|].
        eapply Forall_impl; [exact Hall|].
        intros s' Hs' Hd'. destruct (Hs' Hd') as [H|H]; [by left|right; by right].
    + cbn [check_sites]. rewrite Hrun, Hd. cbn [negb].
      destruct (IH total rw) as (failed & Herrs & Hall).
      exists failed. split; [exact Herrs|].
      constructor; [intros Hx; congruence|exact Hall].
Qed.

Lemma check_sites_other_checkpoints (env : Env) (running : list Event -> bool)
    (dir : string) (enrich : bool) (sites : list Site) (s : string) :
  (forall site, In site sites -> has_discovery site = true ->
                slug (site_source site) <> s) ->
  forall (total : Z) (rw : RunWorld),
    SourceChecks.get_last_check
      (rw_checks (snd (check_sites env running dir enrich sites total rw))) s
    = SourceChecks.get_last_check (rw_checks rw) s.
Proof.
  induction sites as [|site rest IH]; intros Hother total rw; [done|].
  destruct (running (w_log (rw_world rw))) eqn:Hrun;
    [|cbn [check_sites]; rewrite Hrun; done].
  destruct (has_discovery site) eqn:Hd.
  - destruct (check_sites_step env running dir enrich site rest total rw
                Hrun Hd) as (w2 & _ & ->).
    destruct (fst (process_source env (site_source site) dir enrich
                     (rw_world rw)));
      rewrite IH by (intros site' Hin; apply Hother; by right);
      cbn [rw_checks]; [|done].
    unfold SourceChecks.set_last_check, SourceChecks.get_last_check.
    rewrite upsert_other; [done|].
    intros ->. by eapply (Hother site); [left|..].
  - cbn [check_sites]. rewrite Hrun, Hd. cbn [negb].
    apply IH. intros site' Hin. apply Hother. by right.
Qed.

Lemma check_sites_unique_slugs (env : Env) (running : list Event -> bool)
    (dir : string) (enrich : bool) (sites : list Site) :
  forall (total : Z) (rw : RunWorld),
    unique_slugs (rw_checks rw) ->
    unique_slugs
      (rw_checks (snd (check_sites env running dir enrich sites total rw))).
Proof.
  induction sites as [|site rest IH]; intros total rw Hu; [done|].
  destruct (running (w_log (rw_world rw))) eqn:Hrun;
    [|cbn [check_sites]; rewrite Hrun; done].
  destruct (has_discovery site) eqn:Hd.
  - destruct (check_sites_step env running dir enrich site rest total rw
                Hrun Hd) as (w2 & _ & ->).
    destruct (fst (process_source env (site_source site) dir enrich
                     (rw_world rw))); apply IH; cbn [rw_checks]; [|done].
    by apply upsert_unique.
  - cbn [check_sites]. rewrite Hrun, Hd. cbn [negb]. by apply IH.
Qed.



(** ** The backfill *)

Lemma backfill_og_url (og : OgData) (article : Item) :
  i_url (backfill_og og article) = i_url article.
Proof.
  unfold backfill_og.
  destruct (og_title og) as [t|], (og_published og) as [p|],
    (og_description og) as [d|], (og_image og) as [i|],
    (og_author og) as [a|];
    repeat match goal with
           | |- context [if ?b then _ else _] => destruct b
           end; reflexivity.
Qed.

Lemma url_exists_rows (db : Database.Store) (rows : list Database.Article)
    (seq : Z) (fts : list Database.FtsRow) (u : string) :
  Database.url_exists
    {| Database.articles := Database.articles db ++ rows;
       Database.articles_fts := fts; Database.sequence := seq |} u
  = Database.url_exists db u
    || existsb (fun r => String.eqb (Database.url r) u) rows.
Proof. unfold Database.url_exists. cbn [Database.articles]. apply existsb_app. Qed.

(** One iteration of the backfill on an article that is not stored yet
    appends one row under the article's URL, unless the image download
    raises, and then nothing is written. *)
Lemma store_article_row (env : Env) (source : Source) (dir : string)
    (article : Item) (w : World) :
  Database.url_exists (w_db w) (i_url article) = false ->
  let res := store_article env source dir article w in
  (fst res = Exn /\ w_db (snd res) = w_db w) \/
  (exists r,
     fst res = Ok 1%Z /\
     Database.articles (w_db (snd res)) = Database.articles (w_db w) ++ [r] /\
     Database.url r = i_url article /\
     backfilled_for source r /\
     (forall v, Database.url_exists (w_db (snd res)) v
                = Database.url_exists (w_db w) v || String.eqb (i_url article) v)).
Proof.
  intros Ex. cbv zeta. unfold store_article.
  rewrite bind_run.
  set (og := fst (fetch_og_metadata env (i_url article) 15 w)).
  set (w1 := snd (fetch_og_metadata env (i_url article) 15 w)).
  assert (Hdb1 : w_db w1 = w_db w) by apply keeps_db_fetch_og_metadata.
  set (a1 := backfill_og og article).
  assert (Hu1 : i_url a1 = i_url article) by apply backfill_og_url.
  rewrite bind_run.
  set (w2 := snd (sleep_uniform 500 500 w1)).
  assert (Hdb2 : w_db w2 = w_db w) by (rewrite <- Hdb1; reflexivity).
  rewrite bind_run.
  set (dl := if truthy (i_preview_image_url a1)
             then download_image env (i_preview_image_url a1) dir (slug source)
             else ret (Ok None)).
  assert (Hdb3 : w_db (snd (dl w2)) = w_db w).
  { unfold dl. destruct (truthy _); [rewrite keeps_db_download_image|]; done. }
  destruct (fst (dl w2)) as [img|] eqn:Edl; [right|left; by split].
  unfold db_add_article.
  run_m. rewrite Hdb3.
  assert (Efresh : Database.url_exists (w_db w)
             (Database.a_url (backfill_args source a1 img))
           = false) by (cbn [backfill_args Database.a_url]; congruence).
  rewrite (add_article_fresh _ _ _ Efresh). cbn [fst snd].
  pose proof (next_rowid_pos (w_db w)) as Hpos.
  destruct (Z.eqb_spec (Database.next_rowid (w_db w)) 0) as [E0|_]; [lia|].
  eexists. split; [reflexivity|]. cbn [fst snd w_db].
  split; [reflexivity|]. split; [exact Hu1|].
  split; [repeat split|].
  intros v. rewrite url_exists_rows. cbn [existsb Database.new_row Database.url
    backfill_args Database.a_url]. rewrite Hu1. by rewrite orb_false_r.
Qed.

Lemma store_articles_cons (env : Env) (source : Source) (dir : string)
    (a : Item) (rest : list Item) (n : Z) (w : World) :
  store_articles env source dir (a :: rest) n w
  = match fst (store_article env source dir a w) with
    | Exn => (Exn, snd (store_article env source dir a w))
    | Ok added =>
      store_articles env source dir rest (n + added)
        (snd (store_article env source dir a w))
    end.
Proof.
  cbn [store_articles]. rewrite bind_run.
  by destruct (fst (store_article env source dir a w)).
Qed.

(** The loop writes the articles in order up to the end of the list, or
    up to the first one whose image download raises. *)
Lemma store_articles_rows (env : Env) (source : Source) (dir : string)
    (new_articles : list Item) :
  forall (n : Z) (w : World),
    List.NoDup (map i_url new_articles) ->
    (forall a, In a new_articles ->
               Database.url_exists (w_db w) (i_url a) = false) ->
    let res := store_articles env source dir new_articles n w in
    exists added stored rest,
      new_articles = stored ++ rest /\
      Database.articles (w_db (snd res)) = Database.articles (w_db w) ++ added /\
      map Database.url added = map i_url stored /\
      Forall (backfilled_for source) added /\
      (forall v, Database.url_exists (w_db (snd res)) v
                 = Database.url_exists (w_db w) v
                   || existsb (fun a => String.eqb (i_url a) v) stored) /\
      match fst res with
      | Ok m => rest = [] /\ m = (n + Z.of_nat (List.length added))%Z
      | Exn => rest <> []
      end.
Proof.
  induction new_articles as [|a l IH]; intros n w Hnd Habs; cbv zeta.
  - exists [], [], []. cbn [store_articles ret fst snd map List.length existsb].
    split; [reflexivity|]. split; [by rewrite app_nil_r|].
    split; [reflexivity|].
    split; [constructor|].
    split; [intros v; by rewrite orb_false_r|]. split; [done|lia].
  - rewrite store_articles_cons.
    destruct (store_article_row env source dir a w (Habs a (or_introl eq_refl)))
      as [[Hn Hdb]|(r & Hn & Hrows & Hurl & Hr & Hex)];
      set (w1 := snd (store_article env source dir a w)) in *; rewrite Hn.
    + exists [], [], (a :: l). cbn [fst snd map existsb app].
      rewrite Hdb.
      split; [reflexivity|]. split; [by rewrite app_nil_r|].
      split; [reflexivity|].
      split; [constructor|].
      split; [intros v; by rewrite orb_false_r|done].
    + cbn [map] in Hnd. inversion Hnd as [|? ? Hnotin Hnd']; subst.
      destruct (IH (n + 1)%Z w1 Hnd')
        as (added & stored & rest & El & Ha & Hu & Hf & Hex' & Hres).
      { intros b Hb. rewrite Hex, (Habs b (or_intror Hb)). cbn [orb].
        apply String.eqb_neq. intros E. apply Hnotin. rewrite E.
        by apply in_map. }
      exists (r :: added), (a :: stored), rest.
      split; [by rewrite El|].
      split; [rewrite Ha, Hrows; by rewrite <- app_assoc|].
      split; [cbn [map]; by rewrite Hurl, Hu|].
      split; [by constructor|].
      split; [intros v; rewrite Hex', Hex; cbn [existsb]; by rewrite orb_assoc|].
      destruct (fst (store_articles env source dir l (n + 1) w1));
        [|exact Hres].
      destruct Hres as [-> ->]. split; [done|]. cbn [List.length]. lia.
Qed.

Lemma unique_from_spec (all_articles : list Item) :
  forall seen : gset string,
    List.NoDup (map i_url (unique_from seen all_articles)) /\
    (forall a, In a (unique_from seen all_articles) ->
               In a all_articles /\ i_url a <> "" /\ i_url a ∉ seen) /\
    (forall a, In a all_articles -> i_url a <> "" ->
               i_url a ∈ seen \/
               In (i_url a) (map i_url (unique_from seen all_articles))).
Proof.
  induction all_articles as [|x rest IH]; intros seen; cbn [unique_from].
  - split; [constructor|]. split; [intros a []|intros a []].
  - destruct (truthy (i_url x)) eqn:Et; cbn [andb].
    + destruct (bool_decide_reflect (i_url x ∈ seen)) as [Hin|Hnin]; cbn [negb].
      * destruct (IH seen) as (Hnd & Hsub & Hall).
        split; [exact Hnd|]. split.
        -- intros a Ha. destruct (Hsub a Ha) as (? & ? & ?). by split; [right|].
        -- intros a [<-|Ha] Hne; [by left|by apply Hall].
      * destruct (IH ({[i_url x]} ∪ seen)) as (Hnd & Hsub & Hall).
        split; [|split].
        -- cbn [map]. constructor; [|exact Hnd].
           intros Hx. apply in_map_iff in Hx as (b & Eb & Hb).
           destruct (Hsub b Hb) as (_ & _ & Hnot). apply Hnot.
           rewrite Eb. set_solver.
        -- intros a [<-|Ha].
           ++ split; [by left|]. split; [|done].
              intros E. rewrite E in Et. discriminate.
           ++ destruct (Hsub a Ha) as (? & ? & Hnot).
              split; [by right|]. split; [done|]. set_solver.
        -- intros a [<-|Ha] Hne; [right; by left|].
           destruct (Hall a Ha Hne) as [Hs|Hi]; [|right; by right].
           apply elem_of_union in Hs as [Hs|Hs]; [|by left].
           apply elem_of_singleton in Hs. right. left. done.
    + destruct (IH seen) as (Hnd & Hsub & Hall).
      split; [exact Hnd|]. split.
      * intros a Ha. destruct (Hsub a Ha) as (? & ? & ?). by split; [right|].
      * intros a [<-|Ha] Hne; [|by apply Hall].
        destruct (i_url x); [done|discriminate].
Qed.

Lemma to_backfill_spec (db : Database.Store) (all_articles : list Item) :
  List.NoDup (map i_url (to_backfill db all_articles)) /\
  (forall a, In a (to_backfill db all_articles) ->
             In a all_articles /\ i_url a <> "" /\
             Database.url_exists db (i_url a) = false) /\
  (forall a, In a all_articles -> i_url a <> "" ->
             Database.url_exists db (i_url a) = true \/
             In (i_url a) (map i_url (to_backfill db all_articles))).
Proof.
  unfold to_backfill, unique_articles.
  destruct (unique_from_spec all_articles ∅) as (Hnd & Hsub & Hall).
  split; [|split].
  - revert Hnd. generalize (unique_from ∅ all_articles).
    induction l as [|x l IH]; intros Hnd; cbn [List.filter map]; [constructor|].
    inversion Hnd as [|? ? Hx Hl]; subst.
    destruct (negb _); [|by apply IH].
    cbn [map]. constructor; [|by apply IH].
    intros Hin. apply Hx. apply in_map_iff in Hin as (b & Eb & Hb).
    apply filter_In in Hb as [Hb _]. rewrite <- Eb. by apply in_map.
  - intros a Ha. apply filter_In in Ha as [Ha Hn].
    destruct (Hsub a Ha) as (? & ? & _). split; [done|]. split; [done|].
    by apply negb_true_iff.
  - intros a Ha Hne.
    destruct (Database.url_exists db (i_url a)) eqn:Ex; [by left|right].
    destruct (Hall a Ha Hne) as [Hs|Hi]; [set_solver|].
    apply in_map_iff in Hi as (b & Eb & Hb).
    apply in_map_iff. exists b. split; [done|].
    apply filter_In. split; [done|]. rewrite Eb, Ex. done.
Qed.

Lemma backfill_source_unfold (env : Env) (source : Source) (dir : string)
    (all_articles : list Item) (w : World) :
  backfill_source env source dir all_articles w
  = store_articles env source dir (to_backfill (w_db w) all_articles) 0 w.
Proof. unfold backfill_source. by rewrite bind_run. Qed.

Lemma backfill_source_rows (env : Env) (source : Source) (dir : string)
    (all_articles : list Item) (w : World) :
  let res := backfill_source env source dir all_articles w in
  exists added stored rest,
    to_backfill (w_db w) all_articles = stored ++ rest /\
    Database.articles (w_db (snd res)) = Database.articles (w_db w) ++ added /\
    map Database.url added = map i_url stored /\
    Forall (backfilled_for source) added /\
    (forall a, In a rest ->
               Database.url_exists (w_db (snd res)) (i_url a) = false) /\
    match fst res with
    | Ok n =>
      rest = [] /\ n = Z.of_nat (List.length added) /\
      (forall a, In a all_articles -> i_url a <> "" ->
                 Database.url_exists (w_db (snd res)) (i_url a) = true)
    | Exn => rest <> []
    end.
Proof.
  cbv zeta. rewrite backfill_source_unfold.
  destruct (to_backfill_spec (w_db w) all_articles) as (Hnd & Hsub & Hall).
  destruct (store_articles_rows env source dir
              (to_backfill (w_db w) all_articles) 0 w Hnd)
    as (added & stored & rest & El & Ha & Hu & Hf & Hex & Hres).
  { intros a Hin. by destruct (Hsub a Hin) as (_ & _ & ?). }
  cbv zeta in Ha, Hex, Hres.
  exists added, stored, rest.
  split; [exact El|]. split; [exact Ha|]. split; [exact Hu|].
  split; [exact Hf|].
  split.
  { intros a Hin. rewrite Hex.
    destruct (Hsub a) as (_ & _ & ->); [rewrite El; apply in_or_app; by right|].
    cbn [orb]. apply not_true_is_false. intros Hx.
    apply existsb_exists in Hx as (b & Hb & Eb). apply String.eqb_eq in Eb.
    rewrite El, map_app in Hnd. apply NoDup_ListNoDup in Hnd.
    apply NoDup_app in Hnd as (_ & Hdis & _).
    apply (Hdis (i_url b)).
    - apply list_elem_of_In. by apply in_map.
    - rewrite Eb. apply list_elem_of_In. by apply in_map. }
  destruct (fst (store_articles env source dir
                   (to_backfill (w_db w) all_articles) 0 w)) as [m|];
    [|exact Hres].
  destruct Hres as [-> ->]. split; [done|]. split; [lia|].
  rewrite app_nil_r in El. subst stored.
  intros a Hin Hne. rewrite Hex.
  destruct (Hall a Hin Hne) as [->|Hi]; [done|].
  apply orb_true_iff. right. apply existsb_exists.
  apply in_map_iff in Hi as (b & Eb & Hb).
  exists b. split; [done|]. by apply String.eqb_eq.
Qed.


(** A backfill whose second article names a malformed image: the first
    article is stored, the second and the third are not. *)
Lemma backfill_source_stops_at_raise :
  let res := backfill_source env_second_image source_plain "images"
               [item_a; item_c; item_b] fresh_world in
  fst res = Exn /\
  map Database.url (Database.articles (w_db (snd res))) = [example_url] /\
  gets_of (w_log (snd res))
  = [og_request example_url; og_request "https://example.com/c"].
Proof. vm_compute. repeat split. Qed.



(** ** Counts *)

Lemma selected_written_for (cat src : option string) (source : Source)
    (r : Database.Article) :
  written_for source r ->
  Reads.selected cat src r = source_selected cat src source.
Proof.
  intros (Hs & _ & Hc & _). unfold Reads.selected, source_selected.
  rewrite Hs, Hc.
  destruct (truthy_opt cat), (truthy_opt src); reflexivity.
Qed.

Lemma filter_all (A : Type) (f : A -> bool) (b : bool) (l : list A) :
  Forall (fun x => f x = b) l ->
  List.length (List.filter f l) = if b then List.length l else 0%nat.
Proof.
  induction 1 as [|x l Hx Hl IH]; cbn [List.filter List.length];
    [by destruct b|].
  rewrite Hx. destruct b; cbn [List.length]; by rewrite IH.
Qed.

(** X18. The counts the pages show follow what a pass reports. After
    [process_source], [count_articles] under any pair of filters has
    grown by exactly the number of rows the pass wrote, which is the
    number the pass returns when it returns, when the source passes the
    filters (an absent or empty filter lets everything pass), and is
    unchanged otherwise: the count of another source or of another
    category never moves. *)
Theorem process_source_moves_counts (env : Env) (source : Source)
    (dir : string) (enrich : bool) (w : World) (cat src : option string) :
  let res := process_source env source dir enrich w in
  let rows := (Z.of_nat (List.length (Database.articles (w_db (snd res))))
               - Z.of_nat (List.length (Database.articles (w_db w))))%Z in
  Reads.count_articles (w_db (snd res)) cat src
  = (Reads.count_articles (w_db w) cat src
     + if source_selected cat src source then rows else 0)%Z /\
  (forall n, fst res = Ok n ->
     n = rows /\
     Reads.count_articles (w_db (snd res)) cat src
     = (Reads.count_articles (w_db w) cat src
        + if source_selected cat src source then n else 0)%Z).
Proof.
  cbv zeta. unfold Reads.count_articles.
  destruct (process_source_rows env source dir enrich w)
    as (added & -> & Hn & Hw).
  rewrite List.filter_app, !length_app.
  rewrite (filter_all _ (Reads.selected cat src)
             (source_selected cat src source) added).
  2:{ eapply Forall_impl; [exact Hw|]. intros r Hr.
      by apply selected_written_for. }
  split.
  - destruct (source_selected cat src source); lia.
  - intros n Hok. rewrite (Hn n Hok).
    split; [lia|]. destruct (source_selected cat src source); lia.
Qed.

(** ** The matcher *)

Lemma match_plus_sound {R} (p : ascii -> bool) (s : string)
    (k : string -> option R) (x : R) :
  match_plus p s k = Some x ->
  exists pre rest,
    s = pre +:+ rest /\ pre <> "" /\ all_chars p pre = true /\ k rest = Some x.
Proof.
  revert x. induction s as [|c s IH]; intros x; cbn [match_plus]; [done|].
  destruct (p c) eqn:Ep; [|done].
  destruct (match_plus p s k) as [y|] eqn:Em.
  - intros [= <-]. destruct (IH y eq_refl) as (pre & rest & -> & _ & Ha & Hk).
    exists (String c pre), rest. cbn [all_chars]. rewrite Ep, Ha. done.
  - intros Hk. exists (String c ""), s. cbn [all_chars]. by rewrite Ep.
Qed.

Lemma match_at_sound {R} (r : Regex) :
  forall (s : string) (g : option string)
         (k : string -> option string -> option R) (x : R),
    match_at r s g k = Some x ->
    exists rest g', matches r s g rest g' /\ k rest g' = Some x.
Proof.
  induction r as [l|neg ms|neg ms|a IHa b IHb|a IHa b IHb|a IHa];
    intros s g k x; cbn [match_at].
  - destruct (strip_prefix l s) as [rest|] eqn:E; [|done].
    intros Hk. exists rest, g. split; [by constructor|done].
  - destruct s as [|c rest]; [done|].
    destruct (in_class neg ms c) eqn:E; [|done].
    intros Hk. exists rest, g. split; [by constructor|done].
  - intros Hm. apply match_plus_sound in Hm as (pre & rest & -> & Hne & Ha & Hk).
    exists rest, g. split; [by constructor|done].
  - destruct (match_at a s g k) as [y|] eqn:Ea.
    + intros [= <-]. destruct (IHa _ _ _ _ Ea) as (rest & g' & Hm & Hk).
      exists rest, g'. split; [by apply MAltL|done].
    + intros Eb. destruct (IHb _ _ _ _ Eb) as (rest & g' & Hm & Hk).
      exists rest, g'. split; [by apply MAltR|done].
  - intros Hm. apply IHa in Hm as (mid & g1 & Hma & Hm).
    apply IHb in Hm as (rest & g2 & Hmb & Hk).
    exists rest, g2. split; [by eapply MSeq|done].
  - intros Hm. apply IHa in Hm as (rest & g' & Hma & Hk).
    exists rest, (Some (consumed s rest)). split; [by eapply MGroup|done].
Qed.

Lemma strip_prefix_app (l s rest : string) :
  strip_prefix l s = Some rest -> s = l +:+ rest.
Proof.
  revert s. induction l as [|a l IH]; intros s; cbn [strip_prefix].
  - by intros [= ->].
  - destruct s as [|b s]; [done|].
    destruct (Ascii.eqb_spec a b) as [->|]; [|done].
    intros H. apply IH in H. by rewrite H.
Qed.

Lemma matches_suffix (r : Regex) (s : string) (g : option string)
    (rest : string) (g' : option string) :
  matches r s g rest g' -> exists pre, s = pre +:+ rest.
Proof.
  induction 1 as [l s g rest Hl|neg ms c rest g Hc|neg ms pre rest g Hne Ha
                  |a b s g rest g' _ IH|a b s g rest g' _ IH
                  |a b s g mid g1 rest g2 _ IH1 _ IH2|a s g rest g' _ IH].
  - exists l. by apply strip_prefix_app.
  - by exists (String c "").
  - by exists pre.
  - exact IH.
  - exact IH.
  - destruct IH1 as (p1 & ->), IH2 as (p2 & ->).
    exists (p1 +:+ p2). by rewrite append_assoc.
  - exact IH.
Qed.

Lemma substring_app (pre rest : string) :
  String.substring 0 (String.length pre) (pre +:+ rest) = pre.
Proof.
  induction pre as [|c pre IH]; cbn [String.length].
  - by destruct rest.
  - change (String c (String.substring 0 (String.length pre) (pre +:+ rest))
            = String c pre). by rewrite IH.
Qed.

Lemma consumed_app (pre rest : string) : consumed (pre +:+ rest) rest = pre.
Proof.
  unfold consumed, take_str. rewrite length_append.
  replace (String.length pre + String.length rest - String.length rest)%nat
    with (String.length pre) by lia.
  apply substring_app.
Qed.

Lemma prefix_app (v b : string) : String.prefix v (v +:+ b) = true.
Proof.
  induction v as [|c v IH]; [by destruct b|].
  change (String.prefix (String c v) (String c (v +:+ b)) = true).
  cbn [String.prefix]. destruct (ascii_dec c c); [exact IH|done].
Qed.

Lemma contains_app (a v b : string) : contains v (a +:+ (v +:+ b)) = true.
Proof.
  induction a as [|c a IH].
  - change (contains v (v +:+ b) = true).
    destruct (v +:+ b) eqn:E; cbn [contains]; rewrite <- E, prefix_app; done.
  - change (contains v (String c (a +:+ (v +:+ b))) = true).
    cbn [contains]. rewrite IH. by destruct (String.prefix _ _).
Qed.

Lemma in_text_suffix (neg : bool) (ms pre s v : string) :
  in_text neg ms s v -> in_text neg ms (pre +:+ s) v.
Proof.
  intros (Hne & Ha & a & b & ->). split; [done|]. split; [done|].
  exists (pre +:+ a), b. by rewrite append_assoc.
Qed.

(** What a match leaves in the group: the text it found there, or, for a
    pattern that always passes through a group, a value of the class that
    lies in the text matched. *)
Lemma matches_group (neg : bool) (ms : string) (r : Regex) (s : string)
    (g : option string) (rest : string) (g' : option string) :
  matches r s g rest g' ->
  groups_are neg ms r = true ->
  (g' = g /\ always_groups r = false)
  \/ (exists v, g' = Some v /\ in_text neg ms s v).
Proof.
  induction 1 as [l s g rest Hl|n m c rest g Hc|n m pre rest g Hne Ha
                  |a b s g rest g' _ IH|a b s g rest g' _ IH
                  |a b s g mid g1 rest g2 Hm1 IH1 Hm2 IH2|a s g rest g' Hm IH];
    cbn [groups_are always_groups]; intros Hg.
  - by left.
  - by left.
  - by left.
  - apply andb_true_iff in Hg as [Hga Hgb].
    destruct (IH Hga) as [[-> Hf]|Hv]; [left|by right].
    by rewrite Hf.
  - apply andb_true_iff in Hg as [Hga Hgb].
    destruct (IH Hgb) as [[-> Hf]|Hv]; [left|by right].
    rewrite Hf. by rewrite andb_false_r.
  - apply andb_true_iff in Hg as [Hga Hgb].
    destruct (matches_suffix _ _ _ _ _ Hm1) as (p1 & ->).
    destruct (IH2 Hgb) as [[-> Hf2]|(v & -> & Hv)].
    + destruct (IH1 Hga) as [[-> Hf1]|Hv]; [left|by right].
      by rewrite Hf1, Hf2.
    + right. exists v. split; [done|]. by apply in_text_suffix.
  - right. destruct a as [| |n m| | |]; try discriminate Hg.
    apply andb_true_iff in Hg as [Hn Hm'].
    apply Bool.eqb_prop in Hn. apply String.eqb_eq in Hm'. subst n m.
    inversion Hm as [| |? ? pre rest' ? Hne Ha| | | |]; subst.
    exists pre. rewrite consumed_app. split; [done|].
    split; [done|]. split; [done|]. exists "", rest. done.
Qed.

Lemma re_search_sound (r : Regex) (s v : string) :
  re_search r s = Some v ->
  exists pre t rest g,
    s = pre +:+ t /\ matches r t None rest g
    /\ v = match g with Some x => x | None => "" end.
Proof.
  induction s as [|c s IH]; cbn [re_search].
  - destruct (match_at r "" None (fun _ g => Some g)) as [g|] eqn:E; [|done].
    intros [= <-]. apply match_at_sound in E as (rest & g' & Hm & [= <-]).
    by exists "", "", rest, g'.
  - destruct (match_at r (String c s) None (fun _ g => Some g)) as [g|] eqn:E.
    + intros [= <-]. apply match_at_sound in E as (rest & g' & Hm & [= <-]).
      by exists "", (String c s), rest, g'.
    + intros H. destruct (IH H) as (pre & t & rest & g & -> & Hm & Hv).
      by exists (String c pre), t, rest, g.
Qed.

(** What [re.search(r, s).group(1)] is when the groups of [r] are
    repetitions of a class and every match passes through one. *)
Lemma re_search_group (neg : bool) (ms : string) (r : Regex) (s v : string) :
  groups_are neg ms r = true -> always_groups r = true ->
  re_search r s = Some v -> in_text neg ms s v.
Proof.
  intros Hg Ha Hs.
  apply re_search_sound in Hs as (pre & t & rest & g & -> & Hm & ->).
  destruct (matches_group neg ms r t None rest g Hm Hg)
    as [[_ Hf]|(v & -> & Hv)]; [congruence|].
  by apply in_text_suffix.
Qed.

Lemma in_text_taken_from (s v : string) :
  in_text true quotes s v -> taken_from s v.
Proof.
  intros (Hne & Ha & a & b & ->). split; [done|]. split; [done|].
  apply contains_app.
Qed.

Lemma search_or_taken (first : option string) (r : Regex) (html : string) :
  (forall v, first = Some v -> taken_from html v) ->
  groups_are true quotes r = true -> always_groups r = true ->
  forall v, search_or first r html = Some v -> taken_from html v.
Proof.
  intros Hfirst Hg Ha v. unfold search_or. destruct first as [x|].
  - intros [= <-]. by apply Hfirst.
  - intros Hs. by eapply in_text_taken_from, re_search_group.
Qed.

Lemma re_search_taken (r : Regex) (html : string) :
  groups_are true quotes r = true -> always_groups r = true ->
  forall v, re_search r html = Some v -> taken_from html v.
Proof. intros Hg Ha v Hs. by eapply in_text_taken_from, re_search_group. Qed.

Lemma scan_og_taken (env : Env) (html : string) :
  (forall v, og_image (scan_og env html) = Some v -> taken_from html v) /\
  (forall v, og_description (scan_og env html) = Some v ->
             exists raw, v = strip raw /\ taken_from html raw) /\
  (forall v, og_title (scan_og env html) = Some v ->
             exists raw, v = strip raw /\ taken_from html raw) /\
  (forall v, og_author (scan_og env html) = Some v ->
             exists raw, v = strip raw /\ taken_from html raw) /\
  (forall v, og_published (scan_og env html) = Some v ->
             exists raw, parse_date env raw = Some v /\ taken_from html raw).
Proof.
  unfold scan_og.
  cbn [og_image og_description og_title og_author og_published].
  split; [|split; [|split; [|split]]].
  - apply search_or_taken; [|reflexivity..].
    by apply re_search_taken.
  - intros v Hv.
    match type of Hv with option_map _ ?o = _ => destruct o as [raw|] eqn:E end;
      [|done].
    injection Hv as <-. exists raw. split; [done|].
    revert raw E. apply search_or_taken; [|reflexivity..].
    apply search_or_taken; [|reflexivity..].
    by apply re_search_taken.
  - intros v Hv.
    match type of Hv with option_map _ ?o = _ => destruct o as [raw|] eqn:E end;
      [|done].
    injection Hv as <-. exists raw. split; [done|].
    revert raw E. apply search_or_taken; [|reflexivity..].
    by apply re_search_taken.
  - intros v Hv.
    match type of Hv with option_map _ ?o = _ => destruct o as [raw|] eqn:E end;
      [|done].
    injection Hv as <-. exists raw. split; [done|].
    revert raw E. by apply re_search_taken.
  - intros v Hv.
    match type of Hv with match ?o with _ => _ end = _ =>
      destruct o as [raw|] eqn:E end; [|done].
    exists raw. split; [done|]. clear Hv.
    revert raw E. by apply re_search_taken.
Qed.

(** X19. Open Graph values are read off the page, never made up. When
    the fetch raises, [fetch_og_metadata] returns the empty record.
    Otherwise every value it returns comes from a non-empty, quote-free
    substring of the first 50000 characters of the response: the image
    is that substring, description, title and author are that substring
    stripped, and the date is what the date parser made of it. *)
Theorem fetch_og_metadata_reads_page (env : Env) (u : string) (timeout : Z)
    (w : World) :
  let og := fst (fetch_og_metadata env u timeout w) in
  match og_page env u timeout w with
  | None => og = og_empty
  | Some page =>
    (forall v, og_image og = Some v -> taken_from page v) /\
    (forall v, og_description og = Some v ->
               exists raw, v = strip raw /\ taken_from page raw) /\
    (forall v, og_title og = Some v ->
               exists raw, v = strip raw /\ taken_from page raw) /\
    (forall v, og_author og = Some v ->
               exists raw, v = strip raw /\ taken_from page raw) /\
    (forall v, og_published og = Some v ->
               exists raw, parse_date env raw = Some v /\ taken_from page raw)
  end.
Proof.
  cbv zeta. unfold og_page, fetch_og_metadata. rewrite bind_run.
  unfold http_get. rewrite !bind_run. cbn [get_log emit ret fst snd].
  destruct (http env (w_log w) _) as [resp|]; cbn [fst ret]; [|reflexivity].
  apply scan_og_taken.
Qed.

(** X20. An image address found in markup is read off the markup:
    when [_find_img_in_html] returns a value, the markup holds an img
    tag, and the value is a non-empty, quote-free substring of the
    markup; an empty src attribute is never returned. *)
Theorem find_img_in_html_reads_markup (html v : string) :
  _find_img_in_html html = Some v ->
  taken_from html v /\ contains "<img" html = true.
Proof.
  unfold _find_img_in_html. intros Hs. split.
  - revert v Hs. by apply re_search_taken.
  - apply re_search_sound in Hs as (pre & t & rest & g & -> & Hm & _).
    unfold img_src in Hm. cbn [rseq] in Hm.
    inversion Hm as [| | | | |? ? ? ? mid ? ? ? Hlit _|]; subst.
    inversion Hlit as [? ? ? ? Hp| | | | | |]; subst.
    apply strip_prefix_app in Hp as ->. apply contains_app.
Qed.

(** An img tag with a source. *)
Lemma find_img_in_html_reads_markup_witness :
  _find_img_in_html "<p><img alt='' src='https://x/y.jpg'></p>"
  = Some "https://x/y.jpg" /\
  taken_from "<p><img alt='' src='https://x/y.jpg'></p>" "https://x/y.jpg" /\
  contains "<img" "<p><img alt='' src='https://x/y.jpg'></p>" = true.
Proof.
  split; [vm_compute; reflexivity|].
  apply (find_img_in_html_reads_markup
           "<p><img alt='' src='https://x/y.jpg'></p>" "https://x/y.jpg").
  vm_compute. reflexivity.
Defined.

(** ** Feed entries *)

Lemma rstrip_rstrip (s : string) : rstrip (rstrip s) = rstrip s.
Proof.
  induction s as [|c s IH]; [done|]. cbn [rstrip].
  destruct (rstrip s) as [|d r] eqn:E.
  - destruct (is_space c) eqn:Ec; [done|]. cbn [rstrip]. by rewrite Ec.
  - cbn [rstrip]. cbn [rstrip] in IH. by rewrite IH.
Qed.

Lemma lstrip_head (s : string) :
  lstrip s = "" \/ exists c r, lstrip s = String c r /\ is_space c = false.
Proof.
  induction s as [|c s IH]; [by left|]. cbn [lstrip].
  destruct (is_space c) eqn:Ec; [exact IH|]. right. by exists c, s.
Qed.

Lemma rstrip_head (c : ascii) (s : string) :
  is_space c = false -> exists r, rstrip (String c s) = String c r.
Proof.
  intros Ec. cbn [rstrip]. destruct (rstrip s) as [|d r].
  - rewrite Ec. by exists "".
  - by exists (String d r).
Qed.

Lemma strip_strip (s : string) : strip (strip s) = strip s.
Proof.
  unfold strip. destruct (lstrip_head s) as [->|(c & r & -> & Ec)]; [done|].
  destruct (rstrip_head c r Ec) as (r' & E).
  rewrite E. cbn [lstrip]. rewrite Ec, <- E. apply rstrip_rstrip.
Qed.

Lemma length_substring_le (n : nat) (s : string) :
  (String.length (String.substring 0 n s) <= n)%nat.
Proof.
  revert s. induction n as [|n IH]; intros [|c s]; cbn; try lia.
  specialize (IH s). lia.
Qed.

Lemma entry_description_short (e : Entry) :
  (String.length (entry_description e) <= 500)%nat.
Proof.
  unfold entry_description, take_str.
  destruct (truthy (e_summary e)); [apply length_substring_le|].
  destruct (truthy (e_description e)); [apply length_substring_le|].
  cbn. lia.
Qed.

Lemma filter_truthy_nonempty (l : list string) :
  Forall (fun t => t <> "") (List.filter truthy l).
Proof.
  apply List.Forall_forall. intros t Ht. apply filter_In in Ht as [_ Ht].
  by destruct t.
Qed.

(** X21. What [fetch_feed] makes of the entries of a feed. The articles
    are those of the entries whose link is not blank, in feed order; an
    entry without a link is passed over. Every article has a non-empty
    URL without whitespace at either end, a headline without whitespace
    at either end, a description of at most 500 characters, and no empty
    tag. *)
Theorem normalize_entries_urls (env : Env) (entries : list Entry) :
  map i_url (normalize_entries env entries)
  = List.filter truthy (map (fun e => strip (e_link e)) entries) /\
  Forall (fun article =>
            i_url article <> "" /\
            strip (i_url article) = i_url article /\
            strip (i_headline article) = i_headline article /\
            (String.length (i_description article) <= 500)%nat /\
            Forall (fun t => t <> "") (i_tags article))
         (normalize_entries env entries).
Proof.
  induction entries as [|e rest [IHu IHf]]; [by split; [|constructor]|].
  cbn [normalize_entries map List.filter]. unfold normalize_entry.
  destruct (truthy (strip (e_link e))) eqn:Et; cbn [negb].
  - cbn [map i_url]. rewrite IHu. split; [reflexivity|].
    constructor; [|exact IHf].
    cbn [i_url i_headline i_description i_tags].
    split; [by destruct (strip (e_link e))|].
    split; [apply strip_strip|]. split; [apply strip_strip|].
    split; [apply entry_description_short|apply filter_truthy_nonempty].
  - by split.
Qed.

Lemma media_content_loop_from (l : list MediaContent) (u : string) :
  media_content_loop l = Some (Some u) ->
  exists mc, In mc l /\ mc_url mc = Some u.
Proof.
  induction l as [|mc l IH]; cbn [media_content_loop]; [done|].
  destruct (_ || _).
  - intros [= E]. exists mc. split; [by left|done].
  - destruct (_ && _).
    + intros [= E]. exists mc. split; [by left|done].
    + intros H. destruct (IH H) as (mc' & Hin & E). exists mc'.
      split; [by right|done].
Qed.

Lemma media_thumbnail_loop_from (l : list string) (u : string) :
  media_thumbnail_loop l = Some (Some u) -> In u l.
Proof.
  induction l as [|x l IH]; cbn [media_thumbnail_loop]; [done|].
  destruct (truthy x); [intros [= ->]; by left|].
  intros H. right. by apply IH.
Qed.

Lemma enclosures_loop_from (l : list Enclosure) (u : string) :
  enclosures_loop l = Some (Some u) ->
  exists enc, In enc l /\ (enc_href enc = Some u \/ enc_url enc = Some u).
Proof.
  induction l as [|enc l IH]; cbn [enclosures_loop]; [done|].
  destruct (startswith "image" (enc_type enc)).
  - intros [= E]. exists enc. split; [by left|].
    destruct (truthy_opt (enc_href enc)); [by left|by right].
  - intros H. destruct (IH H) as (enc' & Hin & E). exists enc'.
    split; [by right|done].
Qed.

Lemma content_loop_from (l : list string) (u : string) :
  content_loop l = Some (Some u) ->
  exists html, In html l /\ _find_img_in_html html = Some u.
Proof.
  induction l as [|x l IH]; cbn [content_loop]; [done|].
  destruct (truthy_opt _).
  - intros [= E]. exists x. split; [by left|done].
  - intros H. destruct (IH H) as (html & Hin & E). exists html.
    split; [by right|done].
Qed.

Lemma fields_loop_from (l : list string) (u : string) :
  fields_loop l = Some (Some u) ->
  exists html, In html l /\ _find_img_in_html html = Some u.
Proof.
  induction l as [|x l IH]; cbn [fields_loop]; [done|].
  destruct (_ && _).
  - intros [= E]. exists x. split; [by left|done].
  - intros H. destruct (IH H) as (html & Hin & E). exists html.
    split; [by right|done].
Qed.

Lemma find_img_taken (html u : string) :
  _find_img_in_html html = Some u -> taken_from html u.
Proof. unfold _find_img_in_html. revert u. by apply re_search_taken. Qed.

Lemma extract_feed_image_from (e : Entry) (u : string) :
  _extract_feed_image e = Some u -> image_of_entry e u.
Proof.
  unfold _extract_feed_image, image_of_entry.
  destruct (media_content_loop (e_media_content e)) as [r|] eqn:E1;
    cbn [first_return].
  { intros ->. left. by apply media_content_loop_from. }
  destruct (media_thumbnail_loop (e_media_thumbnail e)) as [r|] eqn:E2;
    cbn [first_return].
  { intros ->. right. left. by apply media_thumbnail_loop_from. }
  destruct (enclosures_loop (e_enclosures e)) as [r|] eqn:E3;
    cbn [first_return].
  { intros ->. right. right. left. by apply enclosures_loop_from. }
  destruct (content_loop (e_content e)) as [r|] eqn:E4; cbn [first_return].
  { intros ->. right. right. right.
    apply content_loop_from in E4 as (html & Hin & Hf).
    exists html. split; [apply in_or_app; by left|by apply find_img_taken]. }
  destruct (fields_loop [e_summary e; e_description e]) as [r|] eqn:E5; [|done].
  intros ->. right. right. right.
  apply fields_loop_from in E5 as (html & Hin & Hf).
  exists html. split; [apply in_or_app; by right|by apply find_img_taken].
Qed.

(** X22. The preview image of a feed article is never made up, and a
    media element can hide the others. The preview image that
    [fetch_feed] gives an article is the empty string or comes from the
    entry: the url of a media element, a thumbnail, the href or url of
    an enclosure, or a non-empty quote-free substring of the content,
    summary or description markup. When the first media element counts
    as an image (its medium is image, or its type starts with image),
    the result is that element's url, or the empty string when it has
    none, whatever thumbnails, enclosures and markup the entry has. *)
Theorem normalize_entry_image (env : Env) (e : Entry) (article : Item) :
  normalize_entry env e = Some article ->
  (i_preview_image_url article = ""
   \/ image_of_entry e (i_preview_image_url article)) /\
  (forall mc rest,
     e_media_content e = mc :: rest -> is_image_media mc = true ->
     i_preview_image_url article
     = match mc_url mc with Some u => u | None => "" end).
Proof.
  unfold normalize_entry. destruct (negb _); [done|].
  intros [= <-]. cbn [i_preview_image_url]. split.
  - destruct (_extract_feed_image e) as [u|] eqn:E; [|by left].
    right. by apply extract_feed_image_from.
  - intros mc rest Hmc Himg. unfold _extract_feed_image.
    rewrite Hmc. cbn [media_content_loop]. unfold is_image_media in Himg.
    rewrite Himg. reflexivity.
Qed.

(** The preview image of the example entry: the media element hides the
    thumbnail and the image of the summary. *)
Lemma normalize_entry_image_witness :
  exists article,
    normalize_entry env_site entry_example = Some article /\
    i_url article = "https://example.com/a" /\
    i_preview_image_url article = "".
Proof.
  set (article := {| i_url := "https://example.com/a"; i_headline := "X";
                     i_description := "Lead"; i_byline := "";
                     i_publish_date := None; i_preview_image_url := "";
                     i_tags := [] |}).
  assert (E : normalize_entry env_site entry_example = Some article)
    by (vm_compute; reflexivity).
  exists article. split; [exact E|]. split; [reflexivity|].
  exact (proj2 (normalize_entry_image env_site entry_example article E)
           {| mc_medium := "image"; mc_type := ""; mc_url := None |} []
           eq_refl eq_refl).
Defined.

(** ** Markup removal *)

Section TagMatch.
Context {R : Type}.

Lemma match_plus_until_gt (k : string -> option R) (s : string) :
  let k' := fun rest =>
              match strip_prefix ">" rest with
              | Some r => k r
              | None => None
              end in
  match match_plus (in_class true ">") s k' with
  | Some x => Some x
  | None => k' s
  end
  = match until_gt s with Some r => k r | None => None end.
Proof.
  cbv zeta. induction s as [|d s IH]; [reflexivity|].
  cbn [match_plus until_gt]. unfold in_class at 1. cbn [mem_char].
  destruct (Ascii.eqb_spec d ">") as [->|Hne]; cbn [xorb negb].
  - cbn [strip_prefix]. by rewrite Ascii.eqb_refl.
  - rewrite IH. cbn [strip_prefix].
    destruct (Ascii.eqb_spec ">" d) as [E|_]; [by subst|].
    by destruct (until_gt s) as [r|]; [|reflexivity]; destruct (k r).
Qed.

Lemma match_at_tag (s : string) (g : option string)
    (k : string -> option string -> option R) :
  match_at tag_pattern s g k
  = match tag_end s with Some rest => k rest g | None => None end.
Proof.
  unfold tag_pattern. cbn [rseq match_at].
  destruct s as [|c s]; [reflexivity|]. cbn [strip_prefix tag_end].
  destruct (Ascii.eqb_spec "<" c) as [<-|Hne].
  - cbn [Ascii.eqb]. destruct s as [|d s]; [reflexivity|].
    cbn [match_plus andb]. unfold in_class at 1. cbn [mem_char].
    destruct (Ascii.eqb_spec d ">") as [->|Hd]; cbn [xorb negb]; [reflexivity|].
    apply (match_plus_until_gt (fun r => k r g)).
  - destruct (Ascii.eqb_spec c "<") as [E|_]; [by subst|].
    by destruct s.
Qed.

End TagMatch.

Lemma re_search_tag (s : string) :
  re_search tag_pattern s = if has_tag s then Some "" else None.
Proof.
  induction s as [|c s IH]; [reflexivity|].
  cbn [re_search has_tag]. rewrite match_at_tag.
  destruct (tag_end (String c s)); [reflexivity|exact IH].
Qed.

Lemma is_space_not_gt (c : ascii) : is_space c = true -> Ascii.eqb c ">" = false.
Proof. destruct (Ascii.eqb_spec c ">") as [->|]; [discriminate|done]. Qed.

Lemma is_space_not_lt (c : ascii) : is_space c = true -> Ascii.eqb c "<" = false.
Proof. destruct (Ascii.eqb_spec c "<") as [->|]; [discriminate|done]. Qed.

Lemma thins_refl (ws : bool) (s : string) : thins ws s s.
Proof. induction s; by constructor. Qed.

Lemma thins_until_gt (ws : bool) (x y : string) :
  thins ws x y -> until_gt x = None -> until_gt y = None.
Proof.
  induction 1 as [|c x y _ IH|c x y _ _ IH|c x y _ _ IH]; cbn [until_gt];
    [done|..].
  - destruct (Ascii.eqb c ">"); [done|exact IH].
  - destruct (Ascii.eqb c ">"); [done|exact IH].
  - destruct (Ascii.eqb c ">"); [done|]. cbn. exact IH.
Qed.

Lemma tag_end_lt (z : string) :
  tag_end (String "<" z)
  = match z with
    | String d r => if Ascii.eqb d ">" then None else until_gt r
    | EmptyString => None
    end.
Proof. destruct z as [|d r]; [done|]. cbn. by destruct (Ascii.eqb d ">"). Qed.

Lemma tag_end_not_lt (c : ascii) (z : string) :
  Ascii.eqb c "<" = false -> tag_end (String c z) = None.
Proof. intros E. destruct z; [done|]. cbn [tag_end]. by rewrite E. Qed.

(** Thinning out whitespace after a < character starts no tag. *)
Lemma thins_tag_body (x y : string) :
  thins true x y ->
  tag_end (String "<" x) = None -> tag_end (String "<" y) = None.
Proof.
  rewrite !tag_end_lt.
  induction 1 as [|c x y Hxy _|c x y Hc Hxy IH|c x y Hc Hxy _]; [done|..];
    cbv beta iota.
  - destruct (Ascii.eqb c ">"); [done|]. by apply (thins_until_gt true x).
  - rewrite (is_space_not_gt c (Hc eq_refl)). intros Hx. apply IH.
    destruct x as [|d r]; [done|]. cbn [until_gt] in Hx.
    by destruct (Ascii.eqb d ">").
  - rewrite (is_space_not_gt c (Hc eq_refl)). cbn.
    by apply (thins_until_gt true x).
Qed.

Lemma has_tag_cons (c : ascii) (s : string) :
  has_tag (String c s)
  = match tag_end (String c s) with Some _ => true | None => has_tag s end.
Proof. reflexivity. Qed.

(** Thinning out whitespace creates no tag. *)
Lemma thins_has_tag (x y : string) :
  thins true x y -> has_tag x = false -> has_tag y = false.
Proof.
  induction 1 as [|c x y Hxy IH|c x y Hc Hxy IH|c x y Hc Hxy IH]; [done|..];
    rewrite !has_tag_cons.
  - destruct (tag_end (String c x)) eqn:Ex; [done|]. intros Hx.
    rewrite (IH Hx).
    destruct (Ascii.eqb_spec c "<") as [->|Hne].
    + by rewrite (thins_tag_body x y Hxy Ex).
    + rewrite tag_end_not_lt; [done|]. by apply Ascii.eqb_neq.
  - destruct (tag_end (String c x)); [done|]. exact IH.
  - destruct (tag_end (String c x)); [done|]. intros Hx.
    rewrite tag_end_not_lt by reflexivity. by apply IH.
Qed.

Lemma thins_lstrip (s : string) : thins true s (lstrip s).
Proof.
  induction s as [|c s IH]; [constructor|]. cbn [lstrip].
  destruct (is_space c) eqn:Ec; [by apply thins_drop|apply thins_refl].
Qed.

Lemma thins_rstrip (s : string) : thins true s (rstrip s).
Proof.
  induction s as [|c s IH]; [constructor|]. cbn [rstrip].
  destruct (rstrip s) as [|d r].
  - destruct (is_space c) eqn:Ec; [by apply thins_drop|by apply thins_keep].
  - by apply thins_keep.
Qed.

Lemma in_class_whitespace (c : ascii) : in_class false whitespace c = is_space c.
Proof.
  destruct c as [[] [] [] [] [] [] [] []]; reflexivity.
Qed.

Lemma all_first_app (p : ascii -> bool) (pre rest : string) :
  all_chars p pre = true -> all_first p (String.length pre) (pre +:+ rest) = true.
Proof.
  induction pre as [|c pre IH]; [done|]. cbn [all_chars String.length].
  intros H. apply andb_true_iff in H as [Hc Hp].
  change (all_first p (S (String.length pre)) (String c (pre +:+ rest)) = true).
  cbn [all_first]. by rewrite Hc, IH.
Qed.

Lemma all_chars_ext (p p' : ascii -> bool) (s : string) :
  (forall c, p c = p' c) -> all_chars p s = all_chars p' s.
Proof. intros E. induction s as [|c s IH]; [done|]. cbn. by rewrite E, IH. Qed.

(** Collapsing whitespace thins out whitespace. *)
Lemma thins_collapse (s : string) :
  forall k, all_first is_space k s = true ->
            thins true s (re_sub_from (RPlus false whitespace) " " s k).
Proof.
  induction s as [|c s IH]; intros k Hk; [destruct k; constructor|].
  cbn [re_sub_from]. destruct k as [|k].
  - cbn [match_at].
    destruct (match_plus _ (String c s) _) as [rest'|] eqn:Em.
    + apply match_plus_sound in Em as (pre & rest & E & Hne & Ha & [= <-]).
      destruct pre as [|c' pre]; [done|].
      change (String c s = String c' (pre +:+ rest)) in E.
      injection E as <- ->.
      cbn [all_chars] in Ha. apply andb_true_iff in Ha as [Hc Ha].
      rewrite in_class_whitespace in Hc.
      rewrite (all_chars_ext _ is_space _ in_class_whitespace) in Ha.
      change (thins true (String c (pre +:+ rest))
                (String " " (re_sub_from (RPlus false whitespace) " "
                               (pre +:+ rest)
                               (String.length (String c (pre +:+ rest))
                                - String.length rest - 1)))).
      apply thins_space; [done|]. apply IH.
      cbn [String.length]. rewrite length_append.
      replace (S (String.length pre + String.length rest)
               - String.length rest - 1)%nat
        with (String.length pre) by lia.
      by apply all_first_app.
    + apply thins_keep. by apply IH.
  - cbn [all_first] in Hk. apply andb_true_iff in Hk as [Hc Hk].
    apply thins_drop; [done|]. by apply IH.
Qed.

(** Replacing tags by spaces drops characters or turns them into
    spaces. *)
Lemma thins_detag (s : string) :
  forall k, thins false s (re_sub_from tag_pattern " " s k).
Proof.
  induction s as [|c s IH]; intros k; [destruct k; constructor|].
  cbn [re_sub_from]. destruct k as [|k].
  - destruct (match_at tag_pattern (String c s) None _) as [rest'|].
    + change (thins false (String c s)
                (String " " (re_sub_from tag_pattern " " s
                               (String.length (String c s)
                                - String.length rest' - 1)))).
      apply thins_space; [done|apply IH].
    + apply thins_keep, IH.
  - apply thins_drop; [done|apply IH].
Qed.

(** After the replacement no tag is left. *)
Lemma detag_no_tag (s : string) :
  forall k, has_tag (re_sub_from tag_pattern " " s k) = false.
Proof.
  induction s as [|c s IH]; intros k; [by destruct k|].
  cbn [re_sub_from]. destruct k as [|k]; [|apply IH].
  rewrite match_at_tag.
  destruct (tag_end (String c s)) as [rest'|] eqn:Et.
  - change (has_tag (String " " (re_sub_from tag_pattern " " s
                                   (String.length (String c s)
                                    - String.length rest' - 1))) = false).
    rewrite has_tag_cons, tag_end_not_lt by reflexivity. apply IH.
  - rewrite has_tag_cons, (IH 0%nat).
    destruct (Ascii.eqb_spec c "<") as [->|Hne];
      [|by rewrite tag_end_not_lt by (by apply Ascii.eqb_neq)].
    rewrite tag_end_lt in Et. rewrite tag_end_lt.
    destruct s as [|d r]; [reflexivity|].
    destruct (Ascii.eqb d ">") eqn:Ed.
    + cbn [re_sub_from]. rewrite match_at_tag.
      rewrite tag_end_not_lt.
      2:{ apply Ascii.eqb_eq in Ed. by subst d. }
      by rewrite Ed.
    + assert (Hno : until_gt (String d r) = None)
        by (cbn [until_gt]; by rewrite Ed).
      pose proof (thins_until_gt false _ _ (thins_detag (String d r) 0) Hno)
        as Hy.
      destruct (re_sub_from tag_pattern " " (String d r) 0) as [|d' r'];
        [reflexivity|].
      cbn [until_gt] in Hy.
      destruct (Ascii.eqb d' ">"); [done|by rewrite Hy].
Qed.

Lemma strip_tags_has_no_tag (html : string) : has_tag (strip_tags html) = false.
Proof.
  unfold strip_tags, strip, re_sub.
  eapply thins_has_tag; [apply thins_rstrip|].
  eapply thins_has_tag; [apply thins_lstrip|].
  eapply thins_has_tag; [by apply thins_collapse|].
  apply detag_no_tag.
Qed.

(** X23. The first stage of [_strip_html] removes every tag: in the text
    that comes out of the tag replacement, the whitespace collapse and
    the strip, the tag pattern finds no match, whatever the markup was
    (unclosed, nested or empty brackets included). *)
Theorem strip_tags_leaves_no_tag (html : string) :
  re_search tag_pattern (strip_tags html) = None.
Proof. rewrite re_search_tag. by rewrite strip_tags_has_no_tag. Qed.

(** *** The normal form of the first stage *)

Lemma re_sub_from_skip (r : Regex) (repl pre rest : string) :
  re_sub_from r repl (pre +:+ rest) (String.length pre)
  = re_sub_from r repl rest 0.
Proof.
  induction pre as [|c pre IH]; [by destruct rest|].
  change (re_sub_from r repl (String c (pre +:+ rest)) (S (String.length pre))
          = re_sub_from r repl rest 0).
  cbn [re_sub_from]. exact IH.
Qed.

Lemma detag_fixed (z : string) :
  has_tag z = false -> re_sub_from tag_pattern " " z 0 = z.
Proof.
  induction z as [|c z IH]; [done|]. rewrite has_tag_cons.
  cbn [re_sub_from]. rewrite match_at_tag.
  destruct (tag_end (String c z)); [done|]. intros Hz. by rewrite IH.
Qed.

Lemma match_plus_greedy (p : ascii -> bool) (s : string) :
  match_plus p s (fun rest => Some rest)
  = match s with
    | String c rest => if p c then Some (drop_while p rest) else None
    | EmptyString => None
    end.
Proof.
  induction s as [|c s IH]; [done|]. cbn [match_plus].
  destruct (p c); [|done]. rewrite IH.
  destruct s as [|d s]; [done|]. cbn [drop_while]. by destruct (p d).
Qed.

Lemma drop_while_app (p : ascii -> bool) (s : string) :
  exists pre, s = pre +:+ drop_while p s /\ all_chars p pre = true.
Proof.
  induction s as [|c s (pre & E & Ha)]; [by exists ""|]. cbn [drop_while].
  destruct (p c) eqn:Ec; [|by exists ""].
  exists (String c pre). cbn [all_chars]. rewrite Ec, Ha. split; [|done].
  change (String c s = String c (pre +:+ drop_while p s)). by rewrite <- E.
Qed.

Lemma drop_while_head (p : ascii -> bool) (s : string) :
  match drop_while p s with
  | String d _ => p d = false
  | EmptyString => True
  end.
Proof.
  induction s as [|c s IH]; [done|]. cbn [drop_while].
  destruct (p c) eqn:Ec; [exact IH|exact Ec].
Qed.

Lemma all_chars_ext_drop (s : string) :
  drop_while (in_class false whitespace) s = drop_while is_space s.
Proof.
  induction s as [|c s IH]; [done|]. cbn [drop_while].
  by rewrite in_class_whitespace, IH.
Qed.

(** The whitespace collapse, one step at a time. *)
Lemma collapse_cons (c : ascii) (s : string) :
  re_sub_from (RPlus false whitespace) " " (String c s) 0
  = if is_space c
    then String " " (re_sub_from (RPlus false whitespace) " "
                       (drop_while is_space s) 0)
    else String c (re_sub_from (RPlus false whitespace) " " s 0).
Proof.
  cbn [re_sub_from match_at].
  rewrite (match_plus_greedy (in_class false whitespace) (String c s)).
  rewrite in_class_whitespace. destruct (is_space c); [|done].
  rewrite (all_chars_ext_drop s).
  destruct (drop_while_app is_space s) as (pre & E & Ha).
  remember (drop_while is_space s) as d eqn:Ed. clear Ed. subst s.
  cbn [String.length]. rewrite length_append.
  replace (S (String.length pre + String.length d) - String.length d - 1)%nat
    with (String.length pre) by lia.
  by rewrite re_sub_from_skip.
Qed.

Lemma drop_while_length (p : ascii -> bool) (s : string) :
  (String.length (drop_while p s) <= String.length s)%nat.
Proof.
  induction s as [|c s IH]; [done|]. cbn [drop_while].
  destruct (p c); cbn [String.length]; lia.
Qed.

Lemma collapse_head (s : string) :
  match s with
  | String d _ =>
    is_space d = false ->
    exists r, re_sub_from (RPlus false whitespace) " " s 0 = String d r
  | EmptyString => re_sub_from (RPlus false whitespace) " " s 0 = ""
  end.
Proof.
  destruct s as [|d s]; [done|]. intros Hd. rewrite collapse_cons, Hd.
  by eexists.
Qed.

Lemma collapse_single_spaced (s : string) :
  single_spaced (re_sub_from (RPlus false whitespace) " " s 0) = true.
Proof.
  remember (String.length s) as n eqn:En. revert s En.
  induction n as [n IH] using lt_wf_ind. intros [|c s] En; [done|].
  cbn [String.length] in En. rewrite collapse_cons.
  destruct (is_space c) eqn:Ec.
  - cbn [single_spaced]. change (is_space " ") with true. cbv iota.
    rewrite (IH (String.length (drop_while is_space s)));
      [|pose proof (drop_while_length is_space s); lia|done].
    pose proof (drop_while_head is_space s) as Hh.
    pose proof (collapse_head (drop_while is_space s)) as Hc.
    destruct (drop_while is_space s) as [|d r].
    + by rewrite Hc.
    + destruct (Hc Hh) as (r' & ->). by rewrite Hh.
  - cbn [single_spaced]. rewrite Ec.
    by rewrite (IH (String.length s)); [|lia|].
Qed.

Lemma collapse_fixed (z : string) :
  single_spaced z = true ->
  re_sub_from (RPlus false whitespace) " " z 0 = z.
Proof.
  induction z as [|c z IH]; [done|]. cbn [single_spaced].
  rewrite collapse_cons. destruct (is_space c) eqn:Ec.
  - intros H. apply andb_true_iff in H as [H Hz].
    apply andb_true_iff in H as [Hsp Hd].
    apply Ascii.eqb_eq in Hsp. subst c.
    destruct z as [|d z]; [done|].
    apply negb_true_iff in Hd. cbn [drop_while]. rewrite Hd.
    by rewrite IH.
  - intros Hz. by rewrite IH.
Qed.

Lemma single_spaced_tail (c : ascii) (s : string) :
  single_spaced (String c s) = true -> single_spaced s = true.
Proof. cbn [single_spaced]. intros H. by apply andb_true_iff in H as [_ H]. Qed.

Lemma single_spaced_lstrip (s : string) :
  single_spaced s = true -> single_spaced (lstrip s) = true.
Proof.
  induction s as [|c s IH]; [done|]. intros H. cbn [lstrip].
  destruct (is_space c); [|done]. apply IH. by eapply single_spaced_tail.
Qed.

Lemma single_spaced_rstrip (s : string) :
  single_spaced s = true -> single_spaced (rstrip s) = true.
Proof.
  induction s as [|c s IH]; [done|]. intros H.
  pose proof (IH (single_spaced_tail _ _ H)) as Hr.
  cbn [rstrip]. destruct (rstrip s) as [|d r] eqn:Er.
  - destruct (is_space c) eqn:Ec; [done|]. cbn [single_spaced]. by rewrite Ec.
  - cbn [single_spaced] in H |- *.
    apply andb_true_iff in H as [H _].
    change (single_spaced (String d r)) with
      ((if is_space d
        then Ascii.eqb d " "
             && match r with
                | String d' _ => negb (is_space d')
                | EmptyString => true
                end
        else true) && single_spaced r) in Hr.
    rewrite Hr, andb_true_r.
    destruct (is_space c); [|done].
    apply andb_true_iff in H as [Hc Hd]. rewrite Hc. cbn [andb].
    destruct s as [|d0 s0]; [done|].
    apply negb_true_iff in Hd.
    destruct (rstrip_head d0 s0 Hd) as (r0 & E0). rewrite E0 in Er.
    injection Er as <- _. by rewrite Hd.
Qed.

Lemma strip_tags_single_spaced (html : string) :
  single_spaced (strip_tags html) = true.
Proof.
  unfold strip_tags, strip, re_sub.
  apply single_spaced_rstrip, single_spaced_lstrip, collapse_single_spaced.
Qed.

Lemma strip_tags_fixed (text : string) :
  has_tag text = false -> single_spaced text = true -> strip text = text ->
  strip_tags text = text.
Proof.
  intros Ht Hs Hst. unfold strip_tags, re_sub.
  by rewrite (detag_fixed _ Ht), (collapse_fixed _ Hs).
Qed.

Lemma strip_tags_strip_tags (html : string) :
  strip_tags (strip_tags html) = strip_tags html.
Proof.
  apply strip_tags_fixed.
  - apply strip_tags_has_no_tag.
  - apply strip_tags_single_spaced.
  - unfold strip_tags. apply strip_strip.
Qed.

(** X24. The first stage of [_strip_html] normalizes whitespace and is
    idempotent: in its result the only whitespace is the single space,
    no two spaces are adjacent and none stands at either end; and
    applying the stage to its own result changes nothing. *)
Theorem strip_tags_normal_form (html : string) :
  single_spaced (strip_tags html) = true /\
  strip (strip_tags html) = strip_tags html /\
  strip_tags (strip_tags html) = strip_tags html.
Proof.
  split; [apply strip_tags_single_spaced|].
  split; [unfold strip_tags; apply strip_strip|apply strip_tags_strip_tags].
Qed.

(** *** Entities *)

Lemma thins_mem_char (ws : bool) (x y : string) (a : ascii) :
  thins ws x y -> mem_char a x = false -> Ascii.eqb a " " = false ->
  mem_char a y = false.
Proof.
  intros Ht Hx Ha.
  induction Ht as [|c x y _ IH|c x y _ _ IH|c x y _ _ IH]; [done|..];
    cbn [mem_char] in Hx |- *.
  - destruct (Ascii.eqb a c); [done|by apply IH].
  - destruct (Ascii.eqb a c); [done|by apply IH].
  - rewrite Ha. destruct (Ascii.eqb a c); [done|by apply IH].
Qed.

Lemma strip_tags_mem_char (html : string) (a : ascii) :
  mem_char a html = false -> Ascii.eqb a " " = false ->
  mem_char a (strip_tags html) = false.
Proof.
  intros Hx Ha. unfold strip_tags, strip, re_sub.
  eapply thins_mem_char; [apply thins_rstrip| |done].
  eapply thins_mem_char; [apply thins_lstrip| |done].
  eapply thins_mem_char; [by apply thins_collapse| |done].
  eapply thins_mem_char; [apply thins_detag|done|done].
Qed.

Lemma replace_absent (a : ascii) (old new s : string) :
  mem_char a s = false -> replace_from (String a old) new s 0 = s.
Proof.
  induction s as [|c s IH]; [done|]. cbn [mem_char replace_from String.prefix].
  destruct (Ascii.eqb_spec a c) as [->|Hne]; [done|]. intros Hs.
  destruct (ascii_dec a c) as [E|_]; [done|]. by rewrite IH.
Qed.

Lemma decode_entities_absent (text : string) :
  mem_char "&" text = false -> decode_entities text = text.
Proof.
  intros H. unfold decode_entities, entities, replace, dquote, squote.
  cbn [fold_left fst snd].
  by rewrite !(replace_absent "&" _ _ text H).
Qed.

Lemma strip_html_entity_free (html : string) :
  mem_char "&" html = false -> _strip_html html = strip_tags html.
Proof.
  intros H. unfold _strip_html. apply decode_entities_absent.
  by apply strip_tags_mem_char.
Qed.

(** X25. On markup without an ampersand [_strip_html] is the first stage
    alone: the entity loop changes nothing, so the result holds no tag
    and no ampersand, and stripping it again gives it back. (With
    entities this fails: the loop runs after the tags are gone and
    decodes one entity after the other, so an escaped tag comes out as
    a tag.) *)
Theorem strip_html_without_entities (html : string) :
  mem_char "&" html = false ->
  _strip_html html = strip_tags html /\
  re_search tag_pattern (_strip_html html) = None /\
  mem_char "&" (_strip_html html) = false /\
  _strip_html (_strip_html html) = _strip_html html.
Proof.
  intros H. rewrite (strip_html_entity_free html H).
  assert (H' : mem_char "&" (strip_tags html) = false)
    by (by apply strip_tags_mem_char).
  split; [done|].
  split; [rewrite re_search_tag; by rewrite strip_tags_has_no_tag|].
  split; [done|].
  rewrite (strip_html_entity_free _ H'). apply strip_tags_strip_tags.
Qed.

(** A summary with markup and no entity. *)
Lemma strip_html_without_entities_witness :
  mem_char "&" "<p>Hello   <b>world</b></p>" = false /\
  _strip_html "<p>Hello   <b>world</b></p>" = "Hello world" /\
  _strip_html (_strip_html "<p>Hello   <b>world</b></p>")
  = _strip_html "<p>Hello   <b>world</b></p>".
Proof.
  split; [reflexivity|]. split; [vm_compute; reflexivity|].
  exact (proj2 (proj2 (proj2
           (strip_html_without_entities "<p>Hello   <b>world</b></p>"
              eq_refl)))).
Defined.

(** An escaped tag comes out as a tag, and an escaped entity is decoded
    twice. *)
Example strip_html_decodes_after_stripping :
  _strip_html "&lt;b&gt;bold&lt;/b&gt;" = "<b>bold</b>" /\
  _strip_html "&amp;lt;" = "<".
Proof. split; vm_compute; reflexivity. Qed.

(** ** The cost of a pass *)

Lemma downloads_of_app (a b : list Event) :
  downloads_of (a ++ b) = downloads_of a ++ downloads_of b.
Proof.
  induction a as [|e a IH]; simpl; [done|]. destruct e; simpl; by rewrite ?IH.
Qed.

Lemma feeds_of_app (a b : list Event) :
  feeds_of (a ++ b) = feeds_of a ++ feeds_of b.
Proof.
  induction a as [|e a IH]; simpl; [done|]. destruct e; simpl; by rewrite ?IH.
Qed.

Lemma cost_nil : cost 0 0 0 [].
Proof. repeat split; simpl; lia. Qed.

Lemma cost_app (g1 g2 b1 b2 d1 d2 : nat) (t1 t2 : list Event) :
  cost g1 b1 d1 t1 -> cost g2 b2 d2 t2 ->
  cost (g1 + g2) (b1 + b2) (d1 + d2) (t1 ++ t2).
Proof.
  intros (A1 & A2 & A3 & A4) (B1 & B2 & B3 & B4). unfold cost.
  rewrite gets_of_app, browsers_of_app, downloads_of_app, feeds_of_app,
    !length_app, A4, B4.
  repeat split; lia.
Qed.

Lemma cost_le (g g' b b' d d' : nat) (tr : list Event) :
  cost g b d tr -> (g <= g')%nat -> (b <= b')%nat -> (d <= d')%nat ->
  cost g' b' d' tr.
Proof. intros (A1 & A2 & A3 & A4) ? ? ?. repeat split; (lia || done). Qed.

Lemma quiet_app (t1 t2 : list Event) : quiet t1 -> quiet t2 -> quiet (t1 ++ t2).
Proof.
  intros [A1 A2] [B1 B2]. unfold quiet.
  by rewrite downloads_of_app, feeds_of_app, A1, A2, B1, B2.
Qed.

Lemma only_requests_quiet (rq : Request) (tr : list Event) :
  only_requests rq tr -> quiet tr.
Proof.
  induction 1 as [|e tr He Htr [IH1 IH2]]; [done|].
  destruct He as [->|[s ->]]; done.
Qed.

Lemma does_and {A} (m : M A) (P Q : A -> list Event -> Prop) :
  does m P -> does m Q -> does m (fun a tr => P a tr /\ Q a tr).
Proof.
  intros HP HQ w.
  destruct (HP w) as (a & tr & E & Hp), (HQ w) as (a' & tr' & E' & Hq).
  rewrite E in E'. injection E' as <- Etr. apply app_inv_head in Etr as <-.
  by exists a, tr.
Qed.

Lemma does_logs {A} (m : M A) (P : A -> list Event -> Prop) :
  does m P -> logs m P.
Proof. intros H w. destruct (H w) as (a & tr & -> & HP). by exists tr. Qed.

Lemma logs_ret {A} (a : A) (P : A -> list Event -> Prop) :
  P a [] -> logs (ret a) P.
Proof. intros H w. exists []. by rewrite app_nil_r. Qed.

Lemma logs_bind {A B} (m : M A) (f : A -> M B)
    (P : A -> list Event -> Prop) (Q : B -> list Event -> Prop) :
  logs m P ->
  (forall a tr1, P a tr1 -> logs (f a) (fun b tr2 => Q b (tr1 ++ tr2))) ->
  logs (bind m f) Q.
Proof.
  intros Hm Hf w. destruct (Hm w) as (tr1 & E1 & HP).
  destruct (Hf _ _ HP (snd (m w))) as (tr2 & E2 & HQ).
  exists (tr1 ++ tr2). rewrite bind_run, E2, E1. by rewrite app_assoc.
Qed.

Lemma logs_weaken {A} (m : M A) (P Q : A -> list Event -> Prop) :
  logs m P -> (forall a tr, P a tr -> Q a tr) -> logs m Q.
Proof. intros Hm HPQ w. destruct (Hm w) as (tr & E & HP). eauto. Qed.

(** The retriever neither downloads an image nor fetches a feed. *)
Lemma try_playwright_quiet (env : Env) (u : string) (timeout : Z) :
  does (_try_playwright env u timeout) (fun _ tr => quiet tr).
Proof.
  intros w. unfold _try_playwright. run_m.
  destruct (browser env (w_log w) u timeout) as [html|]; simpl;
    by eexists _, [EBrowser u timeout].
Qed.

Lemma fetch_method_quiet (env : Env) (u : string)
    (headers : list (string * string)) (timeout : Z) :
  does (fetch_method env u headers timeout) (fun _ tr => quiet tr).
Proof.
  unfold fetch_method.
  eapply does_bind; [apply fetch_with_retry_does|].
  intros r tr1 (_ & Ho & _).
  assert (Hq : quiet (tr1 ++ []))
    by (rewrite app_nil_r; by eapply only_requests_quiet).
  destruct r as [resp|]; [|by apply does_ret].
  destruct (status_code resp =? 200)%Z; by apply does_ret.
Qed.

Lemma or_else_quiet (m next : M (option string)) :
  does m (fun _ tr => quiet tr) -> does next (fun _ tr => quiet tr) ->
  does (or_else m next) (fun _ tr => quiet tr).
Proof.
  intros Hm Hn. unfold or_else.
  eapply does_bind; [exact Hm|].
  intros r tr1 Hq. destruct r as [t|].
  - apply does_ret. by rewrite app_nil_r.
  - eapply does_weaken; [exact Hn|]. intros r2 tr2 Hq2. by apply quiet_app.
Qed.

Lemma bypass_quiet (env : Env) (u : string) (timeout : Z) (prefer : bool) :
  does (fetch_article_text_via_bypass env u timeout prefer)
    (fun _ tr => quiet tr).
Proof.
  unfold fetch_article_text_via_bypass.
  destruct (negb (bs4_available env)); [by apply does_ret|].
  destruct prefer; cbn [negb];
    repeat (apply or_else_quiet;
            [first [apply fetch_method_quiet|apply try_playwright_quiet
                   |by apply does_ret]|]);
    first [apply try_playwright_quiet|by apply does_ret].
Qed.

Lemma bypass_cost (env : Env) (u : string) (timeout : Z) (prefer : bool) :
  does (fetch_article_text_via_bypass env u timeout prefer)
    (fun _ tr => cost 15 1 0 tr).
Proof.
  eapply does_weaken;
    [apply (does_and _ _ _ (bypass_does env u timeout prefer)
              (bypass_quiet env u timeout prefer))|].
  intros r tr [((Hg & Hb & _) & _) [Hd Hf]]. unfold cost.
  rewrite Hd, Hf. repeat split; (done || simpl; lia).
Qed.

Lemma resolve_cost (env : Env) (u : string) (timeout : Z) :
  does (resolve_redirect_url env u timeout) (fun _ tr => cost 1 0 0 tr).
Proof.
  unfold resolve_redirect_url.
  destruct (contains "news.google.com" u).
  - eapply does_bind; [apply does_http_get|].
    intros out tr1 ->. destruct out; apply does_ret;
      repeat split; simpl; lia.
  - apply does_ret. repeat split; simpl; lia.
Qed.

Lemma fetch_og_metadata_cost (env : Env) (u : string) (timeout : Z) :
  does (fetch_og_metadata env u timeout) (fun _ tr => cost 1 0 0 tr).
Proof.
  unfold fetch_og_metadata.
  eapply does_bind; [apply does_http_get|].
  intros out tr1 ->. destruct out; apply does_ret; repeat split; simpl; lia.
Qed.

Lemma enrich_item_cost (env : Env) (enrich : bool) (item : Item) :
  does (enrich_item env enrich item)
    (fun _ tr => cost (if enrich then 1 else 0) 0 0 tr).
Proof.
  unfold enrich_item. destruct enrich; cbn [andb]; [|by apply does_ret, cost_nil].
  destruct (_ || _); [|apply does_ret; repeat split; simpl; lia].
  eapply does_bind; [apply fetch_og_metadata_cost|].
  intros og tr1 Hc.
  eapply does_bind; [apply does_emit|].
  intros x tr2 ->. apply does_ret. rewrite app_nil_r.
  apply (cost_app 1 0 0 0 0 0); [done|]. repeat split; simpl; lia.
Qed.

Lemma fetch_full_text_cost (env : Env) (source : Source) (item : Item) :
  does (fetch_full_text env source item)
    (fun _ tr => cost (if bypass_paywall source then 15 else 0)
                   (browsers_per_item source) 0 tr).
Proof.
  unfold fetch_full_text, browsers_per_item.
  destruct (bypass_paywall source); [|by apply does_ret, cost_nil].
  eapply does_bind; [apply bypass_cost|].
  intros t tr1 Hc.
  eapply does_bind; [apply does_emit|].
  intros x tr2 ->. apply does_ret. rewrite app_nil_r.
  apply (cost_app 15 0 1 0 0 0); [done|]. repeat split; simpl; lia.
Qed.

Lemma download_image_cost (env : Env) (u dir s : string) :
  does (download_image env u dir s) (fun _ tr => cost 0 0 1 tr).
Proof.
  unfold download_image.
  destruct (_ || _); [apply does_ret; repeat split; simpl; lia|].
  intros w. run_m. eexists _, [EDownload u]. split; [reflexivity|].
  repeat split; simpl; lia.
Qed.

Lemma db_add_article_logs (env : Env) (a : Database.ArticleArgs) :
  logs (db_add_article env a) (fun _ tr => tr = []).
Proof.
  intros w. exists []. unfold db_add_article. run_m.
  destruct (Database.add_article _ _ _). simpl. by rewrite app_nil_r.
Qed.

Lemma get_db_logs : logs get_db (fun _ tr => tr = []).
Proof. intros w. exists []. by rewrite app_nil_r. Qed.

Lemma process_item_cost (env : Env) (source : Source) (dir : string)
    (enrich : bool) (item : Item) :
  logs (process_item env source dir enrich item)
    (fun _ tr => cost (requests_per_item source enrich)
                   (browsers_per_item source) 1 tr).
Proof.
  unfold process_item, requests_per_item.
  eapply logs_bind; [apply does_logs, resolve_cost|].
  intros u tr1 H1. cbv beta in H1.
  eapply logs_bind; [apply get_db_logs|].
  intros db tr2 ->. cbn [app].
  destruct (Database.url_exists db _).
  { apply logs_ret. rewrite app_nil_r. eapply cost_le; [exact H1|lia..]. }
  eapply logs_bind; [apply does_logs, enrich_item_cost|].
  intros item2 tr3 H3. cbv beta in H3.
  eapply logs_bind; [apply does_logs, fetch_full_text_cost|].
  intros txt tr4 H4. cbv beta in H4.
  eapply logs_bind.
  { apply does_logs.
    instantiate (1 := fun _ tr => cost 0 0 1 tr).
    destruct (truthy _); [apply download_image_cost|].
    apply does_ret. repeat split; simpl; lia. }
  intros img tr5 H5. cbv beta in H5.
  assert (Hc : cost (1 + (if enrich then 1 else 0)
                     + (if bypass_paywall source then 15 else 0))
                 (browsers_per_item source) 1
                 (tr1 ++ tr3 ++ tr4 ++ tr5 ++ [])).
  { rewrite app_nil_r.
    pose proof (cost_app _ _ _ _ _ _ _ _ H1
                  (cost_app _ _ _ _ _ _ _ _ H3
                     (cost_app _ _ _ _ _ _ _ _ H4 H5))) as H.
    eapply cost_le; [exact H|lia..]. }
  destruct img as [img|]; [|apply logs_ret; exact Hc].
  eapply logs_bind; [apply db_add_article_logs|].
  intros aid tr6 ->. cbn [app].
  destruct aid as [rid|]; [destruct (rid =? 0)%Z|]; apply logs_ret; exact Hc.
Qed.

Lemma process_items_cost (env : Env) (source : Source) (dir : string)
    (enrich : bool) (items : list Item) :
  forall n : Z,
    logs (process_items env source dir enrich items n)
      (fun _ tr => cost (requests_per_item source enrich * List.length items)
                     (browsers_per_item source * List.length items)
                     (List.length items) tr).
Proof.
  induction items as [|x items IH]; intros n; cbn [process_items].
  - apply logs_ret. cbn [List.length]. rewrite !Nat.mul_0_r. apply cost_nil.
  - eapply logs_bind; [apply process_item_cost|].
    intros added tr1 H1. cbv beta in H1.
    destruct added as [added|].
    + eapply logs_weaken; [apply IH|].
      intros r tr2 H2. cbv beta in H2.
      eapply cost_le; [exact (cost_app _ _ _ _ _ _ _ _ H1 H2)|cbn [List.length]; lia..].
    + apply logs_ret. rewrite app_nil_r.
      eapply cost_le; [exact H1|cbn [List.length]; lia..].
Qed.

Lemma fetch_feed_does (env : Env) (u : string) :
  does (fetch_feed env u) (fun _ tr => tr = [EFeed u]).
Proof. intros w. unfold fetch_feed. run_m. by eexists _, [EFeed u]. Qed.

Lemma collect_items_does (env : Env) (urls : list string) :
  does (collect_items env urls) (fun _ tr => tr = map EFeed urls).
Proof.
  induction urls as [|u urls IH]; cbn [collect_items map].
  - by apply does_ret.
  - eapply does_bind; [apply fetch_feed_does|].
    intros items tr1 ->.
    eapply does_bind; [apply IH|].
    intros more tr2 ->. apply does_ret. by rewrite app_nil_r.
Qed.

Lemma feed_events (urls : list string) :
  gets_of (map EFeed urls) = [] /\ browsers_of (map EFeed urls) = [] /\
  downloads_of (map EFeed urls) = [] /\ feeds_of (map EFeed urls) = urls.
Proof.
  induction urls as [|u urls (H1 & H2 & H3 & H4)]; [done|].
  cbn. by rewrite H4.
Qed.

(** X26. What a pass can cost, whatever feeds and servers answer. The
    events [process_source] adds to the log hold one fetch for each feed
    URL, in order; for n distinct candidates at most n calls of the
    image downloader that get past its guard, at most n browser sessions
    and none without bypass, and at most 2n page requests (n with
    enrichment off) plus 15n with bypass, also when an image download
    raises out of the pass; and the count returned, when the pass
    returns, lies between 0 and n. *)
Theorem process_source_cost (env : Env) (source : Source) (dir : string)
    (enrich : bool) (w : World) :
  let n := List.length (dedup (fst (collect_items env (rss_urls source) w))) in
  let res := process_source env source dir enrich w in
  exists tr,
    w_log (snd res) = w_log w ++ tr /\
    feeds_of tr = rss_urls source /\
    (List.length (gets_of tr) <= requests_per_item source enrich * n)%nat /\
    (List.length (browsers_of tr) <= browsers_per_item source * n)%nat /\
    (List.length (downloads_of tr) <= n)%nat /\
    (forall k, fst res = Ok k -> (0 <= k <= Z.of_nat n)%Z).
Proof.
  cbv zeta.
  assert (Hcase : rss_urls source = [] \/ rss_urls source <> [])
    by (destruct (rss_urls source); [left|right]; done).
  destruct Hcase as [E|E].
  - unfold process_source. rewrite E. exists []. cbn.
    rewrite app_nil_r. repeat (split; [done || lia|]).
    intros k [= <-]. lia.
  - rewrite process_source_loop by exact E.
    destruct (collect_items_does env (rss_urls source) w)
      as (all_items & tr1 & Ec & ->).
    rewrite Ec. cbn [fst snd].
    set (w1 := {| w_db := w_db w;
                  w_log := w_log w ++ map EFeed (rss_urls source) |}).
    destruct (process_items_cost env source dir enrich (dedup all_items) 0 w1)
      as (tr2 & E2 & (Hg & Hb & Hd & Hf)).
    destruct (process_items_rows env source dir enrich (dedup all_items) 0 w1)
      as (added & _ & Hn & Hl & _).
    destruct (feed_events (rss_urls source)) as (F1 & F2 & F3 & F4).
    exists (map EFeed (rss_urls source) ++ tr2).
    rewrite E2. unfold w1. cbn [w_log]. rewrite <- app_assoc.
    rewrite gets_of_app, browsers_of_app, downloads_of_app, feeds_of_app,
      F1, F2, F3, F4, Hf, app_nil_r. cbn [app].
    fold w1. repeat (split; [done || lia|]).
    intros k Hk. rewrite (Hn k Hk). lia.
Qed.

(** ** The cost of a backfill *)

Lemma backfill_trace_app (l1 l2 : list Item) (t1 t2 : list Event) :
  backfill_trace l1 t1 -> backfill_trace l2 t2 ->
  backfill_trace (l1 ++ l2) (t1 ++ t2).
Proof.
  intros (A1 & A2 & A3 & A4 & A5) (B1 & B2 & B3 & B4 & B5).
  unfold backfill_trace.
  rewrite gets_of_app, browsers_of_app, feeds_of_app, downloads_of_app,
    map_app, !length_app, A1, A2, A3, B1, B2, B3.
  repeat split; try done; [lia|by apply Forall_app].
Qed.

Lemma download_image_trace (env : Env) (u dir s : string) :
  does (download_image env u dir s)
    (fun _ tr => tr = [] \/ (tr = [EDownload u] /\ startswith "http" u = true)).
Proof.
  unfold download_image.
  destruct (truthy u); cbn [negb orb]; [|apply does_ret; by left].
  destruct (startswith "http" u) eqn:Eh; cbn [negb]; [|apply does_ret; by left].
  intros w. run_m. eexists _, [EDownload u]. split; [reflexivity|by right].
Qed.

Lemma store_article_trace (env : Env) (source : Source) (dir : string)
    (article : Item) :
  logs (store_article env source dir article)
    (fun _ tr => backfill_trace [article] tr).
Proof.
  unfold store_article.
  eapply logs_bind.
  { apply does_logs. unfold fetch_og_metadata.
    instantiate (1 := fun _ tr => tr = [EGet (og_request (i_url article))]).
    eapply does_bind; [apply does_http_get|].
    intros out tr1 ->. by destruct out; apply does_ret. }
  intros og tr1 ->.
  eapply logs_bind; [apply does_logs, does_emit|].
  intros x tr2 ->.
  eapply logs_bind.
  { apply does_logs.
    instantiate (1 := fun _ tr =>
      tr = [] \/ exists u, tr = [EDownload u] /\ startswith "http" u = true).
    destruct (truthy _); [|apply does_ret; by left].
    eapply does_weaken; [apply download_image_trace|].
    intros r tr [->|[-> Hh]]; [by left|right; by eexists]. }
  intros img tr3 H3. cbv beta in H3.
  assert (Hc : backfill_trace [article]
                 ([EGet (og_request (i_url article))]
                  ++ [ESleepUniform 500 500] ++ tr3 ++ [])).
  { rewrite !app_nil_r. cbn [app].
    destruct H3 as [->|(u & -> & Hh)]; unfold backfill_trace; cbn;
      repeat split; try done; try lia. by constructor. }
  destruct img as [img|]; [|apply logs_ret; exact Hc].
  eapply logs_bind; [apply db_add_article_logs|].
  intros aid tr4 ->. cbn [app].
  destruct aid as [rid|]; [destruct (rid =? 0)%Z|]; apply logs_ret; exact Hc.
Qed.

(** The loop asks for the pages of the articles in order, up to the end
    of the list or up to the article whose image download raises, that
    one included. *)
Lemma store_articles_trace (env : Env) (source : Source) (dir : string)
    (new_articles : list Item) :
  forall n : Z,
    logs (store_articles env source dir new_articles n)
      (fun r tr => exists asked rest,
         new_articles = asked ++ rest /\
         backfill_trace asked tr /\
         match r with
         | Ok _ => rest = []
         | Exn => asked <> []
         end).
Proof.
  induction new_articles as [|a l IH]; intros n; cbn [store_articles].
  - apply logs_ret. exists [], []. split; [done|]. split; [|done].
    unfold backfill_trace. cbn. repeat split; (done || lia).
  - eapply logs_bind; [apply store_article_trace|].
    intros added tr1 H1. cbv beta in H1.
    destruct added as [added|].
    + eapply logs_weaken; [apply IH|].
      intros r tr2 (asked & rest & -> & H2 & Hr).
      exists (a :: asked), rest. split; [done|].
      split; [exact (backfill_trace_app [a] asked tr1 tr2 H1 H2)|].
      by destruct r.
    + apply logs_ret. rewrite app_nil_r.
      exists [a], l. done.
Qed.


(** ** Dates of feed entries *)

Lemma digit_mod (a b : Z) : digit a = digit b -> (a mod 10 = b mod 10)%Z.
Proof.
  unfold digit.
  pose proof (Z.mod_pos_bound a 10 eq_refl) as Ha.
  pose proof (Z.mod_pos_bound b 10 eq_refl) as Hb.
  set (x := (a mod 10)%Z) in *. set (y := (b mod 10)%Z) in *.
  clearbody x y. intros H.
  assert (Ex : (x = 0 \/ x = 1 \/ x = 2 \/ x = 3 \/ x = 4 \/ x = 5 \/ x = 6
                \/ x = 7 \/ x = 8 \/ x = 9)%Z) by lia.
  assert (Ey : (y = 0 \/ y = 1 \/ y = 2 \/ y = 3 \/ y = 4 \/ y = 5 \/ y = 6
                \/ y = 7 \/ y = 8 \/ y = 9)%Z) by lia.
  clear Ha Hb.
  destruct Ex as [->|[->|[->|[->|[->|[->|[->|[->|[->| ->]]]]]]]]];
    destruct Ey as [->|[->|[->|[->|[->|[->|[->|[->|[->| ->]]]]]]]]];
    first [reflexivity|vm_compute in H; discriminate H].
Qed.

Lemma pad2_inj (a b : Z) :
  (0 <= a <= 99)%Z -> (0 <= b <= 99)%Z -> pad2 a = pad2 b -> a = b.
Proof.
  intros Ha Hb H. unfold pad2 in H. injection H as H1 H0.
  apply digit_mod in H1, H0.
  revert H1 H0. Z.div_mod_to_equations. lia.
Qed.

Lemma pad4_inj (a b : Z) :
  (0 <= a <= 9999)%Z -> (0 <= b <= 9999)%Z -> pad4 a = pad4 b -> a = b.
Proof.
  intros Ha Hb H. unfold pad4, pad2 in H. injection H as H3 H2 H1 H0.
  apply digit_mod in H3, H2, H1, H0.
  revert H3 H2 H1 H0. Z.div_mod_to_equations. lia.
Qed.

Lemma days_in_month_le (y m : Z) : (days_in_month y m <= 31)%Z.
Proof.
  unfold days_in_month.
  destruct (m =? 2)%Z; [destruct (is_leap y); lia|].
  destruct (_ || _); lia.
Qed.

Lemma valid_datetime_ranges (t : TimeStruct) :
  valid_datetime t = true ->
  (0 <= tm_year t <= 9999 /\ 0 <= tm_mon t <= 99 /\ 0 <= tm_mday t <= 99 /\
   0 <= tm_hour t <= 99 /\ 0 <= tm_min t <= 99 /\ 0 <= tm_sec t <= 99)%Z.
Proof.
  unfold valid_datetime. intros H.
  repeat (apply andb_true_iff in H as [H ?]).
  pose proof (days_in_month_le (tm_year t) (tm_mon t)). lia.
Qed.

Lemma utc_isoformat_inj (t t' : TimeStruct) (d : string) :
  utc_isoformat t = Some d -> utc_isoformat t' = Some d -> t = t'.
Proof.
  unfold utc_isoformat.
  destruct (valid_datetime t) eqn:V; [|done].
  destruct (valid_datetime t') eqn:V'; [|done].
  apply valid_datetime_ranges in V as (Y & Mo & D & H & Mi & S).
  apply valid_datetime_ranges in V' as (Y' & Mo' & D' & H' & Mi' & S').
  intros [= <-] E. apply (inj Some) in E.
  assert (Ey : pad4 (tm_year t') = pad4 (tm_year t)
               /\ pad2 (tm_mon t') = pad2 (tm_mon t)
               /\ pad2 (tm_mday t') = pad2 (tm_mday t)
               /\ pad2 (tm_hour t') = pad2 (tm_hour t)
               /\ pad2 (tm_min t') = pad2 (tm_min t)
               /\ pad2 (tm_sec t') = pad2 (tm_sec t)).
  { unfold pad4, pad2 in *. cbn [String.append] in E.
    injection E as E. intros. repeat split; congruence. }
  destruct Ey as (E1 & E2 & E3 & E4 & E5 & E6).
  apply pad4_inj in E1; [|done..]. apply pad2_inj in E2; [|done..].
  apply pad2_inj in E3; [|done..]. apply pad2_inj in E4; [|done..].
  apply pad2_inj in E5; [|done..]. apply pad2_inj in E6; [|done..].
  destruct t, t'. cbn in *. congruence.
Qed.

Lemma utc_isoformat_length (t : TimeStruct) (d : string) :
  utc_isoformat t = Some d -> String.length d = 25%nat.
Proof.
  unfold utc_isoformat. destruct (valid_datetime t); [|done].
  by intros [= <-].
Qed.

Lemma pub_date_parsed (env : Env) (e : Entry) (t : TimeStruct) :
  e_published_parsed e = Some t -> valid_datetime t = true ->
  pub_date env e = utc_isoformat t.
Proof.
  intros Ep V. unfold pub_date. rewrite Ep. unfold utc_isoformat. by rewrite V.
Qed.

(** X28. A structured publication date decides. When an entry carries a
    parsed publication date that the datetime constructor accepts, the
    date of the article is its UTC ISO form, 25 characters long,
    whatever the updated date and the date strings of the entry are and
    whatever the date parser would make of them; and two such entries
    get the same date only when their parsed dates agree in every
    field. *)
Theorem pub_date_structured (env : Env) (e : Entry) (t : TimeStruct) :
  e_published_parsed e = Some t -> valid_datetime t = true ->
  pub_date env e = utc_isoformat t /\
  (exists d, pub_date env e = Some d /\ String.length d = 25%nat) /\
  (forall env' e' t',
     e_published_parsed e' = Some t' -> valid_datetime t' = true ->
     pub_date env' e' = pub_date env e -> t' = t).
Proof.
  intros Ep V. rewrite (pub_date_parsed env e t Ep V).
  split; [done|]. split.
  - destruct (utc_isoformat t) as [d|] eqn:E.
    + exists d. split; [done|]. by apply (utc_isoformat_length t).
    + unfold utc_isoformat in E. by rewrite V in E.
  - intros env' e' t' Ep' V' E. rewrite (pub_date_parsed env' e' t' Ep' V') in E.
    destruct (utc_isoformat t) as [d|] eqn:Et.
    + by apply (utc_isoformat_inj t' t d).
    + unfold utc_isoformat in Et. by rewrite V in Et.
Qed.

(** The entry dated on the leap day. *)
Lemma pub_date_structured_witness :
  e_published_parsed entry_dated = Some leap_day /\
  valid_datetime leap_day = true /\
  pub_date env_site entry_dated = Some "2024-02-29T23:59:59+00:00".
Proof.
  split; [reflexivity|]. split; [reflexivity|].
  rewrite (proj1 (pub_date_structured env_site entry_dated leap_day
                    eq_refl eq_refl)).
  reflexivity.
Defined.
